(** * KaroSpaceSE: the HTML payload externalizer

    A shallow embedding of [scripts/externalize_karospace_html.py] and the
    properties of its chunk planner, boundary scanner, span rewriter and
    mode orchestrator.

    Conventions.
    - A Python [str] is a list of code points ([text], a [list Z]); a
      [bytes] object is a list of octets, also a [list Z].
    - Python integers are [Z]; offsets into a [str] are [Z] where the
      source does arithmetic on them that could leave the range.
    - An exception is a value of [exn]; a function that may raise returns
      [result A].
    - Python's [float] and the limits of the interpreter that the [json]
      module runs into are parameters ([PyRuntime]); Part III instantiates
      them for the concrete runs. *)

From Stdlib Require Import ZArith List Lia Zify Bool String Ascii Sorting.Sorted Permutation.
From stdpp Require Import base tactics option list sorting strings gmap.

Import ListNotations.
Local Open Scope Z_scope.

(* ===================================================================== *)
(** * Part I: the embedding *)
(* ===================================================================== *)

(** ** Text and Python sequence operations *)

Abbreviation text := (list Z).
Abbreviation bytes := (list Z).

(** The code points of an ASCII literal. *)
Definition T (s : string) : text :=
  map (fun a => Z.of_nat (nat_of_ascii a)) (list_ascii_of_string s).

Definition zlen {A} (l : list A) : Z := Z.of_nat (length l).

(** Python clamps a slice bound: a negative bound counts from the end, and
    any bound is cut to [0, len]. *)
Definition slice_bound (len i : Z) : nat :=
  Z.to_nat (if i <? 0 then Z.max 0 (len + i) else Z.min i len).

(** [l[:i]] *)
Definition slice_to {A} (l : list A) (i : Z) : list A :=
  take (slice_bound (zlen l) i) l.

(** [l[i:]] *)
Definition slice_from {A} (l : list A) (i : Z) : list A :=
  drop (slice_bound (zlen l) i) l.

(** [l[i:j]] *)
Definition slice {A} (l : list A) (i j : Z) : list A :=
  let a := slice_bound (zlen l) i in
  let b := slice_bound (zlen l) j in
  take (b - a) (drop a l).

(** ** Exceptions *)

Inductive exn : Type :=
  | ValueError
  | RuntimeError
  | FileNotFoundError
  | UnicodeEncodeError
  | UnicodeDecodeError
  | IndexError
  | OSError
  | SameFileError       (* [shutil.SameFileError] *)
  | JSONDecodeError     (* [json.JSONDecodeError] *)
  | RecursionError
  | OutOfFuel.  (* not a Python exception: a loop of the model ran out of
                   its iteration bound; the properties show it never does *)

Inductive result (A : Type) : Type :=
  | Ok (a : A)
  | Raise (e : exn).
Arguments Ok {A} a.
Arguments Raise {A} e.

#[global] Instance result_ret : MRet result := fun A a => Ok a.
#[global] Instance result_bind : MBind result := fun A B k r =>
  match r with
  | Ok a => k a
  | Raise e => Raise e
  end.

(** ** Span replacement ([apply_replacements]) *)

Record Replacement : Type := mkReplacement {
  r_start : Z;
  r_end : Z;
  r_text : text
}.

(** [sorted(xs, key=k, reverse=True)]: Python's sort is stable, also when
    reversed, so elements with equal keys keep their original order.  The
    stable sort of a list is unique; insertion from the right computes it. *)
Fixpoint insert_desc {A} (key : A -> Z) (x : A) (l : list A) : list A :=
  match l with
  | [] => [x]
  | y :: l' => if key x <? key y then y :: insert_desc key x l' else x :: l
  end.

Definition sorted_desc {A} (key : A -> Z) (l : list A) : list A :=
  foldr (insert_desc key) [] l.

(** [sorted(xs, key=k)], ascending and stable. *)
Fixpoint insert_asc {A} (key : A -> Z) (x : A) (l : list A) : list A :=
  match l with
  | [] => [x]
  | y :: l' => if key y <? key x then y :: insert_asc key x l' else x :: l
  end.

Definition sorted_asc {A} (key : A -> Z) (l : list A) : list A :=
  foldr (insert_asc key) [] l.

(** One iteration of the loop body:
    [updated = updated[: repl.start] + repl.text + updated[repl.end :]]. *)
Definition replace_span (updated : text) (repl : Replacement) : text :=
  slice_to updated (r_start repl) ++ r_text repl ++ slice_from updated (r_end repl).

Definition apply_replacements (html : text) (replacements : list Replacement) : text :=
  fold_left replace_span (sorted_desc r_start replacements) html.

(** The reference the rewriter is compared with: every span of the
    original document replaced at once.  Reading the original left to
    right from [pos], the text up to the next span is kept, the span's
    replacement is emitted, and reading resumes after the span. *)
Fixpoint substitute_from (html : text) (pos : Z) (spans : list Replacement) : text :=
  match spans with
  | [] => slice_from html pos
  | r :: spans' =>
      slice html pos (r_start r) ++ r_text r ++ substitute_from html (r_end r) spans'
  end.

Definition simultaneous_substitution (html : text) (replacements : list Replacement) : text :=
  substitute_from html 0 (sorted_asc r_start replacements).

(** A span lies within the text. *)
Definition span_within (html : text) (r : Replacement) : Prop :=
  0 <= r_start r /\ r_start r <= r_end r /\ r_end r <= zlen html.

(** Two half-open spans share no position and neither lies inside the other. *)
Definition spans_apart (a b : Replacement) : Prop :=
  r_end a <= r_start b \/ r_end b <= r_start a.

Definition pairwise_non_overlapping (rs : list Replacement) : Prop :=
  ForallOrdPairs spans_apart rs.

(** ** UTF-8 *)

(** [str.encode("utf-8")] of one code point.  Python's codec is strict: a
    surrogate (U+D800..U+DFFF) cannot be encoded ([UnicodeEncodeError]),
    and a [str] holds no code point outside U+0000..U+10FFFF. *)
Definition utf8_encode_cp (c : Z) : option bytes :=
  if (c <? 0) then None
  else if c <? 0x80 then Some [c]
  else if c <? 0x800 then Some [0xC0 + c / 64; 0x80 + c mod 64]
  else if c <? 0x10000 then
    if (0xD800 <=? c) && (c <? 0xE000) then None
    else Some [0xE0 + c / 4096; 0x80 + (c / 64) mod 64; 0x80 + c mod 64]
  else if c <? 0x110000 then
    Some [0xF0 + c / 262144; 0x80 + (c / 4096) mod 64; 0x80 + (c / 64) mod 64; 0x80 + c mod 64]
  else None.

Fixpoint utf8_encode (s : text) : option bytes :=
  match s with
  | [] => Some []
  | c :: s' =>
      match utf8_encode_cp c, utf8_encode s' with
      | Some b, Some bs => Some (b ++ bs)
      | _, _ => None
      end
  end.

(** [s.encode("utf-8")] *)
Definition encode (s : text) : result bytes :=
  match utf8_encode s with
  | Some b => Ok b
  | None => Raise UnicodeEncodeError
  end.

(** The test the splitter makes on a byte: [(b & 0b1100_0000) == 0b1000_0000]. *)
Definition is_continuation (b : Z) : bool := Z.land b 0xC0 =? 0x80.

(** [bytes.decode("utf-8")], strict: a truncated or overlong sequence, a
    stray continuation byte, an encoded surrogate or a value past
    U+10FFFF is refused ([UnicodeDecodeError]). *)
Fixpoint utf8_decode (bs : bytes) : option text :=
  match bs with
  | [] => Some []
  | b0 :: r0 =>
      if (0 <=? b0) && (b0 <? 0x80) then cons b0 <$> utf8_decode r0
      else if (0xC2 <=? b0) && (b0 <? 0xE0) then
        match r0 with
        | b1 :: r1 =>
            if is_continuation b1
            then cons ((b0 - 0xC0) * 64 + (b1 - 0x80)) <$> utf8_decode r1
            else None
        | _ => None
        end
      else if (0xE0 <=? b0) && (b0 <? 0xF0) then
        match r0 with
        | b1 :: b2 :: r2 =>
            let c := (b0 - 0xE0) * 4096 + (b1 - 0x80) * 64 + (b2 - 0x80) in
            if is_continuation b1 && is_continuation b2
               && (0x800 <=? c) && negb ((0xD800 <=? c) && (c <? 0xE000))
            then cons c <$> utf8_decode r2
            else None
        | _ => None
        end
      else if (0xF0 <=? b0) && (b0 <? 0xF5) then
        match r0 with
        | b1 :: b2 :: b3 :: r3 =>
            let c := (b0 - 0xF0) * 262144 + (b1 - 0x80) * 4096
                     + (b2 - 0x80) * 64 + (b3 - 0x80) in
            if is_continuation b1 && is_continuation b2 && is_continuation b3
               && (0x10000 <=? c) && (c <? 0x110000)
            then cons c <$> utf8_decode r3
            else None
        | _ => None
        end
      else None
  end.

(** [b.decode("utf-8")] *)
Definition decode (b : bytes) : result text :=
  match utf8_decode b with
  | Some s => Ok s
  | None => Raise UnicodeDecodeError
  end.

(** A code point that UTF-8 can encode: a Unicode scalar value. *)
Definition is_scalar (c : Z) : bool :=
  (0 <=? c) && (c <? 0x110000) && negb ((0xD800 <=? c) && (c <? 0xE000)).

(** ** The grammar of JSON numbers ([NUMBER_RE]) *)

Definition is_digit (c : Z) : bool := (48 <=? c) && (c <=? 57).

(** The digits at the head of [s], as a number continuing [acc]. *)
Fixpoint scan_digits (s : text) (acc : Z) : Z * text :=
  match s with
  | c :: s' => if is_digit c then scan_digits s' (acc * 10 + (c - 48)) else (acc, s)
  | [] => (acc, [])
  end.

Definition head_is (p : Z -> bool) (s : text) : bool :=
  match s with
  | c :: _ => p c
  | [] => false
  end.

(** The text goes on with a fraction (a dot and a digit) or an exponent
    ([e] or [E], an optional sign, a digit): the second or the third
    group of [NUMBER_RE] matches, and Python reads a [float]. *)
Definition float_follows (s : text) : bool :=
  match s with
  | c :: r =>
      if c =? 46 then head_is is_digit r
      else if (c =? 101) || (c =? 69) then
        head_is is_digit r ||
        (head_is (fun d => (d =? 43) || (d =? 45)) r && head_is is_digit (tail r))
      else false
  | [] => false
  end.

(** The second group of [NUMBER_RE], a dot and digits: the text after
    it, or [s] where there is none. *)
Definition skip_fraction (s : text) : text :=
  match s with
  | c :: r => if (c =? 46) && head_is is_digit r then snd (scan_digits r 0) else s
  | [] => []
  end.

(** The third group of [NUMBER_RE], [e] or [E], an optional sign and
    digits: the text after it, or [s] where there is none. *)
Definition skip_exponent (s : text) : text :=
  match s with
  | c :: r =>
      if (c =? 101) || (c =? 69) then
        let r' := if head_is (fun d => (d =? 43) || (d =? 45)) r then tail r else r in
        if head_is is_digit r' then snd (scan_digits r' 0) else s
      else s
  | [] => []
  end.

(** The integer part of [NUMBER_RE] after its sign: a zero, or a digit
    other than zero and the digits after it. *)
Definition scan_unsigned (s : text) : option (Z * text) :=
  match s with
  | c :: s' =>
      if c =? 48 then Some (0, s')
      else if is_digit c then Some (scan_digits s' (c - 48))
      else None
  | [] => None
  end.

(** A text that [NUMBER_RE] matches from end to end, with a fraction or
    an exponent. *)
Definition float_literal (t : text) : bool :=
  match scan_unsigned (if head_is (Z.eqb 45) t then tail t else t) with
  | Some (_, r0) =>
      float_follows r0 && bool_decide (skip_exponent (skip_fraction r0) = [])
  | None => false
  end.

(** ** The Python runtime *)

(** What the program takes from the interpreter and the source does not
    fix: floating point, and the two limits of the interpreter that the
    [json] module runs into.  How many arrays and objects, one inside the
    other, the decoder or the encoder can enter before the interpreter
    raises [RecursionError] depends on how deep in the call stack it is
    called: there is a number for each place where the program calls
    it. *)
Class PyRuntime : Type := {
  (** a [float] *)
  pyfloat : Type;
  (** [float(s)] for a text [s] that [NUMBER_RE] matched with a fraction
      or an exponent (a literal too large for a double gives an infinity) *)
  float_of_literal : text -> pyfloat;
  (** [float("nan")], [float("inf")] and [float("-inf")] *)
  float_nan : pyfloat;
  float_inf : pyfloat;
  float_neg_inf : pyfloat;
  (** what [json.dumps] writes for a [float]: [NaN], [Infinity] or
      [-Infinity], and [float.__repr__] for every other one *)
  float_dumps : pyfloat -> text;
  (** [sys.get_int_max_str_digits()], 4300 unless changed; 0: no limit *)
  int_max_str_digits : Z;
  (** the nesting left to [json.loads] in [detect_candidates] *)
  loads_depth : nat;
  (** the nesting left to [raw_decode] in [detect_assignment_candidates] *)
  raw_decode_depth : nat;
  (** the nesting left to [json.dumps] in [split_array_for_target_bytes] *)
  item_dumps_depth : nat;
  (** the nesting left to [json.dumps] in [write_array_chunks] and in
      [write_text_chunks] *)
  chunk_dumps_depth : nat;
  (** [float.__repr__] writes a number that [float] reads back as the
      same [float] *)
  float_read_back : forall f : pyfloat,
    float_literal (float_dumps f) = true -> float_of_literal (float_dumps f) = f
}.

Section python.
Context {runtime : PyRuntime}.

(** ** JSON values and [json.dumps] *)

(** What [json.loads] builds: [None], a [bool], an [int], a [float], a
    [str], a [list], or a [dict] with [str] keys (its members in
    insertion order). *)
Inductive json : Type :=
  | JNull
  | JBool (b : bool)
  | JInt (n : Z)
  | JFloat (f : pyfloat)
  | JStr (s : text)
  | JArr (items : list json)
  | JObj (members : list (text * json)).

(** [str(n)] for a non-negative [n], most significant digit first. *)
Fixpoint digits_fuel (fuel : nat) (n : Z) (acc : text) : text :=
  match fuel with
  | O => acc
  | S fuel' =>
      let acc' := (48 + n mod 10) :: acc in
      if n <? 10 then acc' else digits_fuel fuel' (n / 10) acc'
  end.

Definition digits (n : Z) : text := digits_fuel (S (Z.to_nat (Z.log2 n))) n [].

(** [str(n)] *)
Definition decimal (n : Z) : text :=
  if n <? 0 then 45 :: digits (- n) else digits n.

Definition hex_digit (d : Z) : Z := if d <? 10 then 48 + d else 87 + d.

(** One character of a string as [json.dumps(..., ensure_ascii=False)]
    writes it: the quote, the backslash and the control characters below
    U+0020 are escaped, everything else is written as it is. *)
Definition escape_char (c : Z) : text :=
  if c =? 34 then T "\" ++ [34]
  else if c =? 92 then T "\\"
  else if c =? 10 then T "\n"
  else if c =? 13 then T "\r"
  else if c =? 9 then T "\t"
  else if c =? 8 then T "\b"
  else if c =? 12 then T "\f"
  else if (0 <=? c) && (c <? 32) then T "\u00" ++ [hex_digit (c / 16); hex_digit (c mod 16)]
  else [c].

Definition dumps_string (s : text) : text :=
  [34] ++ flat_map escape_char s ++ [34].

(** [sep.join(parts)] *)
Fixpoint join (sep : text) (parts : list text) : text :=
  match parts with
  | [] => []
  | [p] => p
  | p :: rest => p ++ sep ++ join sep rest
  end.

(** The compact serialization of a value, the text that
    [json.dumps(v, ensure_ascii=False, separators=(",", ":"))] returns:
    with [allow_nan] at its default, a [float] that is not a number is
    written as [NaN], [Infinity] or [-Infinity]. *)
Fixpoint dumps (v : json) : text :=
  match v with
  | JNull => T "null"
  | JBool true => T "true"
  | JBool false => T "false"
  | JInt n => decimal n
  | JFloat f => float_dumps f
  | JStr s => dumps_string s
  | JArr items => T "[" ++ join (T ",") (map dumps items) ++ T "]"
  | JObj members =>
      T "{" ++ join (T ",") (map (fun kv => dumps_string (fst kv) ++ T ":" ++ dumps (snd kv)) members)
        ++ T "}"
  end.

(** Where [json.dumps] raises instead: [ValueError] at an [int] of more
    digits than the interpreter converts, [RecursionError] at an array or
    an object when [depth] of them are entered already; the first one met
    in the order of the serialization. *)
Fixpoint dumps_check (depth : nat) (v : json) {struct v} : result unit :=
  match v with
  | JNull | JBool _ | JFloat _ | JStr _ => Ok tt
  | JInt n =>
      if (0 <? int_max_str_digits) && (int_max_str_digits <? zlen (digits (Z.abs n)))
      then Raise ValueError else Ok tt
  | JArr items =>
      match depth with
      | O => Raise RecursionError
      | S depth' =>
          (fix check_items (l : list json) : result unit :=
             match l with
             | [] => Ok tt
             | item :: l' => _ ← dumps_check depth' item; check_items l'
             end) items
      end
  | JObj members =>
      match depth with
      | O => Raise RecursionError
      | S depth' =>
          (fix check_members (l : list (text * json)) : result unit :=
             match l with
             | [] => Ok tt
             | kv :: l' => _ ← dumps_check depth' (snd kv); check_members l'
             end) members
      end
  end.

(** [json.dumps(v, ensure_ascii=False, separators=(",", ":"))] where
    [depth] arrays and objects can be entered. *)
Definition json_dumps (depth : nat) (v : json) : result text :=
  _ ← dumps_check depth v; Ok (dumps v).

(** ** The chunk planner *)

(** [len(json.dumps(item, ...).encode("utf-8"))] *)
Definition item_size (item : json) : result Z :=
  s ← json_dumps item_dumps_depth item;
  b ← encode s;
  Ok (zlen b).

(** The loop of [split_array_for_target_bytes] over the remaining items,
    with the loop's variables as arguments. *)
Fixpoint split_array_loop (target_bytes : Z) (items : list json)
    (chunks : list (list json)) (current : list json) (current_bytes : Z)
    : result (list (list json) * list json) :=
  match items with
  | [] => Ok (chunks, current)
  | item :: rest =>
      item_bytes ← item_size item;
      let extra_comma := if bool_decide (current = []) then 0 else 1 in
      let projected := current_bytes + extra_comma + item_bytes in
      if negb (bool_decide (current = [])) && (target_bytes <? projected) then
        split_array_loop target_bytes rest (chunks ++ [current]) [item] (2 + item_bytes)
      else
        let current_bytes := if bool_decide (current = []) then current_bytes
                             else current_bytes + 1 in
        split_array_loop target_bytes rest chunks (current ++ [item])
          (current_bytes + item_bytes)
  end.

Definition split_array_for_target_bytes (items : list json) (target_bytes : Z)
    : result (list (list json)) :=
  if target_bytes <=? 0 then Raise ValueError
  else match items with
  | [] => Ok [[]]
  | _ =>
      '(chunks, current) ← split_array_loop target_bytes items [] [] 2;
      Ok (if bool_decide (current = []) then chunks else chunks ++ [current])
  end.

(** *** Vocabulary for the planner's properties *)

(** A value whose compact serialization UTF-8 can encode: it holds no
    lone surrogate. *)
Definition json_encodable (v : json) : Prop := is_Some (utf8_encode (dumps v)).

(** A value that [item_size] measures: it does not raise. *)
Definition sizable (v : json) : Prop := exists n, item_size v = Ok n.

(** The UTF-8 length of a value's compact serialization. *)
Definition byte_size (v : json) : Z :=
  match utf8_encode (dumps v) with
  | Some b => zlen b
  | None => 0
  end.

(** The size the planner accounts for a fragment: two brackets, the items
    and one comma between neighbours. *)
Definition frag_size (frag : list json) : Z :=
  2 + foldr (fun v acc => byte_size v + acc) 0 frag
    + (if bool_decide (frag = []) then 0 else zlen frag - 1).

(** A fragment that respects the budget, or holds at most one item. *)
Definition within_target (target_bytes : Z) (frag : list json) : Prop :=
  frag_size frag <= target_bytes \/ (length frag <= 1)%nat.

(** ** [json.JSONDecoder] *)

(** The scanner of Python's [json] module.  It fails in three ways: with
    [JSONDecodeError] on a text that is not JSON, with [RecursionError]
    on arrays and objects nested deeper than the interpreter allows, and
    with [ValueError] on an integer literal longer than the interpreter's
    digit limit. *)

(** [WHITESPACE = " \t\n\r"] *)
Definition json_ws (c : Z) : bool :=
  (c =? 32) || (c =? 9) || (c =? 10) || (c =? 13).

Fixpoint skip_json_ws (s : text) : text :=
  match s with
  | c :: s' => if json_ws c then skip_json_ws s' else s
  | [] => []
  end.

Definition hex_value (c : Z) : option Z :=
  if (48 <=? c) && (c <=? 57) then Some (c - 48)
  else if (97 <=? c) && (c <=? 102) then Some (c - 87)
  else if (65 <=? c) && (c <=? 70) then Some (c - 55)
  else None.

(** The four hexadecimal digits of a [\uXXXX] escape. *)
Definition hex4 (a b c d : Z) : option Z :=
  x ← hex_value a; y ← hex_value b; z ← hex_value c; w ← hex_value d;
  Some (((x * 16 + y) * 16 + z) * 16 + w).

Definition simple_escape (c : Z) : option Z :=
  if c =? 34 then Some 34          (* quote *)
  else if c =? 92 then Some 92     (* backslash *)
  else if c =? 47 then Some 47     (* slash *)
  else if c =? 98 then Some 8      (* b: backspace *)
  else if c =? 102 then Some 12    (* f: form feed *)
  else if c =? 110 then Some 10    (* n: line feed *)
  else if c =? 114 then Some 13    (* r: carriage return *)
  else if c =? 116 then Some 9     (* t: tab *)
  else None.

(** [scanstring(s, end, strict=True)], entered after the opening quote:
    the decoded string and the text after the closing quote, or [None]
    where it raises [JSONDecodeError].  A raw control character is
    refused; a [\uXXXX] escape that is a high surrogate joins a low
    surrogate escape that follows it. *)
Fixpoint scanstring (s : text) : option (text * text) :=
  match s with
  | [] => None
  | c :: r =>
      if c =? 34 then Some ([], r)
      else if c =? 92 then
        match r with
        | [] => None
        | e :: r1 =>
            if e =? 117 then
              match r1 with
              | h1 :: h2 :: h3 :: h4 :: r2 =>
                  u ← hex4 h1 h2 h3 h4;
                  let single := '(str, rest) ← scanstring r2; Some (u :: str, rest) in
                  if (0xD800 <=? u) && (u <=? 0xDBFF) then
                    match r2 with
                    | b :: x :: l1 :: l2 :: l3 :: l4 :: r3 =>
                        if (b =? 92) && (x =? 117) then
                          u2 ← hex4 l1 l2 l3 l4;
                          if (0xDC00 <=? u2) && (u2 <=? 0xDFFF) then
                            '(str, rest) ← scanstring r3;
                            Some ((0x10000 + (u - 0xD800) * 1024 + (u2 - 0xDC00)) :: str, rest)
                          else single
                        else single
                    | _ => single
                    end
                  else single
              | _ => None
              end
            else
              x ← simple_escape e;
              '(str, rest) ← scanstring r1;
              Some (x :: str, rest)
        end
      else if c <? 32 then None
      else
        '(str, rest) ← scanstring r;
        Some (c :: str, rest)
  end.

(** [scanstring] as the scanner calls it. *)
Definition scan_string (s : text) : result (text * text) :=
  match scanstring s with
  | Some found => Ok found
  | None => Raise JSONDecodeError
  end.

(** [match_number] and the conversion of its groups: [None] where
    [NUMBER_RE] does not match at the head of [s]; a [float] of the whole
    match when a fraction or an exponent is there; otherwise [int] of
    the integer part, which raises [ValueError] when it has more than
    [max_digits] digits. *)
Definition scan_number (max_digits : Z) (s : text) : option (result (json * text)) :=
  let negative := head_is (Z.eqb 45) s in
  let s1 := if negative then tail s else s in
  match scan_unsigned s1 with
  | None => None
  | Some (n, r0) =>
      if float_follows r0 then
        let rest := skip_exponent (skip_fraction r0) in
        Some (Ok (JFloat (float_of_literal (take (length s - length rest) s)), rest))
      else if (0 <? max_digits) && (max_digits <? zlen s1 - zlen r0) then
        Some (Raise ValueError)
      else Some (Ok (JInt (if negative then - n else n), r0))
  end.

(** [s.startswith(p)], with the text after the prefix. *)
Fixpoint strip_prefix (p s : text) : option text :=
  match p, s with
  | [], _ => Some s
  | a :: p', b :: s' => if a =? b then strip_prefix p' s' else None
  | _ :: _, [] => None
  end.

(** [dict(pairs)]: a key seen again keeps its first position and takes
    the later value. *)
Fixpoint dict_set (k : text) (v : json) (d : list (text * json)) : list (text * json) :=
  match d with
  | [] => [(k, v)]
  | (k', v') :: d' =>
      if bool_decide (k = k') then (k', v) :: d' else (k', v') :: dict_set k v d'
  end.

Definition dict_of_pairs (pairs : list (text * json)) : list (text * json) :=
  fold_left (fun d kv => dict_set (fst kv) (snd kv) d) pairs [].

(** The literals [null], [true] and [false] at the head of [s]. *)
Definition scan_literal (s : text) : option (json * text) :=
  match strip_prefix (T "null") s with
  | Some rest => Some (JNull, rest)
  | None =>
      match strip_prefix (T "true") s with
      | Some rest => Some (JBool true, rest)
      | None =>
          match strip_prefix (T "false") s with
          | Some rest => Some (JBool false, rest)
          | None => None
          end
      end
  end.

(** [NaN], [Infinity] and [-Infinity] at the head of [s], which the
    scanner hands to [parse_constant]. *)
Definition scan_constant (s : text) : option (json * text) :=
  match strip_prefix (T "NaN") s with
  | Some rest => Some (JFloat float_nan, rest)
  | None =>
      match strip_prefix (T "Infinity") s with
      | Some rest => Some (JFloat float_inf, rest)
      | None =>
          match strip_prefix (T "-Infinity") s with
          | Some rest => Some (JFloat float_neg_inf, rest)
          | None => None
          end
      end
  end.

(** What differs between readers of JSON: whether [NaN], [Infinity] and
    [-Infinity] are read, and the longest integer literal that is
    converted (0: any length). *)
Record decoder : Type := mkDecoder {
  reads_constants : bool;
  max_int_digits : Z
}.

(** Entering an array or an object, with [depth] levels left ([None]: no
    limit). *)
Definition enter (depth : option nat) : result (option nat) :=
  match depth with
  | None => Ok None
  | Some O => Raise RecursionError
  | Some (S depth') => Ok (Some depth')
  end.

(** A value that is not a string, an array or an object: a literal, a
    number, or a constant. *)
Definition scan_atom (d : decoder) (s : text) : result (json * text) :=
  match scan_literal s with
  | Some found => Ok found
  | None =>
      match scan_number (max_int_digits d) s with
      | Some number => number
      | None =>
          match (if reads_constants d then scan_constant s else None) with
          | Some found => Ok found
          | None => Raise JSONDecodeError
          end
      end
  end.

(** [scan_once], [JSONArray] and [JSONObject].  [scan_once] consumes a
    character before it enters an array or an object, and these call
    [scan_once] at once: a fuel above twice the length of the text is
    never used up. *)
Fixpoint scan_once (d : decoder) (fuel : nat) (depth : option nat) (s : text)
    : result (json * text) :=
  match fuel with
  | O => Raise OutOfFuel
  | S fuel' =>
      match s with
      | [] => Raise JSONDecodeError
      | c :: r =>
          if c =? 34 then '(str, rest) ← scan_string r; Ok (JStr str, rest)
          else if c =? 123 then
            inner ← enter depth;
            match skip_json_ws r with
            | [] => Raise JSONDecodeError
            | c' :: r' =>
                if c' =? 125 then Ok (JObj [], r')
                else if c' =? 34 then
                  '(pairs, rest) ← scan_members d fuel' inner r';
                  Ok (JObj (dict_of_pairs pairs), rest)
                else Raise JSONDecodeError
            end
          else if c =? 91 then
            inner ← enter depth;
            if head_is (Z.eqb 93) (skip_json_ws r)
            then Ok (JArr [], tail (skip_json_ws r))
            else '(values, rest) ← scan_elements d fuel' inner (skip_json_ws r);
                 Ok (JArr values, rest)
          else scan_atom d s
      end
  end
with scan_elements (d : decoder) (fuel : nat) (depth : option nat) (s : text)
    : result (list json * text) :=
  match fuel with
  | O => Raise OutOfFuel
  | S fuel' =>
      '(value, r1) ← scan_once d fuel' depth s;
      match skip_json_ws r1 with
      | [] => Raise JSONDecodeError
      | c :: r2 =>
          if c =? 93 then Ok ([value], r2)
          else if c =? 44 then
            '(values, rest) ← scan_elements d fuel' depth (skip_json_ws r2);
            Ok (value :: values, rest)
          else Raise JSONDecodeError
      end
  end
with scan_members (d : decoder) (fuel : nat) (depth : option nat) (s : text)
    : result (list (text * json) * text) :=
  match fuel with
  | O => Raise OutOfFuel
  | S fuel' =>
      '(key, r1) ← scan_string s;
      match skip_json_ws r1 with
      | [] => Raise JSONDecodeError
      | c :: r2 =>
          if c =? 58 then
            '(value, r3) ← scan_once d fuel' depth (skip_json_ws r2);
            match skip_json_ws r3 with
            | [] => Raise JSONDecodeError
            | c' :: r4 =>
                if c' =? 125 then Ok ([(key, value)], r4)
                else if c' =? 44 then
                  match skip_json_ws r4 with
                  | [] => Raise JSONDecodeError
                  | q :: r5 =>
                      if q =? 34 then
                        '(pairs, rest) ← scan_members d fuel' depth r5;
                        Ok ((key, value) :: pairs, rest)
                      else Raise JSONDecodeError
                  end
                else Raise JSONDecodeError
            end
          else Raise JSONDecodeError
      end
  end.

(** Python's decoder with its defaults: the three constants are read,
    and the interpreter's limits apply. *)
Definition python_decoder : decoder := mkDecoder true int_max_str_digits.

(** [JSON_DECODER.raw_decode(s)]: the value at the head of [s] and the
    offset where it ends. *)
Definition raw_decode (s : text) : result (json * Z) :=
  '(value, rest) ← scan_once python_decoder (S (2 * length s)) (Some raw_decode_depth) s;
  Ok (value, zlen s - zlen rest).

(** One value, white space around it, nothing else. *)
Definition decode_document (d : decoder) (depth : option nat) (s : text) : result json :=
  if head_is (Z.eqb 0xFEFF) s then Raise JSONDecodeError
  else
    '(value, rest) ← scan_once d (S (2 * length s)) depth (skip_json_ws s);
    match skip_json_ws rest with
    | [] => Ok value
    | _ => Raise JSONDecodeError
    end.

(** [json.loads(s)] *)
Definition loads (s : text) : result json :=
  decode_document python_decoder (Some loads_depth) s.

(** A strict parser of JSON: the grammar of RFC 8259 and nothing else, no
    [NaN], no [Infinity], no limit of the Python interpreter.  It stands
    for [JSON.parse] in the loader, with the numbers kept as the values
    of the model.  A text is valid JSON when [JSON_parse] returns a
    value. *)
Definition JSON_parse (s : text) : result json :=
  decode_document (mkDecoder false 0) None s.

(** *** Well-formed values *)

(** A [str] that UTF-8 can encode: Unicode scalar values only. *)
Definition valid_text (s : text) : bool := forallb is_scalar s.

(** A [float] that [json.dumps] writes as a number: any but the two
    infinities and not-a-number. *)
Definition float_finite (f : pyfloat) : bool := float_literal (float_dumps f).

(** A value as Python holds it, without [NaN] and infinities: the keys of
    a [dict] are distinct and every [float] is finite. *)
Fixpoint json_plainb (v : json) : bool :=
  match v with
  | JNull | JBool _ | JInt _ | JStr _ => true
  | JFloat f => float_finite f
  | JArr items => forallb json_plainb items
  | JObj members =>
      bool_decide (NoDup (map fst members)) &&
      forallb (fun kv => json_plainb (snd kv)) members
  end.

Definition json_plain (v : json) : Prop := json_plainb v = true.

(** The values whose serialization is valid JSON that reads back to
    them: a plain value in which every string is valid text. *)
Fixpoint json_wfb (v : json) : bool :=
  match v with
  | JNull | JBool _ | JInt _ => true
  | JFloat f => float_finite f
  | JStr s => valid_text s
  | JArr items => forallb json_wfb items
  | JObj members =>
      bool_decide (NoDup (map fst members)) &&
      forallb (fun kv => valid_text (fst kv) && json_wfb (snd kv)) members
  end.

Definition json_wf (v : json) : Prop := json_wfb v = true.

(** What may follow a value inside a text: nothing that would continue
    a number. *)
Definition delimited (rest : text) : Prop :=
  head_is is_digit rest = false /\ float_follows rest = false.

(** ** The loader's [reconstruct]

    The client-side loader rebuilds a blob from the texts of its chunk
    files with [JSON.parse]; [None] stands for the exception it throws. *)

Inductive strategy : Type :=
  | array_slices
  | text_concat.

(** [merged = merged.concat(arr)] over the parsed chunks, each of which
    must be an array. *)
Fixpoint merge_array_chunks (chunk_texts : list text) : option (list json) :=
  match chunk_texts with
  | [] => Some []
  | t :: rest =>
      match JSON_parse t with
      | Ok (JArr arr) => merged ← merge_array_chunks rest; Some (arr ++ merged)
      | _ => None
      end
  end.

Definition reconstruct (s : strategy) (chunk_texts : list text) : option json :=
  match s with
  | array_slices => JArr <$> merge_array_chunks chunk_texts
  | text_concat =>
      match JSON_parse (concat chunk_texts) with
      | Ok v => Some v
      | Raise _ => None
      end
  end.

(** ** Splitting text at UTF-8 boundaries ([split_utf8_text_by_bytes]) *)

(** [l[i]]: a negative index counts from the end; an index outside the
    sequence raises [IndexError]. *)
Definition py_index (l : bytes) (i : Z) : result Z :=
  let j := if i <? 0 then i + zlen l else i in
  if (0 <=? j) && (j <? zlen l) then
    match l !! Z.to_nat j with
    | Some x => Ok x
    | None => Raise IndexError
    end
  else Raise IndexError.

(** [while end < total and (payload[end] & 0b1100_0000) == 0b1000_0000: end -= 1] *)
Fixpoint back_off (fuel : nat) (payload : bytes) (total end_ : Z) : result Z :=
  match fuel with
  | O => Raise OutOfFuel
  | S fuel' =>
      if end_ <? total then
        b ← py_index payload end_;
        if is_continuation b then back_off fuel' payload total (end_ - 1)
        else Ok end_
      else Ok end_
  end.

(** The loop [while idx < total], with the loop's variables as arguments. *)
Fixpoint split_utf8_loop (fuel : nat) (payload : bytes) (total max_bytes idx : Z)
    (chunks : list text) : result (list text) :=
  match fuel with
  | O => Raise OutOfFuel
  | S fuel' =>
      if idx <? total then
        let end0 := Z.min (idx + max_bytes) total in
        end1 ← back_off (Z.to_nat (end0 + total + 2)) payload total end0;
        let end2 := if end1 <=? idx then Z.min (idx + max_bytes) total else end1 in
        piece ← decode (slice payload idx end2);
        split_utf8_loop fuel' payload total max_bytes end2 (chunks ++ [piece])
      else Ok chunks
  end.

Definition split_utf8_text_by_bytes (s : text) (max_bytes : Z) : result (list text) :=
  if max_bytes <=? 0 then Raise ValueError
  else
    payload ← encode s;
    let total := zlen payload in
    if total =? 0 then Ok [[]]
    else split_utf8_loop (S (Z.to_nat total)) payload total max_bytes 0 [].

(** The number of bytes UTF-8 spends on a code point. *)
Definition utf8_width (c : Z) : Z :=
  match utf8_encode_cp c with
  | Some b => zlen b
  | None => 0
  end.

(** Every code point of the text fits in [max_bytes] bytes. *)
Definition code_points_fit (max_bytes : Z) (s : text) : Prop :=
  Forall (fun c => utf8_width c <= max_bytes) s.

(** The byte offset [off] of a payload is not inside a code point: it is
    the end of the payload or the byte there is not a continuation byte. *)
Definition at_boundary (payload : bytes) (off : Z) : Prop :=
  off = zlen payload \/
  exists b, payload !! Z.to_nat off = Some b /\ is_continuation b = false.

(** ** The boundary scanner *)

(** [str.isspace()] of one character, which is also [\s] of [re] on a
    [str]: the Unicode white space characters. *)
Definition py_isspace (c : Z) : bool :=
  ((9 <=? c) && (c <=? 13)) || ((28 <=? c) && (c <=? 32)) ||
  (c =? 133) || (c =? 160) || (c =? 5760) ||
  ((8192 <=? c) && (c <=? 8202)) || (c =? 8232) || (c =? 8233) ||
  (c =? 8239) || (c =? 8287) || (c =? 12288).

Definition ascii_alnum (c : Z) : bool :=
  ((48 <=? c) && (c <=? 57)) || ((65 <=? c) && (c <=? 90)) || ((97 <=? c) && (c <=? 122)).

Definition ascii_lower (c : Z) : Z :=
  if (65 <=? c) && (c <=? 90) then c + 32 else c.

(** A pattern letter [a] (lower case ASCII) against a character under
    [re.IGNORECASE]: the two ASCII cases, and the non-ASCII characters
    that case-fold to [i], [s] and [k]. *)
Definition ci_eq (a c : Z) : bool :=
  (ascii_lower c =? a) ||
  ((a =? 105) && ((c =? 0x130) || (c =? 0x131))) ||
  ((a =? 115) && (c =? 0x17F)) ||
  ((a =? 107) && (c =? 0x212A)).

(** The literal [p] (lower case ASCII) at the head of [s] under
    [re.IGNORECASE], with the text after it. *)
Fixpoint strip_prefix_ci (p s : text) : option text :=
  match p, s with
  | [], _ => Some s
  | a :: p', c :: s' => if ci_eq a c then strip_prefix_ci p' s' else None
  | _ :: _, [] => None
  end.

(** [skip_whitespace(text, pos)] *)
Fixpoint skip_spaces (s : text) : text :=
  match s with
  | c :: s' => if py_isspace c then skip_spaces s' else s
  | [] => []
  end.

Definition skip_whitespace (s : text) (pos : Z) : Z :=
  if pos <? zlen s
  then zlen s - zlen (skip_spaces (drop (Z.to_nat pos) s))
  else pos.

(** [s.strip()] *)
Definition strip (s : text) : text :=
  reverse (skip_spaces (reverse (skip_spaces s))).

(** The longest prefix of [s] whose characters satisfy [p], and the rest. *)
Fixpoint span_while (p : Z -> bool) (s : text) : text * text :=
  match s with
  | c :: s' =>
      if p c then let '(a, b) := span_while p s' in (c :: a, b) else ([], s)
  | [] => ([], [])
  end.

Section scanner.

(** [str.isalnum()] on the characters past ASCII: the Unicode table of
    letters and digits, which [\w] and [\b] consult. *)
Variable unicode_alnum : Z -> bool.

(** [\w] *)
Definition is_word (c : Z) : bool :=
  ascii_alnum c || (c =? 95) || ((128 <=? c) && unicode_alnum c).

(** One match of [SCRIPT_TAG_RE]. *)
Record ScriptMatch : Type := mkScriptMatch {
  sm_start : Z;
  sm_end : Z;
  sm_attrs : text;
  sm_body : text;
  sm_body_start : Z
}.

(** The text up to the first [</script>] (any case), and the text after
    that closing tag. *)
Fixpoint until_close (s : text) : option (text * text) :=
  match strip_prefix_ci (T "</script>") s with
  | Some rest => Some ([], rest)
  | None =>
      match s with
      | c :: s' => '(body, rest) ← until_close s'; Some (c :: body, rest)
      | [] => None
      end
  end.

(** [SCRIPT_TAG_RE] at the head of [s]: the attributes, the body and the
    text after the element. *)
Definition script_tag_at (s : text) : option (text * text * text) :=
  r1 ← strip_prefix_ci (T "<script") s;
  if head_is is_word r1 then None
  else
    let '(attrs, r2) := span_while (fun c => negb (c =? 62)) r1 in
    match r2 with
    | [] => None
    | _ :: r3 => '(body, rest) ← until_close r3; Some (attrs, body, rest)
    end.

(** [SCRIPT_TAG_RE.finditer(html)]: the matches from left to right, each
    search starting where the last match ended.  [pos] is the offset of
    [s] in the document. *)
Fixpoint find_script_tags (fuel : nat) (s : text) (pos : Z) : list ScriptMatch :=
  match fuel with
  | O => []
  | S fuel' =>
      match s with
      | [] => []
      | _ :: s' =>
          match script_tag_at s with
          | Some (attrs, body, rest) =>
              let e := pos + (zlen s - zlen rest) in
              mkScriptMatch pos e attrs body (pos + 8 + zlen attrs)
                :: find_script_tags fuel' rest e
          | None => find_script_tags fuel' s' (pos + 1)
          end
      end
  end.

Definition script_tags (html : text) : list ScriptMatch :=
  find_script_tags (length html) html 0.

(** The value of an attribute in [extract_attr]'s pattern at the head of
    [s]: a double-quoted, a single-quoted or a bare value. *)
Definition attr_value_at (s : text) : option text :=
  match s with
  | [] => None
  | q :: r =>
      if (q =? 34) || (q =? 39) then
        let '(v, r') := span_while (fun c => negb (c =? q)) r in
        match r' with
        | [] => None
        | _ :: _ => Some v
        end
      else
        let bare c := negb (py_isspace c || (c =? 34) || (c =? 39) || (c =? 61)
                            || (c =? 60) || (c =? 62) || (c =? 96)) in
        let '(v, _) := span_while bare s in
        match v with
        | [] => None
        | _ => Some v
        end
  end.

(** [extract_attr]'s pattern at the head of [s], the word boundary apart. *)
Definition attr_at (name s : text) : option text :=
  r1 ← strip_prefix_ci name s;
  match skip_spaces r1 with
  | e :: r2 => if e =? 61 then attr_value_at (skip_spaces r2) else None
  | [] => None
  end.

(** [pattern.search(attrs)]: the leftmost position with a word boundary
    ([\b]: exactly one of the characters around it is a word character)
    and a match.  [prev_word] tells whether the character before [s] is
    a word character. *)
Fixpoint search_attr (name s : text) (prev_word : bool) : option text :=
  match s with
  | [] => None
  | c :: s' =>
      match (if xorb prev_word (is_word c) then attr_at name s else None) with
      | Some v => Some v
      | None => search_attr name s' (is_word c)
      end
  end.

(** [extract_attr(attrs, name)], for a [name] in lower case ASCII. *)
Definition extract_attr (attrs name : text) : option text :=
  search_attr name attrs false.

(** One match of [ASSIGNMENT_START_RE]. *)
Record AssignMatch : Type := mkAssignMatch {
  am_start : Z;
  am_end : Z;
  am_decl_kind : option text;
  am_decl_name : option text;
  am_window_name : option text
}.

(** [[A-Za-z_$][\w$]*] at the head of [s]. *)
Definition identifier_at (s : text) : option (text * text) :=
  match s with
  | c :: s' =>
      if ((65 <=? c) && (c <=? 90)) || ((97 <=? c) && (c <=? 122)) || (c =? 95) || (c =? 36)
      then let '(name, rest) := span_while (fun c => is_word c || (c =? 36)) s' in
           Some (c :: name, rest)
      else None
  | [] => None
  end.

(** [NAME\s*=\s*] at the head of [s]. *)
Definition name_equals_at (s : text) : option (text * text) :=
  '(name, r1) ← identifier_at s;
  match skip_spaces r1 with
  | e :: r2 => if e =? 61 then Some (name, skip_spaces r2) else None
  | [] => None
  end.

(** [(const|let|var)\s+] and [name_equals_at] at the head of [s]. *)
Definition declaration_at (kw s : text) : option (text * text) :=
  r1 ← strip_prefix kw s;
  if head_is py_isspace r1 then name_equals_at (skip_spaces r1) else None.

(** [ASSIGNMENT_START_RE] at the head of [s]: the groups and the text
    after the match. *)
Definition assignment_at (s : text) : option (option text * option text * option text * text) :=
  match declaration_at (T "const") s with
  | Some (name, rest) => Some (Some (T "const"), Some name, None, rest)
  | None =>
  match declaration_at (T "let") s with
  | Some (name, rest) => Some (Some (T "let"), Some name, None, rest)
  | None =>
  match declaration_at (T "var") s with
  | Some (name, rest) => Some (Some (T "var"), Some name, None, rest)
  | None =>
      r1 ← strip_prefix (T "window.") s;
      '(name, rest) ← name_equals_at r1;
      Some (None, None, Some name, rest)
  end end end.

(** The leftmost match in [s], which lies at offset [pos] of the body. *)
Fixpoint search_assignment_from (s : text) (pos : Z) : option AssignMatch :=
  match assignment_at s with
  | Some (kind, dname, wname, rest) =>
      Some (mkAssignMatch pos (pos + (zlen s - zlen rest)) kind dname wname)
  | None =>
      match s with
      | [] => None
      | _ :: s' => search_assignment_from s' (pos + 1)
      end
  end.

(** [ASSIGNMENT_START_RE.search(script_body, scan_pos)] *)
Definition search_assignment (script_body : text) (scan_pos : Z) : option AssignMatch :=
  if zlen script_body <? scan_pos then None
  else search_assignment_from (drop (Z.to_nat scan_pos) script_body) scan_pos.

(** *** Candidates *)

Inductive detector_kind : Type :=
  | script_json
  | js_assignment.

Inductive assignment_style_kind : Type :=
  | style_window
  | style_declaration.

Record BlobCandidate : Type := mkBlobCandidate {
  detector : detector_kind;
  start : Z;
  end_ : Z;
  payload_bytes : Z;
  raw_json : text;
  value : json;
  script_attrs : option text;
  script_id : option text;
  script_had_id : bool;
  assignment_style : option assignment_style_kind;
  decl_kind : option text;
  variable_name : option text
}.

(** The variables of the loop in [detect_assignment_candidates]. *)
Record ScanState : Type := mkScanState {
  scan_pos : Z;
  consumed_until : Z;
  found : list BlobCandidate
}.

Inductive scan_step_result : Type :=
  | ScanDone (candidates : list BlobCandidate)
  | ScanContinue (st : ScanState).

(** [len(s.encode("utf-8"))] *)
Definition encoded_len (s : text) : result Z :=
  b ← encode s; Ok (zlen b).

(** One iteration of [while True] in [detect_assignment_candidates].
    Only [json.JSONDecodeError] is caught: any other exception of the
    decoder leaves the function. *)
Definition scan_step (script_body : text) (base_offset : Z) (st : ScanState)
    : result scan_step_result :=
  match search_assignment script_body (scan_pos st) with
  | None => Ok (ScanDone (found st))
  | Some m =>
      if am_start m <? consumed_until st then
        Ok (ScanContinue (mkScanState (consumed_until st) (consumed_until st) (found st)))
      else
        let value_start := skip_whitespace script_body (am_end m) in
        let opens c := (c =? 91) || (c =? 123) in
        if (zlen script_body <=? value_start)
           || negb (head_is opens (drop (Z.to_nat value_start) script_body))
        then Ok (ScanContinue (mkScanState (am_end m) (consumed_until st) (found st)))
        else
          match raw_decode (slice_from script_body value_start) with
          | Raise JSONDecodeError =>
              Ok (ScanContinue (mkScanState (am_end m) (consumed_until st) (found st)))
          | Raise e => Raise e
          | Ok (v, rel_end) =>
              let value_end := value_start + rel_end in
              let stmt_end0 := skip_whitespace script_body value_end in
              let stmt_end :=
                if (stmt_end0 <? zlen script_body)
                   && head_is (Z.eqb 59) (drop (Z.to_nat stmt_end0) script_body)
                then stmt_end0 + 1 else stmt_end0 in
              let raw := slice script_body value_start value_end in
              n ← encoded_len raw;
              let candidate :=
                mkBlobCandidate js_assignment
                  (base_offset + am_start m) (base_offset + stmt_end) n raw v
                  None None false
                  (Some (match am_window_name m with
                         | Some _ => style_window
                         | None => style_declaration
                         end))
                  (am_decl_kind m)
                  (match am_window_name m with
                   | Some w => Some w
                   | None => am_decl_name m
                   end) in
              Ok (ScanContinue (mkScanState stmt_end stmt_end (found st ++ [candidate])))
          end
  end.

Fixpoint scan_loop (fuel : nat) (script_body : text) (base_offset : Z) (st : ScanState)
    : result (list BlobCandidate) :=
  match fuel with
  | O => Raise OutOfFuel
  | S fuel' =>
      r ← scan_step script_body base_offset st;
      match r with
      | ScanDone candidates => Ok candidates
      | ScanContinue st' => scan_loop fuel' script_body base_offset st'
      end
  end.

(** Every iteration but the last moves [scan_pos] forward, and no match
    starts past the end of the body: [len(script_body) + 2] iterations
    are enough. *)
Definition detect_assignment_candidates (script_body : text) (base_offset : Z)
    : result (list BlobCandidate) :=
  scan_loop (S (S (length script_body))) script_body base_offset (mkScanState 0 0 []).

(** [f"karospace_data_{n:03d}"] and the other three-digit names. *)
Definition format_03d (n : Z) : text :=
  if n <? 0 then 45 :: replicate (2 - length (digits (- n))) 48 ++ digits (- n)
  else replicate (3 - length (digits n)) 48 ++ digits n.

(** The loop of [detect_candidates] over the matches of [SCRIPT_TAG_RE],
    with [generated_script_counter] as an argument. *)
Fixpoint detect_in_scripts (matches : list ScriptMatch) (generated_script_counter : Z)
    : result (list BlobCandidate) :=
  match matches with
  | [] => Ok []
  | m :: rest =>
      let attrs := sm_attrs m in
      let body := sm_body m in
      let script_type :=
        strip (map ascii_lower (default [] (extract_attr attrs (T "type")))) in
      if bool_decide (script_type = T "application/json") then
        let raw_body := strip body in
        if bool_decide (raw_body = []) then detect_in_scripts rest generated_script_counter
        else
          match loads raw_body with
          | Raise JSONDecodeError => detect_in_scripts rest generated_script_counter
          | Raise e => Raise e
          | Ok parsed =>
              let existing_id := extract_attr attrs (T "id") in
              let synthesized := T "karospace_data_" ++ format_03d generated_script_counter in
              let script_id :=
                match existing_id with
                | Some (c :: i) => c :: i
                | _ => synthesized
                end in
              let counter' :=
                match existing_id with
                | None => generated_script_counter + 1
                | Some _ => generated_script_counter
                end in
              n ← encoded_len raw_body;
              let candidate :=
                mkBlobCandidate script_json (sm_start m) (sm_end m) n raw_body parsed
                  (Some attrs) (Some script_id)
                  (match existing_id with Some _ => true | None => false end)
                  None None None in
              later ← detect_in_scripts rest counter';
              Ok (candidate :: later)
          end
      else
        here ← detect_assignment_candidates body (sm_body_start m);
        later ← detect_in_scripts rest generated_script_counter;
        Ok (here ++ later)
  end.

(** [candidates.sort(key=lambda c: c.start)]: ascending and stable. *)
Definition detect_candidates (html : text) : result (list BlobCandidate) :=
  candidates ← detect_in_scripts (script_tags html) 0;
  Ok (sorted_asc start candidates).

End scanner.

(** ** The file system and the effects of a run *)

(** What a run changes on disk, in the order it happens. *)
Inductive event : Type :=
  | EvMkdir (path : text)
  | EvCopy (src dst : text)
  | EvWrite (path : text).

(** Paths are resolved texts; [files] holds the regular files with their
    bytes, [dirs] the directories, [events] the changes made so far. *)
Record world : Type := mkWorld {
  files : gmap text bytes;
  dirs : gset text;
  events : list event
}.

(** A computation with effects: an exception leaves the changes made
    before it in place. *)
Definition io (A : Type) : Type := world -> world * result A.

#[global] Instance io_ret : MRet io := fun A a w => (w, Ok a).
#[global] Instance io_bind : MBind io := fun A B k m w =>
  match m w with
  | (w', Ok a) => k a w'
  | (w', Raise e) => (w', Raise e)
  end.

Definition lift {A} (r : result A) : io A := fun w => (w, r).

Definition raise {A} (e : exn) : io A := fun w => (w, Raise e).

(** [dir / name] *)
Definition path_join (dir name : text) : text := dir ++ T "/" ++ name.

(** [path.mkdir(parents=True, exist_ok=True)] *)
Definition mkdir (path : text) : io unit := fun w =>
  match files w !! path with
  | Some _ => (w, Raise OSError)
  | None => (mkWorld (files w) ({[path]} ∪ dirs w) (events w ++ [EvMkdir path]), Ok tt)
  end.

(** [shutil.copy2(src, dst)]: the source must be there, and the
    destination must not be the same file, which for resolved paths means
    the same path. *)
Definition copy2 (src dst : text) : io unit := fun w =>
  match files w !! src with
  | None => (w, Raise OSError)
  | Some content =>
      if bool_decide (src = dst) then (w, Raise SameFileError)
      else
        (mkWorld (<[dst := content]> (files w)) (dirs w) (events w ++ [EvCopy src dst]), Ok tt)
  end.

(** [path.write_text(s, encoding="utf-8")]: the file is opened, and so
    emptied, before the text is encoded.  Line feeds are written as they
    are, as on every system whose line separator is the line feed. *)
Definition write_text (path : text) (s : text) : io unit := fun w =>
  match encode s with
  | Ok content =>
      (mkWorld (<[path := content]> (files w)) (dirs w) (events w ++ [EvWrite path]), Ok tt)
  | Raise e =>
      (mkWorld (<[path := []]> (files w)) (dirs w) (events w ++ [EvWrite path]), Raise e)
  end.

(** Reading in text mode translates the line ends: a carriage return
    with the line feed after it, and a carriage return alone, become one
    line feed. *)
Fixpoint universal_newlines (s : text) : text :=
  match s with
  | [] => []
  | c :: r =>
      if c =? 13 then
        10 :: match r with
              | d :: r' => if d =? 10 then universal_newlines r' else universal_newlines r
              | [] => []
              end
      else c :: universal_newlines r
  end.

(** The [str] that a file's bytes are read as. *)
Definition decode_text (content : bytes) : result text :=
  s ← decode content; Ok (universal_newlines s).

(** [path.read_text(encoding="utf-8")] *)
Definition read_text (path : text) : io text := fun w =>
  match files w !! path with
  | None => (w, Raise OSError)
  | Some content => (w, decode_text content)
  end.

Definition path_exists (path : text) : io bool := fun w =>
  (w, Ok (bool_decide (is_Some (files w !! path)) || bool_decide (path ∈ dirs w))).

Definition path_is_file (path : text) : io bool := fun w =>
  (w, Ok (bool_decide (is_Some (files w !! path)))).

(** ** Chunk files and the manifest *)

Inductive chunk_format : Type :=
  | json_array
  | json_text_piece.

(** One entry of a blob's [chunks] list. *)
Record ChunkEntry : Type := mkChunkEntry {
  e_path : text;
  e_bytes : Z;
  e_items : option Z;
  e_format : chunk_format
}.

(** [f"chunk_{chunk_counter:03d}"] with its extension. *)
Definition chunk_filename (chunk_counter : Z) (ext : text) : text :=
  T "chunk_" ++ format_03d chunk_counter ++ ext.

(** The loop of [write_array_chunks] over the slices. *)
Fixpoint write_array_slices (array_slices : list (list json)) (data_dir : text)
    (chunk_counter : Z) (entries : list ChunkEntry) : io (list ChunkEntry * Z) :=
  match array_slices with
  | [] => mret (entries, chunk_counter)
  | arr :: rest =>
      let filename := chunk_filename chunk_counter (T ".json") in
      let chunk_path := path_join data_dir filename in
      json_text ← lift (json_dumps chunk_dumps_depth (JArr arr));
      _ ← write_text chunk_path json_text;
      n ← lift (encoded_len json_text);
      write_array_slices rest data_dir (chunk_counter + 1)
        (entries ++ [mkChunkEntry (T "data/" ++ filename) n (Some (zlen arr)) json_array])
  end.

Definition write_array_chunks (value : list json) (data_dir : text)
    (chunk_target_bytes chunk_counter : Z) : io (list ChunkEntry * Z * strategy) :=
  slices ← lift (split_array_for_target_bytes value chunk_target_bytes);
  '(entries, counter) ← write_array_slices slices data_dir chunk_counter [];
  mret (entries, counter, array_slices).

(** The loop of [write_text_chunks] over the parts. *)
Fixpoint write_text_parts (parts : list text) (data_dir : text)
    (chunk_counter : Z) (entries : list ChunkEntry) : io (list ChunkEntry * Z) :=
  match parts with
  | [] => mret (entries, chunk_counter)
  | part :: rest =>
      let filename := chunk_filename chunk_counter (T ".txt") in
      let chunk_path := path_join data_dir filename in
      _ ← write_text chunk_path part;
      n ← lift (encoded_len part);
      write_text_parts rest data_dir (chunk_counter + 1)
        (entries ++ [mkChunkEntry (T "data/" ++ filename) n None json_text_piece])
  end.

Definition write_text_chunks (value : json) (data_dir : text)
    (chunk_target_bytes chunk_counter : Z) : io (list ChunkEntry * Z * strategy) :=
  json_text ← lift (json_dumps chunk_dumps_depth value);
  parts ← lift (split_utf8_text_by_bytes json_text chunk_target_bytes);
  '(entries, counter) ← write_text_parts parts data_dir chunk_counter [];
  mret (entries, counter, text_concat).

(** One entry of the manifest's [blobs] list. *)
Record BlobEntry : Type := mkBlobEntry {
  b_key : text;
  b_detector : detector_kind;
  b_payload_bytes : Z;
  b_strategy : strategy;
  b_chunks : list ChunkEntry;
  b_script_id : option text;
  b_assignment_style : option assignment_style_kind;
  b_variable_name : option text;
  b_decl_kind : option text
}.

(** ** The rewrite emitter *)

Definition NL : text := [10].
Definition QUOTE : text := [34].

Definition hex4_text (n : Z) : text :=
  [hex_digit (n / 4096); hex_digit ((n / 256) mod 16);
   hex_digit ((n / 16) mod 16); hex_digit (n mod 16)].

(** One character of a string as [json.dumps(s)] writes it, with the
    default [ensure_ascii=True]: everything outside U+0020..U+007E is
    escaped, a character past U+FFFF as a surrogate pair. *)
Definition escape_char_ascii (c : Z) : text :=
  if (32 <=? c) && (c <=? 126) && negb (c =? 34) && negb (c =? 92) then [c]
  else if (0 <=? c) && (c <? 32) || (c =? 34) || (c =? 92) then escape_char c
  else if c <? 0x10000 then T "\u" ++ hex4_text c
  else
    let n := c - 0x10000 in
    T "\u" ++ hex4_text (0xD800 + (n / 1024) mod 1024) ++
    T "\u" ++ hex4_text (0xDC00 + n mod 1024).

(** [json.dumps(s)] for a [str] *)
Definition dumps_ascii (s : text) : text :=
  QUOTE ++ flat_map escape_char_ascii s ++ QUOTE.

(** How an f-string prints an optional [str]. *)
Definition py_str (o : option text) : text := default (T "None") o.

Definition replacement_for_candidate (candidate : BlobCandidate) (blob_key : text)
    : result text :=
  match detector candidate with
  | script_json =>
      let attrs := default [] (script_attrs candidate) in
      let id := default [] (script_id candidate) in
      let attrs :=
        if negb (script_had_id candidate) && negb (bool_decide (id = []))
        then attrs ++ T " id=" ++ QUOTE ++ id ++ QUOTE
        else attrs in
      if bool_decide (id = []) then Raise ValueError
      else Ok (
        T "<script" ++ attrs ++ T "></script>" ++ NL ++
        T "<script>" ++ NL ++
        T "(function () {" ++ NL ++
        T "  var __kData = window.__KAROSPACE_DATA_LOADER__.getSync("
          ++ dumps_ascii blob_key ++ T ");" ++ NL ++
        T "  var __kNode = document.getElementById(" ++ dumps_ascii id ++ T ");" ++ NL ++
        T "  if (__kNode) {" ++ NL ++
        T "    __kNode.textContent = JSON.stringify(__kData);" ++ NL ++
        T "  }" ++ NL ++
        T "})();" ++ NL ++
        T "</script>")
  | js_assignment =>
      match assignment_style candidate with
      | Some style_window =>
          Ok (T "window." ++ py_str (variable_name candidate) ++ T " = "
              ++ T "window.__KAROSPACE_DATA_LOADER__.getSync(" ++ dumps_ascii blob_key ++ T ");")
      | _ =>
          Ok (py_str (decl_kind candidate) ++ T " " ++ py_str (variable_name candidate)
              ++ T " = "
              ++ T "window.__KAROSPACE_DATA_LOADER__.getSync(" ++ dumps_ascii blob_key ++ T ");")
      end
  end.

(** [needle in s] *)
Fixpoint contains (needle s : text) : bool :=
  match strip_prefix needle s with
  | Some _ => true
  | None =>
      match s with
      | [] => false
      | _ :: s' => contains needle s'
      end
  end.

Section pipeline.

Variable unicode_alnum : Z -> bool.

(** The text of the loader script that [ensure_loader_runtime] injects. *)
Variable loader_script : text.

(** [re.search(r"(?is)<name\b[^>]*>", s)]: the text up to the end of the
    first such tag, and the text after it. *)
Fixpoint search_open_tag (name s : text) : option (text * text) :=
  let here :=
    r1 ← strip_prefix_ci (60 :: name) s;
    if head_is (is_word unicode_alnum) r1 then None
    else
      let '(attrs, r2) := span_while (fun c => negb (c =? 62)) r1 in
      match r2 with
      | [] => None
      | gt :: r3 => Some (take (length s - length r3) s, r3)
      end in
  match here with
  | Some found => Some found
  | None =>
      match s with
      | [] => None
      | c :: s' => '(before, after) ← search_open_tag name s'; Some (c :: before, after)
      end
  end.

Definition ensure_loader_runtime (html : text) : text :=
  if contains (T "KAROSPACE_LOADER_RUNTIME") html then html
  else
    match search_open_tag (T "head") html with
    | Some (before, after) => before ++ NL ++ loader_script ++ NL ++ after
    | None =>
        match search_open_tag (T "html") html with
        | Some (before, after) => before ++ NL ++ loader_script ++ NL ++ after
        | None => loader_script ++ NL ++ html
        end
    end.

(** ** The mode orchestrator *)

(** The type of the megabyte arguments (a Python [float]) and
    [int(mb * 1024 * 1024)], whose arithmetic is a parameter. *)
Variable float : Type.
Variable to_bytes : float -> Z.

(** [datetime.now(timezone.utc).isoformat()] at the time of the run. *)
Variable generated_at_utc : text.

Record Manifest : Type := mkManifest {
  m_version : Z;
  m_generated_at_utc : text;
  m_slug : text;
  m_chunk_target_mb : float;
  m_blobs : list BlobEntry
}.

(** [json.dumps(manifest, indent=2, ensure_ascii=False)] *)
Variable serialize_manifest : Manifest -> text.

Inductive mode : Type :=
  | mode_auto
  | mode_single
  | mode_directory.

(** The parsed command line; [a_input] and [a_outdir] are the resolved
    paths. *)
Record Args : Type := mkArgs {
  a_input : text;
  a_outdir : text;
  a_slug : text;
  a_mode : mode;
  a_threshold_mb : float;
  a_chunk_mb : float
}.

(** [re.fullmatch(r"[A-Za-z0-9._-]+", slug)] *)
Definition slug_ok (slug : text) : bool :=
  negb (bool_decide (slug = [])) &&
  forallb (fun c => ascii_alnum c || (c =? 46) || (c =? 95) || (c =? 45)) slug.

Definition validate_slug (slug : text) : result unit :=
  if slug_ok slug then Ok tt else Raise ValueError.

Definition make_backup_copy (input_path outdir slug : text) : io text :=
  let backup_dir := path_join outdir (T "_backups") in
  _ ← mkdir backup_dir;
  let backup_path := path_join backup_dir (slug ++ T ".original.html") in
  _ ← copy2 input_path backup_path;
  mret backup_path.

Definition copy_single (input_path outdir slug : text) : io text :=
  _ ← mkdir outdir;
  let target := path_join outdir (slug ++ T ".html") in
  if bool_decide (input_path = target) then raise ValueError
  else
    _ ← copy2 input_path target;
    mret target.

(** The variables of the loop over the candidates. *)
Record EmitState : Type := mkEmitState {
  es_blobs : list BlobEntry;
  es_replacements : list Replacement;
  es_chunk_counter : Z
}.

(** The loop [for idx, candidate in enumerate(candidates)]. *)
Fixpoint emit_candidates (candidates : list BlobCandidate) (idx : Z) (data_dir : text)
    (chunk_target_bytes : Z) (st : EmitState) : io EmitState :=
  match candidates with
  | [] => mret st
  | candidate :: rest =>
      let blob_key := T "blob_" ++ format_03d idx in
      '(chunk_entries, chunk_counter, strat) ←
        match value candidate with
        | JArr items =>
            write_array_chunks items data_dir chunk_target_bytes (es_chunk_counter st)
        | v => write_text_chunks v data_dir chunk_target_bytes (es_chunk_counter st)
        end;
      let blob :=
        mkBlobEntry blob_key (detector candidate) (payload_bytes candidate) strat
          chunk_entries (script_id candidate) (assignment_style candidate)
          (variable_name candidate) (decl_kind candidate) in
      replacement ← lift (replacement_for_candidate candidate blob_key);
      emit_candidates rest (idx + 1) data_dir chunk_target_bytes
        (mkEmitState (es_blobs st ++ [blob])
           (es_replacements st
              ++ [mkReplacement (start candidate) (end_ candidate) replacement])
           chunk_counter)
  end.

(** What [externalize_to_directory] returns, with the manifest it wrote. *)
Record Externalized : Type := mkExternalized {
  x_viewer_dir : text;
  x_index_path : text;
  x_manifest_path : text;
  x_chunks_written : Z;
  x_manifest : Manifest
}.

Definition externalize_to_directory (html : text) (candidates : list BlobCandidate)
    (outdir slug : text) (chunk_mb : float) : io Externalized :=
  if bool_decide (candidates = []) then raise RuntimeError
  else
    let chunk_target_bytes := to_bytes chunk_mb in
    if chunk_target_bytes <=? 0 then raise ValueError
    else
      let viewer_dir := path_join outdir slug in
      let data_dir := path_join viewer_dir (T "data") in
      _ ← mkdir viewer_dir;
      _ ← mkdir data_dir;
      st ← emit_candidates candidates 0 data_dir chunk_target_bytes (mkEmitState [] [] 0);
      let manifest := mkManifest 1 generated_at_utc slug chunk_mb (es_blobs st) in
      let index_html := ensure_loader_runtime (apply_replacements html (es_replacements st)) in
      let manifest_path := path_join viewer_dir (T "manifest.json") in
      let index_path := path_join viewer_dir (T "index.html") in
      _ ← write_text manifest_path (serialize_manifest manifest);
      _ ← write_text index_path index_html;
      mret (mkExternalized viewer_dir index_path manifest_path (es_chunk_counter st) manifest).

(** The [Mode:] line a successful run prints. *)
Inductive run_report : Type :=
  | ReportSingle (output_file : text)
  | ReportAutoSingle (output_file : text)
  | ReportDirectory (requested : mode) (result : Externalized).

(** [sum(candidate.payload_bytes for candidate in candidates)] *)
Definition total_payload (candidates : list BlobCandidate) : Z :=
  foldr (fun c acc => payload_bytes c + acc) 0 candidates.

(** The part of [run()] after the backup copy: the choice of the mode. *)
Definition run_after_backup (args : Args) (html : text) : io run_report :=
  let input_path := a_input args in
  let outdir := a_outdir args in
  match a_mode args with
  | mode_single =>
      output_file ← copy_single input_path outdir (a_slug args);
      mret (ReportSingle output_file)
  | requested =>
      candidates ← lift (detect_candidates unicode_alnum html);
      if bool_decide (candidates = []) then raise RuntimeError
      else
        let total_payload_bytes := total_payload candidates in
        let threshold_bytes := to_bytes (a_threshold_mb args) in
        if match requested with mode_auto => true | _ => false end
           && (total_payload_bytes <=? threshold_bytes)
        then
          output_file ← copy_single input_path outdir (a_slug args);
          mret (ReportAutoSingle output_file)
        else
          result ← externalize_to_directory html candidates outdir (a_slug args)
                     (a_chunk_mb args);
          mret (ReportDirectory requested result)
  end.

(** [run()]: it returns 0; the report stands for what it prints. *)
Definition run (args : Args) : io run_report :=
  _ ← lift (validate_slug (a_slug args));
  let input_path := a_input args in
  ex ← path_exists input_path;
  if negb ex then raise FileNotFoundError
  else
    isf ← path_is_file input_path;
    if negb isf then raise ValueError
    else
      let outdir := a_outdir args in
      _ ← mkdir outdir;
      html ← read_text input_path;
      backup_path ← make_backup_copy input_path outdir (a_slug args);
      run_after_backup args html.

(** *** Vocabulary for the orchestrator's properties *)




End pipeline.

(** *** Vocabulary for the manifest's properties *)

(** The extension of a chunk file. *)
Definition chunk_ext (ext : text) : Prop := ext = T ".json" \/ ext = T ".txt".

(** The entry agrees with the chunk file at its path (relative to the
    viewer directory): [bytes] is the length of the file, and for an
    array chunk the file holds the serialization of an array of [items]
    elements, which parses back to that array when it is well formed. *)
Definition entry_consistent (viewer_dir : text) (fs : gmap text bytes) (e : ChunkEntry) : Prop :=
  exists content,
    fs !! path_join viewer_dir (e_path e) = Some content /\
    e_bytes e = zlen content /\
    match e_format e with
    | json_array =>
        exists arr,
          decode content = Ok (dumps (JArr arr)) /\
          e_items e = Some (zlen arr) /\
          (json_wf (JArr arr) -> JSON_parse (dumps (JArr arr)) = Ok (JArr arr))
    | json_text_piece => e_items e = None
    end.

(** The entry names the chunk file of a counter value below [hi]. *)
Definition entry_numbered (hi : Z) (e : ChunkEntry) : Prop :=
  exists n ext,
    0 <= n < hi /\ chunk_ext ext /\ e_path e = T "data/" ++ chunk_filename n ext.

(** [p] is the path of a chunk file with a counter value in [lo, hi). *)
Definition chunk_path_between (data_dir : text) (lo hi : Z) (p : text) : Prop :=
  exists n ext,
    lo <= n < hi /\ chunk_ext ext /\ p = path_join data_dir (chunk_filename n ext).

End python.

(* ===================================================================== *)
(** * Part II: properties *)
(* ===================================================================== *)

Section properties.
Context {runtime : PyRuntime}.

(** ** Python slices *)

Lemma slice_bound_in_range (len i : Z) :
  0 <= i <= len -> slice_bound len i = Z.to_nat i.
Proof.
  intros H. unfold slice_bound.
  destruct (i <? 0) eqn:E; [apply Z.ltb_lt in E; lia|].
  f_equal. lia.
Qed.

Lemma slice_to_from {A} (l : list A) (i : Z) :
  slice_to l i ++ slice_from l i = l.
Proof. apply take_drop. Qed.

Lemma slice_to_app_l {A} (l1 l2 : list A) (i : Z) :
  0 <= i <= zlen l1 -> slice_to (l1 ++ l2) i = slice_to l1 i.
Proof.
  intros H. unfold slice_to, zlen in *.
  rewrite length_app, !slice_bound_in_range by lia.
  apply take_app_le. lia.
Qed.

Lemma slice_from_app_length {A} (l1 l2 : list A) (i : Z) :
  i = zlen l1 -> slice_from (l1 ++ l2) i = l2.
Proof.
  intros ->. unfold slice_from, zlen.
  rewrite length_app, slice_bound_in_range by lia.
  rewrite Nat2Z.id. apply drop_app_length.
Qed.

Lemma zlen_slice_to {A} (l : list A) (i : Z) :
  0 <= i <= zlen l -> zlen (slice_to l i) = i.
Proof.
  intros H. unfold slice_to, zlen in *.
  rewrite slice_bound_in_range, length_take by lia. lia.
Qed.

Lemma slice_to_split {A} (l : list A) (i j : Z) :
  0 <= i <= j -> j <= zlen l -> slice_to l j = slice_to l i ++ slice l i j.
Proof.
  intros Hi Hj. unfold slice_to, slice, zlen in *.
  rewrite !slice_bound_in_range by lia.
  rewrite <- (take_drop (Z.to_nat i) (take (Z.to_nat j) l)) at 1.
  f_equal.
  - rewrite take_take. f_equal. lia.
  - rewrite skipn_firstn_comm. reflexivity.
Qed.

Lemma slice_to_slice_to {A} (l : list A) (i j : Z) :
  0 <= i <= j -> j <= zlen l -> slice_to (slice_to l j) i = slice_to l i.
Proof.
  intros Hi Hj.
  assert (zlen (slice_to l j) = j) as Hlen by (apply zlen_slice_to; lia).
  unfold slice_to at 1. rewrite Hlen. unfold slice_to.
  rewrite !slice_bound_in_range by lia.
  rewrite take_take. f_equal. lia.
Qed.

(** ** Stable sorting by a key *)

Section sorting_by_key.
Context {A : Type} (key : A -> Z).

Lemma insert_desc_perm (x : A) (l : list A) : insert_desc key x l ≡ₚ x :: l.
Proof.
  induction l as [|y l IH]; simpl; [done|].
  destruct (key x <? key y); [|done].
  rewrite IH. apply Permutation_swap.
Qed.

Lemma sorted_desc_perm (l : list A) : sorted_desc key l ≡ₚ l.
Proof.
  induction l as [|x l IH]; simpl; [done|].
  unfold sorted_desc in *. simpl. rewrite insert_desc_perm. by f_equiv.
Qed.

Lemma insert_desc_sorted (x : A) (l : list A) :
  StronglySorted (fun a b => key b <= key a) l ->
  StronglySorted (fun a b => key b <= key a) (insert_desc key x l).
Proof.
  induction 1 as [|y l Hl IH Hy]; simpl.
  - repeat constructor.
  - destruct (key x <? key y) eqn:E.
    + apply Z.ltb_lt in E. constructor; [done|].
      rewrite insert_desc_perm. constructor; [lia|done].
    + apply Z.ltb_ge in E. constructor; [by constructor|].
      constructor; [done|].
      eapply Forall_impl; [exact Hy|]. simpl. intros; lia.
Qed.

Lemma sorted_desc_sorted (l : list A) :
  StronglySorted (fun a b => key b <= key a) (sorted_desc key l).
Proof.
  induction l as [|x l IH]; simpl; [constructor|].
  by apply insert_desc_sorted.
Qed.

Lemma insert_asc_perm (x : A) (l : list A) : insert_asc key x l ≡ₚ x :: l.
Proof.
  induction l as [|y l IH]; simpl; [done|].
  destruct (key y <? key x); [|done].
  rewrite IH. apply Permutation_swap.
Qed.

Lemma sorted_asc_perm (l : list A) : sorted_asc key l ≡ₚ l.
Proof.
  induction l as [|x l IH]; simpl; [done|].
  unfold sorted_asc in *. simpl. rewrite insert_asc_perm. by f_equiv.
Qed.

Lemma insert_asc_sorted (x : A) (l : list A) :
  StronglySorted (fun a b => key a <= key b) l ->
  StronglySorted (fun a b => key a <= key b) (insert_asc key x l).
Proof.
  induction 1 as [|y l Hl IH Hy]; simpl.
  - repeat constructor.
  - destruct (key y <? key x) eqn:E.
    + apply Z.ltb_lt in E. constructor; [done|].
      rewrite insert_asc_perm. constructor; [lia|done].
    + apply Z.ltb_ge in E. constructor; [by constructor|].
      constructor; [done|].
      eapply Forall_impl; [exact Hy|]. simpl. intros; lia.
Qed.

Lemma sorted_asc_sorted (l : list A) :
  StronglySorted (fun a b => key a <= key b) (sorted_asc key l).
Proof.
  induction l as [|x l IH]; simpl; [constructor|].
  by apply insert_asc_sorted.
Qed.
End sorting_by_key.

(** ** Span replacement *)

(** Left-to-right order of spans that do not overlap. *)
Definition lies_before (a b : Replacement) : Prop := r_end a <= r_start b.

Lemma spans_apart_sym (a b : Replacement) : spans_apart a b -> spans_apart b a.
Proof. unfold spans_apart. tauto. Qed.

Lemma ForallOrdPairs_elem_of (rs : list Replacement) :
  ForallOrdPairs spans_apart rs ->
  forall i j a b, i <> j -> rs !! i = Some a -> rs !! j = Some b -> spans_apart a b.
Proof.
  induction 1 as [|r rs Hr Hrs IH]; intros i j a b Hij Ha Hb; [done|].
  rewrite Forall_forall in Hr.
  destruct i as [|i], j as [|j]; simpl in *; simplify_eq.
  - apply Hr. eauto using list_elem_of_lookup_2.
  - apply spans_apart_sym, Hr. eauto using list_elem_of_lookup_2.
  - eapply (IH i j); eauto.
Qed.

Lemma pairwise_of_lookup (rs : list Replacement) :
  (forall i j a b, i <> j -> rs !! i = Some a -> rs !! j = Some b -> spans_apart a b) ->
  ForallOrdPairs spans_apart rs.
Proof.
  induction rs as [|r rs IH]; intros H; constructor.
  - apply Forall_forall. intros x Hx.
    apply list_elem_of_lookup in Hx as [j Hj].
    by apply (H 0%nat (S j)).
  - apply IH. intros i j a b Hij Ha Hb. by apply (H (S i) (S j)); [lia|..].
Qed.

Lemma pairwise_perm (l1 l2 : list Replacement) :
  l1 ≡ₚ l2 -> pairwise_non_overlapping l1 -> pairwise_non_overlapping l2.
Proof.
  unfold pairwise_non_overlapping.
  induction 1 as [|x l1 l2 Hp IH|x y l|l1 l2 l3 _ IH1 _ IH2]; intros H.
  - done.
  - inversion H; subst. constructor; [|by apply IH].
    by rewrite <- Hp.
  - inversion H as [|? ? Hy Hl]; subst. inversion Hl as [|? ? Hx Hl']; subst.
    inversion Hy; subst. constructor; [|by constructor].
    constructor; [by apply spans_apart_sym|done].
  - auto.
Qed.

(** Among spans that do not overlap, a span that starts before another
    ends before it starts. *)
Lemma apart_ordered (a b : Replacement) :
  r_start b <= r_end b ->
  spans_apart a b -> r_start a < r_start b -> lies_before a b.
Proof. unfold spans_apart, lies_before. lia. Qed.

Lemma NoDup_map_eq {A B} (f : A -> B) (l : list A) (a b : A) :
  NoDup (map f l) -> a ∈ l -> b ∈ l -> f a = f b -> a = b.
Proof.
  intros Hnd [i Hi]%list_elem_of_lookup [j Hj]%list_elem_of_lookup Hab.
  assert (i = j) as ->; [|congruence].
  apply (NoDup_lookup (map f l) i j (f a)); [done| |].
  - by rewrite list_lookup_fmap, Hi.
  - by rewrite list_lookup_fmap, Hj, Hab.
Qed.

(** Sorted by start offset, spans with distinct start offsets that do
    not overlap lie one after the other. *)
Lemma sorted_chain (l : list Replacement) :
  StronglySorted (fun a b => r_start a <= r_start b) l ->
  Forall (fun r => r_start r <= r_end r) l ->
  NoDup (map r_start l) ->
  pairwise_non_overlapping l ->
  StronglySorted lies_before l.
Proof.
  induction 1 as [|x l Hl IH Hx]; intros Hwf Hnd Hp; [constructor|].
  inversion Hwf; subst. inversion Hp as [|? ? Hxa Hla]; subst.
  cbn [map] in Hnd. apply NoDup_cons in Hnd as [Hxl Hnd].
  constructor; [by apply IH|].
  rewrite Forall_forall in *. intros y Hy.
  apply apart_ordered; [auto|auto|].
  assert (r_start x <> r_start y); [|specialize (Hx y Hy); lia].
  intros Heq. apply Hxl. rewrite Heq. by apply list_elem_of_fmap_2.
Qed.

Lemma sorted_asc_chain (rs : list Replacement) :
  Forall (fun r => r_start r <= r_end r) rs ->
  NoDup (map r_start rs) ->
  pairwise_non_overlapping rs ->
  StronglySorted lies_before (sorted_asc r_start rs).
Proof.
  intros Hwf Hnd Hp.
  pose proof (sorted_asc_perm r_start rs) as Hperm.
  apply sorted_chain.
  - apply sorted_asc_sorted.
  - by rewrite Hperm.
  - by rewrite Hperm.
  - eapply pairwise_perm; [symmetry; exact Hperm|done].
Qed.

Lemma StronglySorted_impl {A} (R S : relation A) (l : list A) :
  (forall a b, R a b -> S a b) -> StronglySorted R l -> StronglySorted S l.
Proof.
  intros HRS. induction 1 as [|x l Hl IH Hx]; constructor; [done|].
  eapply Forall_impl; [exact Hx|]. intros y. apply HRS.
Qed.

Lemma StronglySorted_rev_flip {A} (R : relation A) (l : list A) :
  StronglySorted (flip R) l -> StronglySorted R (reverse l).
Proof.
  induction 1 as [|x l Hl IH Hx]; [constructor|].
  rewrite reverse_cons.
  apply StronglySorted_app_2; [|done|repeat constructor].
  intros a b Ha Hb. apply list_elem_of_singleton in Hb as ->.
  rewrite Forall_forall in Hx. apply Hx.
  by apply elem_of_reverse.
Qed.

Lemma sorted_desc_chain (rs : list Replacement) :
  Forall (fun r => r_start r <= r_end r) rs ->
  NoDup (map r_start rs) ->
  pairwise_non_overlapping rs ->
  StronglySorted lies_before (reverse (sorted_desc r_start rs)).
Proof.
  intros Hwf Hnd Hp.
  pose proof (sorted_desc_perm r_start rs) as Hperm.
  apply sorted_chain.
  - apply StronglySorted_rev_flip.
    eapply StronglySorted_impl; [|apply sorted_desc_sorted]. done.
  - by rewrite reverse_Permutation, Hperm.
  - by rewrite reverse_Permutation, Hperm.
  - eapply pairwise_perm; [|exact Hp].
    by rewrite reverse_Permutation, Hperm.
Qed.

(** Non-overlapping spans with distinct start offsets have one
    left-to-right order: the descending order the rewriter uses is the
    reverse of the ascending one. *)
Lemma sorted_desc_rev_asc (rs : list Replacement) :
  Forall (fun r => r_start r <= r_end r) rs ->
  NoDup (map r_start rs) ->
  pairwise_non_overlapping rs ->
  sorted_desc r_start rs = reverse (sorted_asc r_start rs).
Proof.
  intros Hwf Hnd Hp.
  rewrite <- (reverse_involutive (sorted_desc r_start rs)). f_equal.
  apply (StronglySorted_unique_strong lies_before).
  - intros a b Ha Hb Hab Hba.
    assert (a ∈ rs) as Ha'.
    { rewrite <- (sorted_desc_perm r_start rs). by apply elem_of_reverse. }
    assert (b ∈ rs) as Hb'.
    { by rewrite <- (sorted_asc_perm r_start rs). }
    apply (NoDup_map_eq r_start rs); [done..|].
    rewrite Forall_forall in Hwf.
    pose proof (Hwf a Ha'). pose proof (Hwf b Hb').
    unfold lies_before in *. lia.
  - by apply sorted_desc_chain.
  - by apply sorted_asc_chain.
  - by rewrite reverse_Permutation, sorted_desc_perm, sorted_asc_perm.
Qed.

(** Applying the spans from right to left rewrites the original to the
    left of every span already applied exactly as the reference does. *)
Lemma replace_right_to_left (html : text) (spans : list Replacement) (p : Z) :
  StronglySorted lies_before spans ->
  Forall (span_within html) spans ->
  Forall (fun r => p <= r_start r) spans ->
  0 <= p <= zlen html ->
  foldr (fun r acc => replace_span acc r) html spans =
    slice_to html p ++ substitute_from html p spans.
Proof.
  intros Hs. revert p.
  induction Hs as [|r spans Hs IH Hr]; intros p Hw Hp Hp0; simpl.
  - by rewrite slice_to_from.
  - inversion Hw as [|? ? (Hr0 & Hr1 & Hr2) Hw']; subst.
    inversion Hp as [|? ? Hpr Hp']; subst.
    rewrite (IH (r_end r)); [|done| |lia].
    2:{ eapply Forall_impl; [exact Hr|]. done. }
    unfold replace_span.
    rewrite slice_to_app_l by (rewrite zlen_slice_to; lia).
    rewrite slice_from_app_length by (rewrite zlen_slice_to; lia).
    rewrite slice_to_slice_to by lia.
    rewrite (slice_to_split html p (r_start r)) by lia.
    by rewrite <- !app_assoc.
Qed.

Lemma fold_left_reverse {A B} (f : B -> A -> B) (l : list A) (b : B) :
  fold_left f (reverse l) b = foldr (fun x acc => f acc x) b l.
Proof.
  induction l as [|x l IH]; [done|].
  rewrite reverse_cons, fold_left_app. simpl. by rewrite IH.
Qed.

(** C9 (amended): for spans that lie within the text, do not overlap
    pairwise and start at pairwise distinct offsets (an empty span, an
    insertion, is allowed), [apply_replacements] applies the replacements
    in descending order of start offset, and the result is the original
    text with every span replaced at once. *)
Theorem apply_replacements_simultaneous (html : text) (rs : list Replacement) :
  Forall (span_within html) rs ->
  NoDup (map r_start rs) ->
  pairwise_non_overlapping rs ->
  exists order,
    order ≡ₚ rs /\
    StronglySorted (fun a b => r_start b <= r_start a) order /\
    apply_replacements html rs = fold_left replace_span order html /\
    apply_replacements html rs = simultaneous_substitution html rs.
Proof.
  intros Hw Hnd Hp. exists (sorted_desc r_start rs).
  assert (Hwf : Forall (fun r => r_start r <= r_end r) rs).
  { eapply Forall_impl; [exact Hw|]. intros r (? & ? & ?). done. }
  split; [apply sorted_desc_perm|].
  split; [apply sorted_desc_sorted|].
  split; [done|].
  unfold apply_replacements, simultaneous_substitution.
  rewrite sorted_desc_rev_asc, fold_left_reverse by done.
  rewrite (replace_right_to_left html _ 0).
  - unfold slice_to. by rewrite slice_bound_in_range by (unfold zlen; lia).
  - by apply sorted_asc_chain.
  - by rewrite sorted_asc_perm.
  - rewrite sorted_asc_perm. eapply Forall_impl; [exact Hw|].
    intros r (? & _). done.
  - unfold zlen. lia.
Qed.

Lemma apply_replacements_simultaneous_witness :
  exists order,
    order ≡ₚ [mkReplacement 1 2 (T "X"); mkReplacement 4 6 (T "YZ"); mkReplacement 3 3 (T "I")] /\
    StronglySorted (fun a b => r_start b <= r_start a) order /\
    apply_replacements (T "abcdef")
      [mkReplacement 1 2 (T "X"); mkReplacement 4 6 (T "YZ"); mkReplacement 3 3 (T "I")]
      = fold_left replace_span order (T "abcdef") /\
    apply_replacements (T "abcdef")
      [mkReplacement 1 2 (T "X"); mkReplacement 4 6 (T "YZ"); mkReplacement 3 3 (T "I")]
      = simultaneous_substitution (T "abcdef")
          [mkReplacement 1 2 (T "X"); mkReplacement 4 6 (T "YZ"); mkReplacement 3 3 (T "I")].
Proof.
  apply apply_replacements_simultaneous.
  - repeat (apply Forall_cons_2; [unfold span_within, zlen, T; simpl; lia|]). apply Forall_nil_2.
  - cbn [map r_start]. repeat (apply NoDup_cons_2; [set_solver|]). apply NoDup_nil_2.
  - repeat (apply FOP_cons;
      [repeat (apply Forall_cons_2; [unfold spans_apart; simpl; lia|]); apply Forall_nil_2|]).
    apply FOP_nil.
Defined.

(** C9 as stated fails when two spans start at the same offset: an empty
    span and a span that starts where it lies do not overlap, yet the
    insertion done first shifts the text the second replacement then
    cuts. *)
Lemma apply_replacements_empty_span_counterexample :
  let html := T "abcdef" in
  let rs := [mkReplacement 3 3 (T "X"); mkReplacement 3 5 (T "Y")] in
  Forall (span_within html) rs /\
  pairwise_non_overlapping rs /\
  apply_replacements html rs = T "abcYef" /\
  simultaneous_substitution html rs = T "abcXYf" /\
  apply_replacements html rs <> simultaneous_substitution html rs.
Proof.
  cbv zeta. split; [|split; [|split; [|split]]].
  - repeat (apply Forall_cons_2; [unfold span_within, zlen, T; simpl; lia|]). apply Forall_nil_2.
  - repeat (apply FOP_cons;
      [repeat (apply Forall_cons_2; [unfold spans_apart; simpl; lia|]); apply Forall_nil_2|]).
    apply FOP_nil.
  - reflexivity.
  - reflexivity.
  - vm_compute. discriminate.
Qed.

(** ** UTF-8 encoding of concatenations *)

Lemma utf8_encode_app (a b : text) :
  utf8_encode (a ++ b) =
    match utf8_encode a, utf8_encode b with
    | Some x, Some y => Some (x ++ y)
    | _, _ => None
    end.
Proof.
  induction a as [|c a IH]; simpl.
  - by destruct (utf8_encode b).
  - rewrite IH. destruct (utf8_encode_cp c), (utf8_encode a), (utf8_encode b);
      try done. by rewrite app_assoc.
Qed.

Lemma utf8_encode_app_Some (a b : text) (x y : bytes) :
  utf8_encode a = Some x -> utf8_encode b = Some y ->
  utf8_encode (a ++ b) = Some (x ++ y).
Proof. intros Ha Hb. by rewrite utf8_encode_app, Ha, Hb. Qed.

Lemma zlen_app {A} (a b : list A) : zlen (a ++ b) = zlen a + zlen b.
Proof. unfold zlen. rewrite length_app. lia. Qed.

Lemma zlen_nonneg {A} (a : list A) : 0 <= zlen a.
Proof. unfold zlen. lia. Qed.

(** ** The array planner *)

Lemma json_dumps_ok (depth : nat) (v : json) (t : text) :
  json_dumps depth v = Ok t -> t = dumps v.
Proof.
  unfold json_dumps. destruct (dumps_check depth v); cbn; congruence.
Qed.

(** An item that is measured is encodable, and its size is the UTF-8
    length of its serialization. *)
Lemma item_size_sizable (v : json) :
  sizable v -> item_size v = Ok (byte_size v) /\ json_encodable v.
Proof.
  intros [n H]. unfold item_size, json_dumps, byte_size, json_encodable, encode in *.
  destruct (dumps_check item_dumps_depth v); [|done]. cbn in *.
  destruct (utf8_encode (dumps v)); [|done]. eauto.
Qed.

Lemma sizable_encodable (items : list json) :
  Forall sizable items -> Forall json_encodable items.
Proof. intros H. eapply Forall_impl; [exact H|]. intros v. apply item_size_sizable. Qed.

Lemma byte_size_nonneg (v : json) : 0 <= byte_size v.
Proof. unfold byte_size. destruct (utf8_encode _); [apply zlen_nonneg|lia]. Qed.

Lemma frag_size_snoc (current : list json) (item : json) :
  frag_size (current ++ [item]) =
    frag_size current + (if bool_decide (current = []) then 0 else 1) + byte_size item.
Proof.
  unfold frag_size.
  assert (forall l, foldr (fun v acc => byte_size v + acc) 0 (l ++ [item])
                    = foldr (fun v acc => byte_size v + acc) 0 l + byte_size item) as ->.
  { induction l as [|x l IH]; simpl; [lia|]. rewrite IH. lia. }
  rewrite zlen_app.
  destruct current as [|x current]; simpl;
    repeat case_bool_decide; try done; unfold zlen; simpl; lia.
Qed.

Lemma split_array_loop_spec (target_bytes : Z) (items : list json) :
  Forall sizable items ->
  forall chunks current current_bytes,
    current_bytes = frag_size current ->
    within_target target_bytes current ->
    exists closed current',
      split_array_loop target_bytes items chunks current current_bytes
        = Ok (chunks ++ closed, current') /\
      concat closed ++ current' = current ++ items /\
      Forall (fun frag => frag <> [] /\ within_target target_bytes frag) closed /\
      within_target target_bytes current' /\
      (current' = [] -> current = [] /\ items = []).
Proof.
  induction 1 as [|item items Hitem Hitems IH]; intros chunks current cb Hcb Hcur.
  - exists [], current. simpl. rewrite !app_nil_r. by split_and!.
  - simpl. rewrite (proj1 (item_size_sizable item Hitem)). simpl.
    pose proof (byte_size_nonneg item) as Hnn.
    destruct current as [|c0 current0] eqn:Ecur.
    + (* the first item of a fragment is always taken *)
      rewrite (bool_decide_eq_true_2 ([] = [])) by done. simpl.
      destruct (IH chunks [item] (cb + byte_size item))
        as (closed & cur' & Hrun & Hcat & Hcl & Hw & He).
      { subst cb. unfold frag_size. simpl. unfold zlen. simpl. lia. }
      { right. simpl. lia. }
      exists closed, cur'. split_and!; try done.
      intros ->. by destruct (He eq_refl).
    + rewrite (bool_decide_eq_false_2 (c0 :: current0 = [])) by done. simpl.
      destruct (target_bytes <? cb + 1 + byte_size item) eqn:Eover.
      * (* over budget: close the fragment, start one with this item *)
        destruct (IH (chunks ++ [c0 :: current0]) [item] (2 + byte_size item))
          as (closed & cur' & Hrun & Hcat & Hcl & Hw & He).
        { unfold frag_size. simpl. unfold zlen. simpl. lia. }
        { right. simpl. lia. }
        exists ((c0 :: current0) :: closed), cur'.
        rewrite <- app_assoc in Hrun. simpl in Hrun. split_and!; try done.
        -- simpl. by rewrite <- app_assoc, Hcat.
        -- by constructor.
        -- intros ->. by destruct (He eq_refl).
      * apply Z.ltb_ge in Eover.
        destruct (IH chunks ((c0 :: current0) ++ [item]) (cb + 1 + byte_size item))
          as (closed & cur' & Hrun & Hcat & Hcl & Hw & He).
        { rewrite frag_size_snoc. rewrite bool_decide_eq_false_2 by done. lia. }
        { left. rewrite frag_size_snoc. rewrite bool_decide_eq_false_2 by done. lia. }
        exists closed, cur'. split_and!; try done.
        -- rewrite Hcat. by rewrite <- app_assoc.
        -- intros ->. by destruct (He eq_refl).
Qed.

Lemma join_encode (frag : list json) :
  Forall json_encodable frag ->
  exists b, utf8_encode (join (T ",") (map dumps frag)) = Some b /\
    zlen b = foldr (fun v acc => byte_size v + acc) 0 frag
             + (if bool_decide (frag = []) then 0 else zlen frag - 1).
Proof.
  induction 1 as [|v frag [bv Hv] Hfrag (b & Hb & Hlen)].
  - exists []. by rewrite bool_decide_eq_true_2.
  - rewrite bool_decide_eq_false_2 by done.
    destruct frag as [|w frag].
    + exists bv. simpl. unfold byte_size. rewrite Hv. split; [done|].
      unfold zlen. simpl. lia.
    + rewrite bool_decide_eq_false_2 in Hlen by done.
      exists (bv ++ [44] ++ b).
      change (join (T ",") (map dumps (v :: w :: frag)))
        with (dumps v ++ T "," ++ join (T ",") (map dumps (w :: frag))).
      split.
      * apply utf8_encode_app_Some; [done|].
        by apply utf8_encode_app_Some.
      * rewrite !zlen_app, Hlen.
        change (foldr _ 0 (v :: w :: frag))
          with (byte_size v + foldr (fun v acc => byte_size v + acc) 0 (w :: frag)).
        assert (byte_size v = zlen bv) as -> by (unfold byte_size; by rewrite Hv).
        unfold zlen. simpl. lia.
Qed.

(** The size the planner accounts for a fragment is the UTF-8 length of
    the fragment as [write_array_chunks] serializes it. *)
Lemma dumps_array_encode (frag : list json) :
  Forall json_encodable frag ->
  exists b, encode (dumps (JArr frag)) = Ok b /\ zlen b = frag_size frag.
Proof.
  intros (b & Hb & Hlen)%join_encode.
  exists ([91] ++ b ++ [93]). unfold encode.
  change (dumps (JArr frag)) with (T "[" ++ join (T ",") (map dumps frag) ++ T "]").
  rewrite (utf8_encode_app_Some (T "[") _ [91] (b ++ [93])); [|done|].
  - split; [done|]. unfold frag_size. rewrite !zlen_app, Hlen.
    unfold zlen. simpl. lia.
  - by apply utf8_encode_app_Some.
Qed.

Lemma split_array_for_target_bytes_spec (items : list json) (target_bytes : Z) :
  0 < target_bytes ->
  Forall sizable items ->
  exists chunks,
    split_array_for_target_bytes items target_bytes = Ok chunks /\
    concat chunks = items /\
    (items = [] -> chunks = [[]]) /\
    (items <> [] -> Forall (fun frag => frag <> []) chunks) /\
    Forall (within_target target_bytes) chunks.
Proof.
  intros Ht Hitems. unfold split_array_for_target_bytes.
  destruct (target_bytes <=? 0) eqn:E; [apply Z.leb_le in E; lia|].
  destruct items as [|item items].
  - exists [[]]. split_and!; try done.
    apply Forall_singleton. right. simpl. lia.
  - destruct (split_array_loop_spec target_bytes (item :: items) Hitems [] [] 2)
      as (closed & cur' & Hrun & Hcat & Hcl & Hw & He).
    { done. }
    { right. simpl. lia. }
    rewrite Hrun. simpl.
    assert (cur' <> []) as Hne by (intros ->; by destruct (He eq_refl)).
    rewrite bool_decide_eq_false_2 by done.
    exists (closed ++ [cur']). split_and!; try done.
    + rewrite concat_app. simpl. by rewrite app_nil_r.
    + intros _. apply Forall_app. split; [|by apply Forall_singleton].
      eapply Forall_impl; [exact Hcl|]. by intros ? [? _].
    + apply Forall_app. split; [|by apply Forall_singleton].
      eapply Forall_impl; [exact Hcl|]. by intros ? [_ ?].
Qed.

(** ** Induction on JSON values *)

Lemma json_ind' (P : json -> Prop) :
  P JNull ->
  (forall b, P (JBool b)) ->
  (forall n, P (JInt n)) ->
  (forall f, P (JFloat f)) ->
  (forall s, P (JStr s)) ->
  (forall items, Forall P items -> P (JArr items)) ->
  (forall members, Forall (fun kv => P (snd kv)) members -> P (JObj members)) ->
  forall v, P v.
Proof.
  intros Hnull Hbool Hint Hfloat Hstr Harr Hobj.
  fix go 1. intros [ |b|n|f|s|items|members].
  - exact Hnull.
  - apply Hbool.
  - apply Hint.
  - apply Hfloat.
  - apply Hstr.
  - apply Harr. induction items as [|x items IH]; constructor; [apply go|exact IH].
  - apply Hobj. induction members as [|[k x] members IH]; constructor; [apply go|exact IH].
Qed.

(** ** Decimal numerals *)

Definition digit_step (acc c : Z) : Z := acc * 10 + (c - 48).

Lemma scan_digits_app (ds rest : text) (acc : Z) :
  forallb is_digit ds = true ->
  head_is is_digit rest = false ->
  scan_digits (ds ++ rest) acc = (fold_left digit_step ds acc, rest).
Proof.
  revert acc. induction ds as [|d ds IH]; intros acc Hds Hrest.
  - destruct rest as [|c rest]; [done|].
    cbn [app fold_left scan_digits head_is] in *. by rewrite Hrest.
  - cbn [forallb] in Hds. apply andb_true_iff in Hds as [Hd Hds].
    cbn [app fold_left scan_digits]. rewrite Hd. by apply IH.
Qed.

Lemma digits_fuel_spec (fuel : nat) :
  forall n, 0 <= n < 2 ^ Z.of_nat (S fuel) ->
  exists ds d0 ds',
    (forall acc, digits_fuel (S fuel) n acc = ds ++ acc) /\
    ds = d0 :: ds' /\
    forallb is_digit ds = true /\
    fold_left digit_step ds 0 = n /\
    (d0 = 48 -> ds' = [] /\ n = 0).
Proof.
  induction fuel as [|fuel IH]; intros n Hn.
  - assert (n = 0 \/ n = 1) as [-> | ->] by (change (2 ^ Z.of_nat 1) with 2 in Hn; lia).
    + exists [48], 48, []. by split_and!.
    + exists [49], 49, []. by split_and!.
  - destruct (n <? 10) eqn:E.
    + apply Z.ltb_lt in E.
      exists [48 + n], (48 + n), []. split_and!; try done.
      * intros acc.
        change (digits_fuel (S (S fuel)) n acc)
          with (if n <? 10 then (48 + n mod 10) :: acc
                else digits_fuel (S fuel) (n / 10) ((48 + n mod 10) :: acc)).
        rewrite Z.mod_small by lia.
        apply Z.ltb_lt in E. by rewrite E.
      * simpl. unfold is_digit. rewrite andb_true_r.
        apply andb_true_iff. split; [apply Z.leb_le|apply Z.leb_le]; lia.
      * unfold digit_step. simpl. lia.
      * intros ?. split; [done|lia].
    + apply Z.ltb_ge in E.
      destruct (IH (n / 10)) as (ds & d0 & ds' & Hacc & -> & Hdig & Hval & Hzero).
      { rewrite Nat2Z.inj_succ, Z.pow_succ_r in Hn by lia.
        assert (0 < 2 ^ Z.of_nat (S fuel)) by (apply Z.pow_pos_nonneg; lia).
        split; [apply Z.div_pos; lia|].
        apply Z.div_lt_upper_bound; lia. }
      exists ((d0 :: ds') ++ [48 + n mod 10]), d0, (ds' ++ [48 + n mod 10]).
      split_and!.
      * intros acc.
        change (digits_fuel (S (S fuel)) n acc)
          with (if n <? 10 then (48 + n mod 10) :: acc
                else digits_fuel (S fuel) (n / 10) ((48 + n mod 10) :: acc)).
        apply Z.ltb_ge in E. rewrite E, Hacc. by rewrite <- app_assoc.
      * done.
      * rewrite forallb_app, Hdig. simpl. unfold is_digit.
        rewrite andb_true_r. apply andb_true_iff.
        split; apply Z.leb_le; pose proof (Z.mod_pos_bound n 10); lia.
      * rewrite fold_left_app, Hval. unfold digit_step. simpl.
        pose proof (Z.div_mod n 10). lia.
      * intros ->. destruct (Hzero eq_refl) as [_ H0].
        assert (n / 10 >= 1); [|lia].
        apply Z.le_ge, Z.div_le_lower_bound; lia.
Qed.

Lemma digits_spec (n : Z) :
  0 <= n ->
  exists d0 ds',
    digits n = d0 :: ds' /\
    forallb is_digit (d0 :: ds') = true /\
    fold_left digit_step (d0 :: ds') 0 = n /\
    (d0 = 48 -> ds' = [] /\ n = 0).
Proof.
  intros Hn.
  destruct (digits_fuel_spec (Z.to_nat (Z.log2 n)) n)
    as (ds & d0 & ds' & Hacc & -> & Hdig & Hval & Hzero).
  { split; [done|].
    rewrite Nat2Z.inj_succ, Z2Nat.id by apply Z.log2_nonneg.
    destruct (Z.eq_dec n 0) as [->|]; [done|].
    apply Z.log2_spec. lia. }
  exists d0, ds'. unfold digits. rewrite Hacc, app_nil_r. by split_and!.
Qed.

Arguments digits : simpl never.
Arguments decimal : simpl never.

(** Settles every comparison of integers in the goal that linear
    arithmetic decides. *)
Ltac decide_tests :=
  repeat match goal with
  | |- context [?a =? ?b] =>
      first [rewrite (proj2 (Z.eqb_eq a b)) by lia | rewrite (proj2 (Z.eqb_neq a b)) by lia]
  | |- context [?a <? ?b] =>
      first [rewrite (proj2 (Z.ltb_lt a b)) by lia | rewrite (proj2 (Z.ltb_ge a b)) by lia]
  | |- context [?a <=? ?b] =>
      first [rewrite (proj2 (Z.leb_le a b)) by lia | rewrite (proj2 (Z.leb_gt a b)) by lia]
  end.

Lemma is_digit_range (c : Z) : is_digit c = true -> 48 <= c <= 57.
Proof. unfold is_digit. intros [?%Z.leb_le ?%Z.leb_le]%andb_true_iff. lia. Qed.

Lemma scan_unsigned_digits (n : Z) (rest : text) :
  0 <= n -> head_is is_digit rest = false ->
  scan_unsigned (digits n ++ rest) = Some (n, rest).
Proof.
  intros Hn Hd.
  destruct (digits_spec n Hn) as (d0 & ds' & -> & Hdig & Hval & Hzero).
  cbn [forallb] in Hdig. apply andb_true_iff in Hdig as [Hd0 Hdig].
  cbn [app scan_unsigned].
  destruct (Z.eqb_spec d0 48) as [->|Hne].
  - by destruct (Hzero eq_refl) as [-> ->].
  - rewrite Hd0, scan_digits_app by done.
    cbn [fold_left] in Hval. unfold digit_step at 2 in Hval.
    rewrite Z.mul_0_l, Z.add_0_l in Hval. by rewrite Hval.
Qed.

Lemma digits_length (n : Z) : 0 <= n -> (0 < length (digits n))%nat.
Proof.
  intros Hn. destruct (digits_spec n Hn) as (d0 & ds' & -> & _). cbn [length]. lia.
Qed.

(** Without a digit limit, an integer is read back from its numeral. *)
Lemma scan_number_decimal (n : Z) (rest : text) :
  delimited rest ->
  scan_number 0 (decimal n ++ rest) = Some (Ok (JInt n, rest)).
Proof.
  intros [Hd Hf]. unfold decimal, scan_number.
  destruct (n <? 0) eqn:E.
  - apply Z.ltb_lt in E. cbn [app head_is tail]. cbn.
    rewrite scan_unsigned_digits by (done || lia). rewrite Hf. cbn.
    by rewrite Z.opp_involutive.
  - apply Z.ltb_ge in E.
    destruct (digits_spec n E) as (d0 & ds' & Hds & Hdig & _).
    cbn [forallb] in Hdig. apply andb_true_iff in Hdig as [Hd0%is_digit_range _].
    assert (head_is (Z.eqb 45) (digits n ++ rest) = false) as ->.
    { rewrite Hds. cbn [app head_is]. by decide_tests. }
    rewrite scan_unsigned_digits by done. by rewrite Hf.
Qed.

Lemma decimal_head (n : Z) :
  exists c tl, decimal n = c :: tl /\ (c = 45 \/ 48 <= c <= 57).
Proof.
  unfold decimal. destruct (n <? 0) eqn:E.
  - eauto.
  - apply Z.ltb_ge in E.
    destruct (digits_spec n E) as (d0 & ds' & Hds & Hdig & _).
    cbn [forallb] in Hdig. apply andb_true_iff in Hdig as [Hd0%is_digit_range _].
    eauto.
Qed.

(** ** Float literals *)

Lemma scan_digits_rest (s rest : text) :
  head_is is_digit rest = false ->
  forall acc, snd (scan_digits (s ++ rest) acc) = snd (scan_digits s acc) ++ rest.
Proof.
  intros Hrest. induction s as [|c s IH]; intros acc.
  - destruct rest as [|c rest]; [done|].
    cbn [app scan_digits head_is] in *. by rewrite Hrest.
  - cbn [app scan_digits]. destruct (is_digit c); [apply IH|done].
Qed.

Lemma scan_digits_stop (s rest : text) :
  forall acc, snd (scan_digits s acc) <> [] ->
    scan_digits (s ++ rest) acc = (fst (scan_digits s acc), snd (scan_digits s acc) ++ rest).
Proof.
  induction s as [|c s IH]; intros acc Hne; [done|].
  cbn [app scan_digits] in *. destruct (is_digit c); [by apply IH|done].
Qed.

(** The text a scan of digits leaves begins with no digit. *)
Lemma scan_digits_head (s : text) :
  forall acc, head_is is_digit (snd (scan_digits s acc)) = false.
Proof.
  induction s as [|c s IH]; intros acc; [done|].
  cbn [scan_digits]. destruct (is_digit c) eqn:E; [apply IH|]. cbn. done.
Qed.

Lemma scan_digits_consumed (s : text) :
  forall acc, exists ds,
    s = ds ++ snd (scan_digits s acc) /\ forallb is_digit ds = true.
Proof.
  induction s as [|c s IH]; intros acc; [by exists []|].
  cbn [scan_digits]. destruct (is_digit c) eqn:E.
  - destruct (IH (acc * 10 + (c - 48))) as (ds & Hs & Hds).
    exists (c :: ds). cbn [app forallb]. rewrite E, Hds. split; [by f_equal|done].
  - by exists [].
Qed.

Lemma float_follows_head (r : text) :
  float_follows r = true ->
  exists c tl, r = c :: tl /\ (c = 46 \/ c = 101 \/ c = 69).
Proof.
  destruct r as [|c tl]; [done|]. cbn [float_follows]. intros H.
  exists c, tl. split; [done|].
  destruct (Z.eqb_spec c 46); [auto|].
  destruct (Z.eqb_spec c 101); [auto|].
  destruct (Z.eqb_spec c 69); [auto|]. done.
Qed.

Lemma head_is_app (p : Z -> bool) (r rest : text) :
  r <> [] -> head_is p (r ++ rest) = head_is p r.
Proof. by destruct r. Qed.

Lemma tail_app_nonempty (r rest : text) : r <> [] -> tail (r ++ rest) = tail r ++ rest.
Proof. by destruct r. Qed.

Lemma head_is_nonempty (p : Z -> bool) (r : text) : head_is p r = true -> r <> [].
Proof. by destruct r. Qed.

Lemma float_follows_app (r rest : text) :
  float_follows r = true -> float_follows (r ++ rest) = true.
Proof.
  destruct r as [|c r]; [done|]. cbn [app float_follows].
  destruct (c =? 46).
  { intros H. by rewrite head_is_app by by eapply head_is_nonempty. }
  destruct ((c =? 101) || (c =? 69)); [|done].
  intros [H|[H1 H2]%andb_true_iff]%orb_true_iff.
  - rewrite head_is_app by by eapply head_is_nonempty. by rewrite H.
  - pose proof (head_is_nonempty _ _ H1) as Hr. pose proof (head_is_nonempty _ _ H2) as Ht.
    rewrite !(head_is_app _ r) by done. rewrite tail_app_nonempty by done.
    rewrite (head_is_app _ (tail r)) by done.
    rewrite H1, H2. apply orb_true_r.
Qed.

Lemma skip_fraction_app (r rest : text) :
  delimited rest -> skip_fraction (r ++ rest) = skip_fraction r ++ rest.
Proof.
  intros [Hd Hf]. destruct r as [|c r].
  - cbn [app skip_fraction]. destruct rest as [|c rest]; [done|].
    cbn [skip_fraction float_follows] in *.
    destruct (c =? 46); [|done]. cbn [andb]. by rewrite Hf.
  - cbn [app skip_fraction]. destruct (c =? 46); [|done]. cbn [andb].
    destruct r as [|d r].
    + cbn [app head_is]. by rewrite Hd.
    + cbn [app head_is]. destruct (is_digit d) eqn:E; [|done].
      change (d :: r ++ rest) with ((d :: r) ++ rest). by apply scan_digits_rest.
Qed.

Lemma skip_exponent_nil : forall rest, float_follows rest = false -> skip_exponent rest = rest.
Proof.
  intros [|c r]; [done|]. cbn [float_follows skip_exponent].
  destruct (c =? 46) eqn:E46.
  { apply Z.eqb_eq in E46 as ->. done. }
  destruct ((c =? 101) || (c =? 69)); [|done].
  intros [H1 H2]%orb_false_iff.
  destruct (head_is (fun d => (d =? 43) || (d =? 45)) r) eqn:Es.
  - cbn [andb] in H2. by rewrite H2.
  - by rewrite H1.
Qed.

(** An exponent, or nothing, that ends a text is matched in the same way
    when a delimited text follows. *)
Lemma skip_exponent_app (r rest : text) :
  delimited rest -> skip_exponent r = [] -> skip_exponent (r ++ rest) = rest.
Proof.
  intros [Hd Hf] Hr. destruct r as [|c r].
  - by apply skip_exponent_nil.
  - cbn [app skip_exponent] in *.
    destruct ((c =? 101) || (c =? 69)); [|done].
    set (sign := fun d : Z => (d =? 43) || (d =? 45)) in *.
    destruct (head_is is_digit (if head_is sign r then tail r else r)) eqn:E; [|done].
    assert (r <> []) as Hne.
    { intros ->. cbn in E. done. }
    rewrite head_is_app by done.
    destruct (head_is sign r).
    + pose proof (head_is_nonempty _ _ E) as Ht.
      rewrite tail_app_nonempty by done. rewrite head_is_app, E by done.
      by rewrite scan_digits_rest, Hr.
    + rewrite head_is_app, E by done. by rewrite scan_digits_rest, Hr.
Qed.

Lemma float_literal_head (t : text) :
  float_literal t = true ->
  exists c tl, t = c :: tl /\ (c = 45 \/ 48 <= c <= 57).
Proof.
  unfold float_literal. destruct t as [|c tl]; [done|]. intros H.
  exists c, tl. split; [done|]. cbn [head_is] in H.
  destruct (Z.eqb_spec 45 c) as [<-|Hne]; [auto|]. right.
  cbn [scan_unsigned] in H. destruct (Z.eqb_spec c 48) as [->|]; [lia|].
  destruct (is_digit c) eqn:E; [by apply is_digit_range|done].
Qed.

(** A float literal is read as a [float] of that literal. *)
Lemma scan_number_float (max_digits : Z) (t rest : text) :
  float_literal t = true -> delimited rest ->
  scan_number max_digits (t ++ rest) = Some (Ok (JFloat (float_of_literal t), rest)).
Proof.
  intros Hlit Hrest. pose proof Hrest as [Hd Hf].
  destruct (float_literal_head t Hlit) as (c & tl & -> & Hc).
  unfold float_literal in Hlit. unfold scan_number.
  change (head_is (Z.eqb 45) ((c :: tl) ++ rest)) with (head_is (Z.eqb 45) (c :: tl)).
  set (t1 := if head_is (Z.eqb 45) (c :: tl) then tail (c :: tl) else c :: tl) in *.
  assert ((if head_is (Z.eqb 45) (c :: tl) then tail ((c :: tl) ++ rest)
           else (c :: tl) ++ rest) = t1 ++ rest) as ->.
  { unfold t1. by destruct (head_is (Z.eqb 45) (c :: tl)). }
  destruct (scan_unsigned t1) as [[n r0]|] eqn:Eu; [|done].
  apply andb_true_iff in Hlit as [Hff Hend]. apply bool_decide_eq_true in Hend.
  destruct (float_follows_head r0 Hff) as (x & r0' & -> & Hx).
  assert (scan_unsigned (t1 ++ rest) = Some (n, (x :: r0') ++ rest)) as ->.
  { destruct t1 as [|a t1']; [done|]. cbn [app scan_unsigned] in *.
    destruct (a =? 48); [by simplify_eq|].
    destruct (is_digit a); [|done].
    injection Eu as Eu. rewrite scan_digits_stop.
    - by rewrite (surjective_pairing (scan_digits t1' (a - 48))), Eu in *.
    - rewrite (surjective_pairing (scan_digits t1' (a - 48))) in Eu.
      by injection Eu as _ ->. }
  rewrite float_follows_app by done.
  rewrite skip_fraction_app by done.
  rewrite (skip_exponent_app _ rest) by done.
  rewrite length_app.
  replace (length (c :: tl) + length rest - length rest)%nat with (length (c :: tl)) by lia.
  by rewrite take_app_length.
Qed.

(** ** Strings *)

Lemma scanstring_raw (c : Z) (r : text) :
  32 <= c -> c <> 34 -> c <> 92 ->
  scanstring (c :: r) = '(str, rest) ← scanstring r; Some (c :: str, rest).
Proof. intros. cbn [scanstring]. by decide_tests. Qed.

Lemma escape_char_raw (c : Z) :
  32 <= c -> c <> 34 -> c <> 92 -> escape_char c = [c].
Proof. intros. unfold escape_char. decide_tests. by rewrite andb_false_r. Qed.

Lemma scanstring_escape_char (c : Z) (r : text) :
  0 <= c ->
  scanstring (escape_char c ++ r) = '(str, rest) ← scanstring r; Some (c :: str, rest).
Proof.
  intros Hc.
  destruct (Z.lt_ge_cases c 32) as [Hlt|Hge].
  - assert (Z.to_nat c < 32)%nat as Hn by lia.
    rewrite <- (Z2Nat.id c) by done.
    generalize dependent (Z.to_nat c). clear. intros n Hn.
    do 32 (destruct n as [|n]; [reflexivity|]). lia.
  - destruct (Z.eq_dec c 34) as [->|]; [done|].
    destruct (Z.eq_dec c 92) as [->|]; [done|].
    rewrite escape_char_raw by done. by apply scanstring_raw.
Qed.

Lemma scanstring_dumps (s rest : text) :
  Forall (fun c => 0 <= c) s ->
  scanstring (flat_map escape_char s ++ 34 :: rest) = Some (s, rest).
Proof.
  induction 1 as [|c s Hc Hs IH]; [done|].
  cbn [flat_map]. rewrite <- app_assoc, scanstring_escape_char by done.
  by rewrite IH.
Qed.

Lemma scan_string_dumps (s rest : text) :
  Forall (fun c => 0 <= c) s ->
  scan_string (flat_map escape_char s ++ 34 :: rest) = Ok (s, rest).
Proof. intros H. unfold scan_string. by rewrite scanstring_dumps. Qed.

(** ** [JSON.parse] inverts [json.dumps] *)

Definition dumps_member (kv : text * json) : text :=
  dumps_string (fst kv) ++ T ":" ++ dumps (snd kv).

Lemma dumps_JArr (items : list json) :
  dumps (JArr items) = 91 :: join [44] (map dumps items) ++ [93].
Proof. reflexivity. Qed.

Lemma dumps_JObj (members : list (text * json)) :
  dumps (JObj members) = 123 :: join [44] (map dumps_member members) ++ [125].
Proof. reflexivity. Qed.

Lemma join_cons2 (sep p q : text) (rest : list text) :
  join sep (p :: q :: rest) = p ++ sep ++ join sep (q :: rest).
Proof. reflexivity. Qed.

(** The first character of a serialized value. *)
Definition value_start (c : Z) : Prop :=
  c = 34 \/ c = 45 \/ 48 <= c <= 57 \/ c = 91 \/ c = 102 \/ c = 110 \/ c = 116 \/ c = 123.

(** A value whose top, if a [float], is finite. *)
Definition number_at_top (v : json) : Prop :=
  match v with
  | JFloat f => float_finite f = true
  | _ => True
  end.

Lemma json_wf_top (v : json) : json_wf v -> number_at_top v.
Proof. by destruct v. Qed.

Lemma dumps_head (v : json) :
  number_at_top v -> exists c tl, dumps v = c :: tl /\ value_start c.
Proof.
  unfold value_start. destruct v as [ |[]|n|f|s|items|members]; intros Htop.
  - exists 110, (T "ull"). split; [done|lia].
  - exists 116, (T "rue"). split; [done|lia].
  - exists 102, (T "alse"). split; [done|lia].
  - destruct (decimal_head n) as (c & tl & Hd & Hc). exists c, tl. split; [done|lia].
  - destruct (float_literal_head _ Htop) as (c & tl & Hd & Hc). exists c, tl. split; [done|lia].
  - exists 34, (flat_map escape_char s ++ [34]). split; [done|lia].
  - rewrite dumps_JArr. eexists _, _. split; [done|lia].
  - rewrite dumps_JObj. eexists _, _. split; [done|lia].
Qed.

Lemma skip_json_ws_value (c : Z) (r : text) :
  value_start c \/ c = 44 \/ c = 58 \/ c = 93 \/ c = 125 ->
  skip_json_ws (c :: r) = c :: r.
Proof.
  unfold value_start. intros H. cbn [skip_json_ws]. unfold json_ws.
  by decide_tests.
Qed.

Lemma skip_json_ws_dumps (v : json) (r : text) :
  number_at_top v -> skip_json_ws (dumps v ++ r) = dumps v ++ r.
Proof.
  intros Htop. destruct (dumps_head v Htop) as (c & tl & -> & Hc).
  apply skip_json_ws_value. by left.
Qed.

Lemma delimited_sep (c : Z) (r : text) :
  c = 44 \/ c = 93 \/ c = 125 -> delimited (c :: r).
Proof.
  intros [->|[->| ->]]; split; reflexivity.
Qed.

Lemma delimited_nil : delimited [].
Proof. done. Qed.

Lemma valid_text_nonneg (s : text) : valid_text s = true -> Forall (fun c => 0 <= c) s.
Proof.
  unfold valid_text. rewrite forallb_forall, Forall_forall.
  intros H c Hc. apply list_elem_of_In, H in Hc. unfold is_scalar in Hc.
  apply andb_true_iff in Hc as [[?%Z.leb_le _]%andb_true_iff _]. done.
Qed.

Lemma dict_set_fresh (k : text) (v : json) (d : list (text * json)) :
  k ∉ map fst d -> dict_set k v d = d ++ [(k, v)].
Proof.
  induction d as [|[k' v'] d IH]; intros Hk; [done|].
  cbn [map fst] in Hk. apply not_elem_of_cons in Hk as [Hne Hk].
  cbn [dict_set app]. rewrite bool_decide_eq_false_2 by done. by rewrite IH.
Qed.

Lemma dict_of_pairs_distinct (members : list (text * json)) :
  NoDup (map fst members) -> dict_of_pairs members = members.
Proof.
  unfold dict_of_pairs.
  assert (forall d, NoDup (map fst (d ++ members)) ->
    fold_left (fun d kv => dict_set (fst kv) (snd kv) d) members d = d ++ members) as H.
  { induction members as [|[k v] members IH]; intros d Hd; cbn [fold_left].
    - by rewrite app_nil_r.
    - cbn [fst snd]. rewrite dict_set_fresh.
      + rewrite IH; rewrite <- app_assoc; done.
      + rewrite map_app in Hd. apply NoDup_app in Hd as (_ & Hd & _).
        intros Hin. apply (Hd _ Hin). cbn. left. }
  intros Hm. by apply (H []).
Qed.

(** The grammar of JSON: no constants, no limits. *)
Abbreviation grammar := (mkDecoder false 0).

(** A value that the scanner reads back from its serialization, whatever
    delimiter follows. *)
Definition round_trips (v : json) : Prop :=
  number_at_top v /\
  forall fuel rest, delimited rest -> (length (dumps v) < fuel)%nat ->
    scan_once grammar fuel None (dumps v ++ rest) = Ok (v, rest).

Lemma join_head (sep p : text) (ps : list text) :
  exists tl, join sep (p :: ps) = p ++ tl.
Proof.
  destruct ps as [|q ps]; [exists []; by rewrite app_nil_r|].
  rewrite join_cons2. eauto.
Qed.

Lemma skip_json_ws_join (v : json) (vs : list json) (r : text) :
  number_at_top v ->
  skip_json_ws (join [44] (map dumps (v :: vs)) ++ r) = join [44] (map dumps (v :: vs)) ++ r.
Proof.
  intros Htop. cbn [map]. destruct (join_head [44] (dumps v) (map dumps vs)) as [tl ->].
  rewrite <- app_assoc. by apply skip_json_ws_dumps.
Qed.

Lemma head_is_dumps (c : Z) (v : json) (r : text) :
  number_at_top v -> ~ value_start c -> head_is (Z.eqb c) (dumps v ++ r) = false.
Proof.
  intros Htop Hc. destruct (dumps_head v Htop) as (c' & tl & -> & Hc').
  cbn [app head_is]. apply Z.eqb_neq. by intros ->.
Qed.

Lemma scan_elements_join (items : list json) :
  items <> [] ->
  Forall round_trips items ->
  forall fuel rest,
    (length (join [44%Z] (map dumps items)) + 1 < fuel)%nat ->
    scan_elements grammar fuel None (join [44] (map dumps items) ++ 93 :: rest)
      = Ok (items, rest).
Proof.
  induction items as [|x items IH]; [done|].
  intros _ HF fuel rest Hfuel. inversion HF as [|? ? [Htx Hx] HF']; subst.
  destruct fuel as [|f]; [lia|]. cbn [scan_elements].
  destruct items as [|y items].
  - cbn [map join] in *.
    rewrite (Hx f (93 :: rest)); [|apply delimited_sep; auto|lia].
    cbn [mbind result_bind]. rewrite skip_json_ws_value by auto. done.
  - cbn [map] in *. rewrite join_cons2 in *. rewrite length_app in Hfuel.
    cbn [length app] in Hfuel. rewrite <- !app_assoc. cbn [app].
    rewrite (Hx f); [|apply delimited_sep; auto|lia].
    cbn [mbind result_bind]. rewrite skip_json_ws_value by auto.
    change (44 =? 93) with false. change (44 =? 44) with true. cbv iota.
    inversion HF' as [|? ? [Hty _] _]; subst.
    rewrite (skip_json_ws_join y items) by done. cbn [map].
    rewrite (IH ltac:(done) HF' f rest) by lia. done.
Qed.

(** The text of an object from its first key on, entered after the
    key's opening quote. *)
Definition members_tail (members : list (text * json)) (rest : text) : text :=
  match members with
  | [] => 125 :: rest
  | _ => 44 :: join [44] (map dumps_member members) ++ 125 :: rest
  end.

Definition member_body (k : text) (v : json) (r : text) : text :=
  flat_map escape_char k ++ 34 :: 58 :: dumps v ++ r.

Lemma join_members_unfold (k : text) (v : json) (ms : list (text * json)) (rest : text) :
  join [44] (map dumps_member ((k, v) :: ms)) ++ 125 :: rest
    = 34 :: member_body k v (members_tail ms rest).
Proof.
  unfold member_body, members_tail. destruct ms as [|m ms].
  - cbn [map join]. unfold dumps_member, dumps_string. cbn [fst snd].
    rewrite <- !app_assoc. done.
  - cbn [map]. rewrite join_cons2. unfold dumps_member at 1, dumps_string.
    cbn [fst snd]. rewrite <- !app_assoc. done.
Qed.

Lemma length_dumps_member (k : text) (v : json) :
  length (dumps_member (k, v)) = (length (dumps v) + 3 + length (flat_map escape_char k))%nat.
Proof.
  unfold dumps_member, dumps_string. cbn [fst snd]. change (T ":") with [58%Z].
  rewrite !length_app. cbn [length]. lia.
Qed.

Lemma length_join_members (k : text) (v : json) (ms : list (text * json)) :
  (length (dumps v) + 3 + length (join [44%Z] (map dumps_member ms))
     <= length (join [44%Z] (map dumps_member ((k, v) :: ms))))%nat.
Proof.
  destruct ms as [|m ms].
  - cbn [map join]. rewrite length_dumps_member. cbn [length]. lia.
  - cbn [map]. rewrite join_cons2, !length_app, length_dumps_member. lia.
Qed.

Lemma scan_members_join (ms : list (text * json)) :
  Forall (fun kv => round_trips (snd kv)) ms ->
  Forall (fun kv => valid_text (fst kv) = true) ms ->
  forall k v fuel rest,
    round_trips v -> valid_text k = true ->
    (length (join [44%Z] (map dumps_member ((k, v) :: ms))) + 1 < fuel)%nat ->
    scan_members grammar fuel None (member_body k v (members_tail ms rest))
      = Ok ((k, v) :: ms, rest).
Proof.
  induction ms as [|[k' v'] ms IH]; intros HF HK k v fuel rest [Htv Hv] Hk Hfuel;
    (destruct fuel as [|f]; [lia|]); cbn [scan_members]; unfold member_body.
  - pose proof (length_join_members k v []) as Hlen.
    rewrite scan_string_dumps by by apply valid_text_nonneg.
    cbn [mbind result_bind]. rewrite skip_json_ws_value by auto.
    change (58 =? 58) with true. cbv iota.
    rewrite skip_json_ws_dumps by done.
    unfold members_tail.
    rewrite (Hv f); [|apply delimited_sep; auto|lia].
    cbn [mbind result_bind]. rewrite skip_json_ws_value by auto. done.
  - pose proof (length_join_members k v ((k', v') :: ms)) as Hlen.
    inversion HF as [|? ? Hv' HF']; subst. inversion HK as [|? ? Hk' HK']; subst.
    cbn [fst snd] in *.
    rewrite scan_string_dumps by by apply valid_text_nonneg.
    cbn [mbind result_bind]. rewrite skip_json_ws_value by auto.
    change (58 =? 58) with true. cbv iota.
    rewrite skip_json_ws_dumps by done.
    unfold members_tail at 1.
    rewrite (Hv f); [|apply delimited_sep; auto|lia].
    cbn [mbind result_bind]. rewrite skip_json_ws_value by auto.
    change (44 =? 125) with false. change (44 =? 44) with true. cbv iota.
    rewrite join_members_unfold.
    rewrite skip_json_ws_value by (left; unfold value_start; auto).
    change (34 =? 34) with true. cbv iota.
    rewrite (IH HF' HK' k' v' f rest) by (done || lia). done.
Qed.

Lemma scan_atom_number (d : decoder) (c : Z) (tl : text) (found : result (json * text)) :
  c = 45 \/ 48 <= c <= 57 ->
  scan_number (max_int_digits d) (c :: tl) = Some found ->
  scan_atom d (c :: tl) = found.
Proof.
  intros Hc Hn. unfold scan_atom.
  assert (scan_literal (c :: tl) = None) as ->.
  { unfold scan_literal.
    change (T "null") with (110 :: T "ull"). change (T "true") with (116 :: T "rue").
    change (T "false") with (102 :: T "alse").
    cbn [strip_prefix]. by decide_tests. }
  by rewrite Hn.
Qed.

Lemma scan_once_dumps (v : json) : json_wf v -> round_trips v.
Proof.
  unfold json_wf. induction v as [ |b|n|x|s|items IH|members IH] using json_ind';
    intros Hwf; (split; [by apply json_wf_top|]);
    intros fuel rest Hrest Hfuel; (destruct fuel as [|f]; [lia|]).
  - reflexivity.
  - by destruct b.
  - destruct (decimal_head n) as (c & tl & Hd & Hc).
    pose proof (scan_number_decimal n rest Hrest) as Hn.
    cbn [dumps]. rewrite Hd in *. cbn [app scan_once].
    decide_tests. by apply scan_atom_number.
  - cbn [json_wfb] in Hwf.
    destruct (float_literal_head _ Hwf) as (c & tl & Hd & Hc).
    pose proof (scan_number_float 0 _ rest Hwf Hrest) as Hn.
    rewrite float_read_back in Hn by done.
    cbn [dumps]. rewrite Hd in *. cbn [app scan_once].
    decide_tests. by apply scan_atom_number.
  - cbn [dumps]. unfold dumps_string. cbn [app scan_once].
    change (34 =? 34) with true. cbv iota.
    cbn [json_wfb] in Hwf. rewrite <- app_assoc. cbn [app].
    by rewrite scan_string_dumps by by apply valid_text_nonneg.
  - rewrite dumps_JArr in *. cbn [app scan_once].
    change (91 =? 34) with false. change (91 =? 123) with false.
    change (91 =? 91) with true. cbv iota. cbn [enter mbind result_bind].
    cbn [json_wfb] in Hwf. rewrite forallb_forall in Hwf.
    assert (Forall round_trips items) as HF.
    { rewrite Forall_forall in IH |- *. intros x Hx. apply IH; [done|].
      by apply Hwf, list_elem_of_In. }
    destruct items as [|x items].
    + reflexivity.
    + inversion HF as [|? ? [Htx _] _]; subst.
      rewrite <- app_assoc. cbn [app]. rewrite skip_json_ws_join by done.
      assert (head_is (Z.eqb 93) (join [44] (map dumps (x :: items)) ++ 93 :: rest) = false) as ->.
      { cbn [map]. destruct (join_head [44] (dumps x) (map dumps items)) as [tl ->].
        rewrite <- app_assoc. apply head_is_dumps; [done|]. unfold value_start. lia. }
      cbn [length] in Hfuel. rewrite length_app in Hfuel. cbn [length] in Hfuel.
      rewrite scan_elements_join by (done || lia). done.
  - rewrite dumps_JObj in *. cbn [app scan_once].
    change (123 =? 34) with false. change (123 =? 123) with true. cbv iota.
    cbn [enter mbind result_bind].
    cbn [json_wfb] in Hwf. apply andb_true_iff in Hwf as [Hnd Hwf].
    apply bool_decide_eq_true in Hnd. rewrite forallb_forall in Hwf.
    destruct members as [|[k v] ms].
    + reflexivity.
    + rewrite <- app_assoc. cbn [app]. rewrite join_members_unfold.
      rewrite skip_json_ws_value by (left; unfold value_start; auto).
      change (34 =? 125) with false. change (34 =? 34) with true. cbv iota.
      inversion IH as [|? ? Hv IH']; subst. cbn [snd] in Hv.
      assert (valid_text k = true /\ json_wfb v = true) as [Hk Hwv].
      { specialize (Hwf (k, v) ltac:(by left)). by apply andb_true_iff in Hwf. }
      cbn [length] in Hfuel. rewrite length_app in Hfuel. cbn [length] in Hfuel.
      rewrite (scan_members_join ms).
      * cbn [mbind result_bind]. by rewrite dict_of_pairs_distinct.
      * rewrite Forall_forall in IH' |- *. intros kv Hkv. apply IH'; [done|].
        specialize (Hwf kv ltac:(right; by apply list_elem_of_In)).
        by apply andb_true_iff in Hwf as [_ ?].
      * rewrite Forall_forall. intros kv Hkv.
        specialize (Hwf kv ltac:(right; by apply list_elem_of_In)).
        by apply andb_true_iff in Hwf as [? _].
      * by apply Hv.
      * done.
      * lia.
Qed.

(** The serialization of a well-formed value is valid JSON, and parsing
    it gives the value back. *)
Theorem JSON_parse_dumps (v : json) : json_wf v -> JSON_parse (dumps v) = Ok v.
Proof.
  intros Hwf. unfold JSON_parse, decode_document.
  pose proof (json_wf_top v Hwf) as Htop.
  pose proof (head_is_dumps 0xFEFF v [] Htop) as Hbom. rewrite app_nil_r in Hbom.
  rewrite Hbom by (unfold value_start; lia).
  pose proof (skip_json_ws_dumps v [] Htop) as Hws. rewrite app_nil_r in Hws. rewrite Hws.
  destruct (scan_once_dumps v Hwf) as [_ Hscan].
  specialize (Hscan (S (2 * length (dumps v))) [] delimited_nil).
  rewrite app_nil_r in Hscan. rewrite Hscan by lia. done.
Qed.

(** ** Well-formed values are encodable *)

Lemma utf8_encode_cp_scalar (c : Z) :
  is_scalar c = true -> is_Some (utf8_encode_cp c).
Proof.
  unfold is_scalar, utf8_encode_cp.
  intros [[H0%Z.leb_le H1%Z.ltb_lt]%andb_true_iff Hs%negb_true_iff]%andb_true_iff.
  rewrite Hs. decide_tests.
  repeat (case_match; try done).
Qed.

Lemma utf8_encode_valid (s : text) : valid_text s = true -> is_Some (utf8_encode s).
Proof.
  unfold valid_text. induction s as [|c s IH]; [done|].
  cbn [forallb utf8_encode]. intros [Hc Hs]%andb_true_iff.
  destruct (utf8_encode_cp_scalar c Hc) as [b ->]. destruct (IH Hs) as [bs ->]. done.
Qed.

Lemma valid_text_app (a b : text) :
  valid_text (a ++ b) = valid_text a && valid_text b.
Proof. apply forallb_app. Qed.

Lemma valid_text_escape_char (c : Z) :
  is_scalar c = true -> valid_text (escape_char c) = true.
Proof.
  intros Hc.
  assert (0 <= c) as H0.
  { unfold is_scalar in Hc. apply andb_true_iff in Hc as [[?%Z.leb_le _]%andb_true_iff _]. done. }
  destruct (Z.lt_ge_cases c 32) as [Hlt|Hge].
  - assert (Z.to_nat c < 32)%nat as Hn by lia.
    rewrite <- (Z2Nat.id c) by done.
    generalize dependent (Z.to_nat c). clear. intros n Hn.
    do 32 (destruct n as [|n]; [reflexivity|]). lia.
  - destruct (Z.eq_dec c 34) as [->|]; [done|].
    destruct (Z.eq_dec c 92) as [->|]; [done|].
    rewrite escape_char_raw by done. unfold valid_text. cbn [forallb].
    by rewrite Hc.
Qed.

Lemma valid_text_dumps_string (s : text) :
  valid_text s = true -> valid_text (dumps_string s) = true.
Proof.
  intros Hs. unfold dumps_string. rewrite !valid_text_app.
  apply andb_true_iff. split; [done|]. apply andb_true_iff. split; [|done].
  unfold valid_text in *. induction s as [|c s IH]; [done|].
  cbn [forallb flat_map] in *. apply andb_true_iff in Hs as [Hc Hs].
  rewrite forallb_app. apply andb_true_iff. split; [|by apply IH].
  by apply valid_text_escape_char.
Qed.

Lemma is_digit_scalar (c : Z) : is_digit c = true -> is_scalar c = true.
Proof. intros [? ?]%is_digit_range. unfold is_scalar. by decide_tests. Qed.

Lemma valid_text_decimal (n : Z) : valid_text (decimal n) = true.
Proof.
  assert (forall m, 0 <= m -> valid_text (digits m) = true) as Hd.
  { intros m Hm. destruct (digits_spec m Hm) as (d0 & ds' & -> & Hdig & _).
    unfold valid_text. rewrite forallb_forall in Hdig |- *.
    intros c Hc. by apply is_digit_scalar, Hdig. }
  unfold decimal. destruct (n <? 0) eqn:E.
  - apply Z.ltb_lt in E. change (45 :: digits (- n)) with ([45] ++ digits (- n)).
    rewrite valid_text_app, Hd by lia. done.
  - apply Z.ltb_ge in E. by apply Hd.
Qed.

Lemma valid_text_digits (ds : text) : forallb is_digit ds = true -> valid_text ds = true.
Proof.
  unfold valid_text. rewrite !forallb_forall. intros H c Hc. by apply is_digit_scalar, H.
Qed.

Lemma skip_fraction_consumed (r : text) :
  exists p, r = p ++ skip_fraction r /\ valid_text p = true.
Proof.
  destruct r as [|c r]; [by exists []|]. cbn [skip_fraction].
  destruct ((c =? 46) && head_is is_digit r) eqn:E; [|by exists []].
  apply andb_true_iff in E as [->%Z.eqb_eq _].
  destruct (scan_digits_consumed r 0) as (ds & Hs & Hds).
  exists (46 :: ds). split; [cbn [app]; by f_equal|].
  change (46 :: ds) with ([46] ++ ds). rewrite valid_text_app.
  by rewrite (valid_text_digits ds).
Qed.

Lemma skip_exponent_consumed (r : text) :
  exists p, r = p ++ skip_exponent r /\ valid_text p = true.
Proof.
  destruct r as [|c r]; [by exists []|]. cbn [skip_exponent].
  destruct ((c =? 101) || (c =? 69)) eqn:Ec; [|by exists []].
  assert (is_scalar c = true) as Hc.
  { apply orb_true_iff in Ec as [->%Z.eqb_eq| ->%Z.eqb_eq]; reflexivity. }
  destruct (head_is (fun d => (d =? 43) || (d =? 45)) r) eqn:Es.
  - destruct r as [|d r]; [done|]. cbn [head_is tail] in *.
    destruct (head_is is_digit r); [|by exists []].
    destruct (scan_digits_consumed r 0) as (ds & Hs & Hds).
    exists (c :: d :: ds). split; [cbn [app]; by do 2 f_equal|].
    change (c :: d :: ds) with ([c; d] ++ ds). rewrite valid_text_app.
    rewrite (valid_text_digits ds) by done. unfold valid_text. cbn [forallb].
    rewrite Hc. apply orb_true_iff in Es as [->%Z.eqb_eq| ->%Z.eqb_eq]; reflexivity.
  - destruct (head_is is_digit r); [|by exists []].
    destruct (scan_digits_consumed r 0) as (ds & Hs & Hds).
    exists (c :: ds). split; [cbn [app]; by f_equal|].
    change (c :: ds) with ([c] ++ ds). rewrite valid_text_app.
    rewrite (valid_text_digits ds) by done. unfold valid_text. cbn [forallb].
    by rewrite Hc.
Qed.

Lemma scan_unsigned_consumed (s : text) (n : Z) (r : text) :
  scan_unsigned s = Some (n, r) -> exists p, s = p ++ r /\ valid_text p = true.
Proof.
  destruct s as [|c s]; [done|]. cbn [scan_unsigned].
  destruct (Z.eqb_spec c 48) as [->|_].
  - intros [= <- <-]. by exists [48].
  - destruct (is_digit c) eqn:Ec; [|done]. intros [= H].
    destruct (scan_digits_consumed s (c - 48)) as (ds & Hs & Hds).
    rewrite H in Hs. cbn [snd] in Hs.
    exists (c :: ds). split; [cbn [app]; by f_equal|].
    apply valid_text_digits. cbn [forallb]. by rewrite Ec.
Qed.

(** A float literal is ASCII. *)
Lemma valid_text_float_literal (t : text) : float_literal t = true -> valid_text t = true.
Proof.
  unfold float_literal. intros H.
  destruct (scan_unsigned _) as [[n r0]|] eqn:Eu; [|done].
  apply andb_true_iff in H as [_ Hend%bool_decide_eq_true].
  apply scan_unsigned_consumed in Eu as (p & Hp & Hvp).
  destruct (skip_fraction_consumed r0) as (q & Hq & Hvq).
  destruct (skip_exponent_consumed (skip_fraction r0)) as (x & Hx & Hvx).
  rewrite Hend, app_nil_r in Hx. rewrite Hx in Hq. rewrite Hq in Hp.
  assert (valid_text (if head_is (Z.eqb 45) t then tail t else t) = true) as Ht.
  { rewrite Hp, !valid_text_app, Hvp, Hvq, Hvx. done. }
  destruct t as [|c t]; [done|]. cbn [head_is tail] in Ht.
  destruct (Z.eqb_spec 45 c) as [<-|_]; [|done].
  change (45 :: t) with ([45] ++ t). by rewrite valid_text_app, Ht.
Qed.

Lemma valid_text_join (parts : list text) :
  Forall (fun p => valid_text p = true) parts ->
  valid_text (join [44] parts) = true.
Proof.
  induction 1 as [|p parts Hp Hparts IH]; [done|].
  destruct parts as [|q parts]; [done|].
  rewrite join_cons2, !valid_text_app, Hp, IH. done.
Qed.

Lemma valid_text_dumps (v : json) : json_wf v -> valid_text (dumps v) = true.
Proof.
  unfold json_wf.
  induction v as [ |b|n|f|s|items IH|members IH] using json_ind'; intros Hwf.
  - done.
  - by destruct b.
  - apply valid_text_decimal.
  - by apply valid_text_float_literal.
  - by apply valid_text_dumps_string.
  - rewrite dumps_JArr. change (91 :: ?x) with ([91] ++ x).
    rewrite !valid_text_app, valid_text_join; [done|].
    cbn [json_wfb] in Hwf. rewrite forallb_forall in Hwf.
    rewrite Forall_forall in IH. apply Forall_forall. intros p Hp.
    apply list_elem_of_fmap in Hp as (x & -> & Hx).
    apply IH; [done|]. by apply Hwf, list_elem_of_In.
  - rewrite dumps_JObj. change (123 :: ?x) with ([123] ++ x).
    rewrite !valid_text_app, valid_text_join; [done|].
    cbn [json_wfb] in Hwf. apply andb_true_iff in Hwf as [_ Hwf].
    rewrite forallb_forall in Hwf.
    rewrite Forall_forall in IH. apply Forall_forall. intros p Hp.
    apply list_elem_of_fmap in Hp as ([k x] & -> & Hx).
    specialize (Hwf (k, x) ltac:(by apply list_elem_of_In)).
    apply andb_true_iff in Hwf as [Hk Hwx].
    unfold dumps_member. cbn [fst snd]. rewrite !valid_text_app.
    rewrite valid_text_dumps_string by done.
    pose proof (IH (k, x) Hx Hwx) as Hvx. cbn [snd] in Hvx. by rewrite Hvx.
Qed.

Lemma json_wf_encodable (v : json) : json_wf v -> json_encodable v.
Proof. intros Hwf. by apply utf8_encode_valid, valid_text_dumps. Qed.

(** ** Array slicing: round trip (C1) and byte bound (C3) *)

Lemma utf8_encode_cp_Some_scalar (c : Z) : is_Some (utf8_encode_cp c) -> is_scalar c = true.
Proof.
  unfold utf8_encode_cp, is_scalar. intros [b H].
  destruct (Z.ltb_spec c 0), (Z.ltb_spec c 0x80), (Z.ltb_spec c 0x800),
    (Z.ltb_spec c 0x10000), (Z.leb_spec 0xD800 c), (Z.ltb_spec c 0xE000),
    (Z.ltb_spec c 0x110000), (Z.leb_spec 0 c); simpl in *; try done; lia.
Qed.

(** Only valid text has a UTF-8 encoding. *)
Lemma utf8_encode_Some_valid (s : text) : is_Some (utf8_encode s) -> valid_text s = true.
Proof.
  unfold valid_text. induction s as [|c s IH]; [done|].
  cbn [utf8_encode forallb]. intros [b H].
  destruct (utf8_encode_cp c) as [bc|] eqn:Ec; [|done].
  destruct (utf8_encode s) as [bs|]; [|done].
  rewrite (utf8_encode_cp_Some_scalar c) by (rewrite Ec; eauto).
  apply IH. eauto.
Qed.

Lemma json_encodable_valid (v : json) : json_encodable v -> valid_text (dumps v) = true.
Proof. apply utf8_encode_Some_valid. Qed.

Lemma valid_text_escaped (c : Z) : valid_text (escape_char c) = true -> is_scalar c = true.
Proof.
  unfold escape_char.
  destruct (Z.eqb_spec c 34) as [->|_]; [done|].
  destruct (Z.eqb_spec c 92) as [->|_]; [done|].
  destruct (Z.eqb_spec c 10) as [->|_]; [done|].
  destruct (Z.eqb_spec c 13) as [->|_]; [done|].
  destruct (Z.eqb_spec c 9) as [->|_]; [done|].
  destruct (Z.eqb_spec c 8) as [->|_]; [done|].
  destruct (Z.eqb_spec c 12) as [->|_]; [done|].
  destruct ((0 <=? c) && (c <? 32)) eqn:E.
  - intros _. apply andb_true_iff in E as [?%Z.leb_le ?%Z.ltb_lt].
    unfold is_scalar. by decide_tests.
  - unfold valid_text. cbn [forallb]. by rewrite andb_true_r.
Qed.

Lemma valid_text_dumps_string_inv (s : text) :
  valid_text (dumps_string s) = true -> valid_text s = true.
Proof.
  unfold dumps_string. rewrite !valid_text_app.
  intros [_ [H _]%andb_true_iff]%andb_true_iff. revert H.
  induction s as [|c s IH]; [done|].
  cbn [flat_map]. rewrite valid_text_app. intros [Hc Hs]%andb_true_iff.
  unfold valid_text in *. cbn [forallb]. rewrite IH by done.
  by rewrite valid_text_escaped.
Qed.

Lemma valid_text_join_inv (parts : list text) :
  valid_text (join [44] parts) = true -> Forall (fun p => valid_text p = true) parts.
Proof.
  induction parts as [|p parts IH]; [done|].
  destruct parts as [|q parts]; [by constructor|].
  rewrite join_cons2, !valid_text_app.
  intros [Hp [_ Hrest]%andb_true_iff]%andb_true_iff. constructor; auto.
Qed.

(** A plain value whose serialization is valid text is well formed. *)
Lemma json_plain_wf (v : json) :
  valid_text (dumps v) = true -> json_plain v -> json_wf v.
Proof.
  unfold json_plain, json_wf.
  induction v as [ |b|n|f|s|items IH|members IH] using json_ind'; intros Hv Hp; try done.
  - by apply valid_text_dumps_string_inv.
  - rewrite dumps_JArr in Hv. change (91 :: ?x) with ([91] ++ x) in Hv.
    rewrite !valid_text_app in Hv.
    apply andb_true_iff in Hv as [_ [Hv%valid_text_join_inv _]%andb_true_iff].
    cbn [json_plainb json_wfb] in *. rewrite forallb_forall in Hp |- *.
    rewrite Forall_forall in IH. rewrite Forall_forall in Hv.
    intros x Hx%list_elem_of_In.
    apply IH; [done| |by apply Hp, list_elem_of_In].
    apply Hv, list_elem_of_fmap. eauto.
  - rewrite dumps_JObj in Hv. change (123 :: ?x) with ([123] ++ x) in Hv.
    rewrite !valid_text_app in Hv.
    apply andb_true_iff in Hv as [_ [Hv%valid_text_join_inv _]%andb_true_iff].
    cbn [json_plainb json_wfb] in *. apply andb_true_iff in Hp as [Hnd Hp].
    rewrite Hnd. cbn [andb]. rewrite forallb_forall in Hp |- *.
    rewrite Forall_forall in IH. rewrite Forall_forall in Hv.
    intros [k x] Hx%list_elem_of_In.
    assert (valid_text (dumps_member (k, x)) = true) as Hm.
    { apply Hv, list_elem_of_fmap. eauto. }
    unfold dumps_member in Hm. cbn [fst snd] in *. rewrite !valid_text_app in Hm.
    apply andb_true_iff in Hm as [Hk [_ Hx']%andb_true_iff].
    rewrite (valid_text_dumps_string_inv k Hk). cbn [andb].
    apply (IH (k, x) Hx Hx'). by apply (Hp (k, x)), list_elem_of_In.
Qed.

Lemma json_encodable_plain_wf (v : json) : json_encodable v -> json_plain v -> json_wf v.
Proof. intros He. apply json_plain_wf. by apply json_encodable_valid. Qed.

Lemma json_wf_plain (v : json) : json_wf v -> json_plain v.
Proof.
  unfold json_plain, json_wf.
  induction v as [ |b|n|f|s|items IH|members IH] using json_ind'; intros Hwf; try done.
  - cbn [json_plainb json_wfb] in *. rewrite forallb_forall in Hwf |- *.
    rewrite Forall_forall in IH. intros x Hx. apply IH; [by apply list_elem_of_In|by apply Hwf].
  - cbn [json_plainb json_wfb] in *. apply andb_true_iff in Hwf as [-> Hwf]. cbn [andb].
    rewrite forallb_forall in Hwf |- *.
    rewrite Forall_forall in IH. intros kv Hx. apply IH; [by apply list_elem_of_In|].
    specialize (Hwf kv Hx). by apply andb_true_iff in Hwf as [_ ?].
Qed.

Lemma json_encodable_array (frag : list json) :
  Forall json_encodable frag -> json_encodable (JArr frag).
Proof.
  intros (b & Hb & _)%dumps_array_encode. unfold json_encodable.
  unfold encode in Hb. destruct (utf8_encode (dumps (JArr frag))); [eauto|done].
Qed.

Lemma merge_array_chunks_dumps (chunks : list (list json)) :
  Forall (fun frag => json_wf (JArr frag)) chunks ->
  merge_array_chunks (map (fun frag => dumps (JArr frag)) chunks) = Some (concat chunks).
Proof.
  induction 1 as [|frag chunks Hfrag Hchunks IH]; [done|].
  cbn [map merge_array_chunks concat]. by rewrite JSON_parse_dumps, IH.
Qed.

Lemma json_wf_fragments (chunks : list (list json)) :
  Forall json_wf (concat chunks) -> Forall (fun frag => json_wf (JArr frag)) chunks.
Proof.
  induction chunks as [|frag chunks IH]; [done|].
  cbn [concat]. intros [Hfrag Hrest]%Forall_app. constructor; [|by apply IH].
  unfold json_wf in *. cbn [json_wfb]. apply forallb_forall.
  intros x Hx. rewrite Forall_forall in Hfrag. by apply Hfrag, list_elem_of_In.
Qed.

Lemma Forall_concat_parts {A} (P : A -> Prop) (chunks : list (list A)) :
  Forall P (concat chunks) -> Forall (Forall P) chunks.
Proof.
  induction chunks as [|frag chunks IH]; [done|].
  cbn [concat]. intros [? ?]%Forall_app. constructor; auto.
Qed.

(** C1 (amended): for a positive budget and an array whose items can be
    measured ([item_size] returns: [json.dumps] serializes the item and
    UTF-8 can encode the text; otherwise the planner raises), the planner
    returns fragments that concatenate, in order, to the array, and the
    empty array gives exactly one fragment, the empty array.  A fragment that is plain (no [NaN], no infinity; dict keys
    distinct, as in any Python [dict]) serializes as valid JSON that
    parses on its own to that fragment, and when the whole array is plain
    the loader's merge of the chunk texts rebuilds it. *)
Theorem split_array_round_trip (items : list json) (target_bytes : Z) :
  0 < target_bytes ->
  Forall sizable items ->
  exists chunks,
    split_array_for_target_bytes items target_bytes = Ok chunks /\
    concat chunks = items /\
    Forall (fun frag =>
      json_plain (JArr frag) -> JSON_parse (dumps (JArr frag)) = Ok (JArr frag)) chunks /\
    (json_plain (JArr items) ->
     reconstruct array_slices (map (fun frag => dumps (JArr frag)) chunks)
       = Some (JArr items)) /\
    (items = [] -> chunks = [[]]).
Proof.
  intros Ht Hsize. pose proof (sizable_encodable items Hsize) as Henc.
  destruct (split_array_for_target_bytes_spec items target_bytes Ht Hsize)
    as (chunks & Hrun & Hcat & Hempty & _ & _).
  exists chunks.
  assert (Forall (fun frag => json_encodable (JArr frag)) chunks) as Hfe.
  { rewrite <- Hcat in Henc. apply Forall_concat_parts in Henc.
    eapply Forall_impl; [exact Henc|]. apply json_encodable_array. }
  split_and!; try done.
  - eapply Forall_impl; [exact Hfe|]. intros frag He Hp.
    by apply JSON_parse_dumps, json_encodable_plain_wf.
  - intros Hp. cbn [reconstruct]. rewrite merge_array_chunks_dumps, Hcat; [done|].
    apply json_wf_fragments. rewrite Hcat.
    unfold json_plain in Hp. cbn [json_plainb] in Hp. rewrite forallb_forall in Hp.
    rewrite Forall_forall in Henc |- *. intros x Hx.
    apply json_encodable_plain_wf; [by apply Henc|by apply Hp, list_elem_of_In].
Qed.

(** C3 (amended): for a positive budget and an array whose items can be
    measured ([item_size] returns), every fragment, serialized as the
    chunk writer serializes it, is at most the budget in UTF-8 bytes,
    except a fragment that holds a single item (its size is the item's
    size plus the two brackets) and the lone empty fragment of the empty
    array (two bytes). *)
Theorem split_array_byte_bound (items : list json) (target_bytes : Z) :
  0 < target_bytes ->
  Forall sizable items ->
  exists chunks,
    split_array_for_target_bytes items target_bytes = Ok chunks /\
    Forall (fun frag =>
      exists b, encode (dumps (JArr frag)) = Ok b /\
        (zlen b <= target_bytes \/
         (exists item, frag = [item] /\ zlen b = byte_size item + 2) \/
         (frag = [] /\ items = [] /\ zlen b = 2))) chunks.
Proof.
  intros Ht Hsize. pose proof (sizable_encodable items Hsize) as Henc.
  destruct (split_array_for_target_bytes_spec items target_bytes Ht Hsize)
    as (chunks & Hrun & Hcat & Hempty & Hne & Hwithin).
  exists chunks. split; [done|].
  assert (Forall (fun frag => Forall json_encodable frag) chunks) as Hfe.
  { rewrite <- Hcat in Henc. by apply Forall_concat_parts. }
  rewrite Forall_forall in Hwithin, Hfe |- *. intros frag Hfrag.
  destruct (dumps_array_encode frag (Hfe frag Hfrag)) as (b & Hb & Hlen).
  exists b. split; [done|].
  destruct (Hwithin frag Hfrag) as [Hle|Hshort]; [left; lia|].
  destruct frag as [|item [|item' frag]]; [| |simpl in Hshort; lia].
  - right. right. destruct items as [|i items].
    + by split_and!.
    + specialize (Hne ltac:(done)). rewrite Forall_forall in Hne.
      by specialize (Hne [] Hfrag).
  - right. left. exists item. split; [done|].
    rewrite Hlen. unfold frag_size. simpl. unfold zlen. simpl. lia.
Qed.

(** ** UTF-8: structure of encoded code points *)

(** Linear arithmetic with division and remainder by constants. *)
Ltac Zify.zify_post_hook ::= Z.to_euclidean_division_equations.

Lemma is_continuation_spec (b : Z) :
  0 <= b < 256 -> is_continuation b = (128 <=? b) && (b <? 192).
Proof.
  intros Hb.
  assert (forallb (fun b => Bool.eqb (is_continuation b) ((128 <=? b) && (b <? 192)))
            (seqZ 0 256) = true) as Hall by (vm_compute; reflexivity).
  rewrite forallb_forall in Hall.
  apply Bool.eqb_prop, Hall, list_elem_of_In, elem_of_seqZ. lia.
Qed.

Lemma is_continuation_tail (x : Z) :
  0 <= x < 64 -> is_continuation (0x80 + x) = true.
Proof. intros Hx. rewrite is_continuation_spec by lia. by decide_tests. Qed.

Lemma is_continuation_lead (b : Z) :
  0 <= b < 128 \/ 192 <= b < 256 -> is_continuation b = false.
Proof.
  intros Hb. rewrite is_continuation_spec by lia.
  destruct Hb; decide_tests; by rewrite ?andb_false_r.
Qed.

(** The shape of an encoded code point: a lead byte, then up to three
    continuation bytes. *)
Lemma utf8_encode_cp_shape (c : Z) (b : bytes) :
  utf8_encode_cp c = Some b ->
  exists lead conts,
    b = lead :: conts /\
    is_continuation lead = false /\
    forallb is_continuation conts = true /\
    (length conts <= 3)%nat.
Proof.
  unfold utf8_encode_cp. intros H.
  pose proof (Z.mod_pos_bound c 64 ltac:(lia)).
  pose proof (Z.mod_pos_bound (c / 64) 64 ltac:(lia)).
  pose proof (Z.mod_pos_bound (c / 4096) 64 ltac:(lia)).
  repeat case_match; simplify_eq;
    repeat match goal with
    | H : (_ <? _) = true |- _ => apply Z.ltb_lt in H
    | H : (_ <? _) = false |- _ => apply Z.ltb_ge in H
    end;
    eexists _, _; (split; [reflexivity|]);
    (split; [apply is_continuation_lead; lia|]);
    cbn [forallb length]; rewrite ?is_continuation_tail by lia; split; (done || lia).
Qed.

Lemma utf8_decode_encode_cp (c : Z) (b rest : bytes) :
  utf8_encode_cp c = Some b ->
  utf8_decode (b ++ rest) = cons c <$> utf8_decode rest.
Proof.
  unfold utf8_encode_cp. intros H.
  pose proof (Z.mod_pos_bound c 64 ltac:(lia)).
  pose proof (Z.mod_pos_bound (c / 64) 64 ltac:(lia)).
  pose proof (Z.mod_pos_bound (c / 4096) 64 ltac:(lia)).
  repeat case_match; simplify_eq;
    repeat match goal with
    | H : (_ <? _) = true |- _ => apply Z.ltb_lt in H
    | H : (_ <? _) = false |- _ => apply Z.ltb_ge in H
    end;
    cbn [app utf8_decode];
    rewrite ?is_continuation_tail by lia;
    try replace ((0xC0 + c / 64 - 0xC0) * 64 + (0x80 + c mod 64 - 0x80)) with c by lia;
    try replace ((0xE0 + c / 4096 - 0xE0) * 4096 + (0x80 + (c / 64) mod 64 - 0x80) * 64
                 + (0x80 + c mod 64 - 0x80)) with c by lia;
    try replace ((0xF0 + c / 262144 - 0xF0) * 262144 + (0x80 + (c / 4096) mod 64 - 0x80) * 4096
                 + (0x80 + (c / 64) mod 64 - 0x80) * 64 + (0x80 + c mod 64 - 0x80))
      with c by lia;
    repeat match goal with
    | H : (_ && _) = false |- _ => rewrite H
    end;
    decide_tests; done.
Qed.

(** ** UTF-8: encoding and decoding whole texts *)

(** The encoding of a valid text, code point by code point. *)
Definition enc_all (s : text) : bytes :=
  flat_map (fun c => default [] (utf8_encode_cp c)) s.

Lemma enc_all_app (a b : text) : enc_all (a ++ b) = enc_all a ++ enc_all b.
Proof. apply flat_map_app. Qed.

Lemma utf8_encode_enc_all (s : text) :
  valid_text s = true -> utf8_encode s = Some (enc_all s).
Proof.
  unfold valid_text. induction s as [|c s IH]; [done|].
  cbn [forallb utf8_encode enc_all flat_map]. intros [Hc Hs]%andb_true_iff.
  destruct (utf8_encode_cp_scalar c Hc) as [b ->]. by rewrite (IH Hs).
Qed.

Lemma utf8_decode_enc_all (s : text) :
  valid_text s = true -> utf8_decode (enc_all s) = Some s.
Proof.
  unfold valid_text. induction s as [|c s IH]; [done|].
  cbn [forallb enc_all flat_map]. intros [Hc Hs]%andb_true_iff.
  destruct (utf8_encode_cp_scalar c Hc) as [b Hb]. rewrite Hb. cbn [default].
  rewrite (utf8_decode_encode_cp c b _ Hb). fold (enc_all s). by rewrite (IH Hs).
Qed.

Lemma utf8_width_enc (c : Z) :
  is_scalar c = true ->
  exists lead conts,
    default [] (utf8_encode_cp c) = lead :: conts /\
    is_continuation lead = false /\
    forallb is_continuation conts = true /\
    utf8_width c = zlen (lead :: conts) /\
    1 <= utf8_width c <= 4.
Proof.
  intros Hc. destruct (utf8_encode_cp_scalar c Hc) as [b Hb].
  destruct (utf8_encode_cp_shape c b Hb) as (lead & conts & -> & Hl & Hcs & Hlen).
  exists lead, conts. unfold utf8_width. rewrite Hb. cbn [default].
  split_and!; try done; unfold zlen; cbn [length]; lia.
Qed.

Lemma zlen_enc_all_cons (c : Z) (s : text) :
  zlen (enc_all (c :: s)) = utf8_width c + zlen (enc_all s).
Proof.
  unfold enc_all at 1. cbn [flat_map]. fold (enc_all s). rewrite zlen_app. f_equal.
  unfold utf8_width. by destruct (utf8_encode_cp c).
Qed.

(** ** The longest prefix that fits the budget *)

Fixpoint take_fit (budget : Z) (s : text) : text * text :=
  match s with
  | [] => ([], [])
  | c :: s' =>
      if utf8_width c <=? budget then
        let '(p, r) := take_fit (budget - utf8_width c) s' in (c :: p, r)
      else ([], s)
  end.

Lemma take_fit_spec (s : text) :
  forall budget p r,
    take_fit budget s = (p, r) ->
    s = p ++ r /\
    (p <> [] -> zlen (enc_all p) <= budget) /\
    match r with
    | [] => True
    | c :: _ => budget < zlen (enc_all p) + utf8_width c
    end.
Proof.
  induction s as [|c s IH]; intros budget p r H; cbn [take_fit] in H.
  - by simplify_eq.
  - destruct (utf8_width c <=? budget) eqn:E.
    + apply Z.leb_le in E.
      destruct (take_fit (budget - utf8_width c) s) as [p' r'] eqn:E'.
      simplify_eq. destruct (IH _ _ _ E') as (-> & Hp & Hr).
      split_and!; [done| |].
      * intros _. rewrite zlen_enc_all_cons.
        destruct p' as [|c' p']; [cbn; unfold zlen; cbn; lia|].
        specialize (Hp ltac:(done)). lia.
      * destruct r as [|c' r]; [done|]. rewrite zlen_enc_all_cons.
        destruct p' as [|c'' p'].
        -- cbn in Hr |- *. unfold zlen in *. cbn in *. lia.
        -- lia.
    + apply Z.leb_gt in E. simplify_eq. split_and!; [done|done|].
      cbn. unfold zlen. cbn. lia.
Qed.

(** ** Indexing and slicing a payload *)

Lemma py_index_lookup (l : bytes) (i x : Z) :
  0 <= i -> l !! Z.to_nat i = Some x -> py_index l i = Ok x.
Proof.
  intros Hi Hx. unfold py_index.
  assert (i < zlen l) by (apply lookup_lt_Some in Hx; unfold zlen; lia).
  decide_tests. cbn [andb]. by rewrite Hx.
Qed.

Lemma slice_middle {A} (pre mid post : list A) (i j : Z) :
  i = zlen pre -> j = zlen pre + zlen mid ->
  slice (pre ++ mid ++ post) i j = mid.
Proof.
  intros -> ->. unfold slice, zlen.
  rewrite !length_app, !slice_bound_in_range by lia.
  rewrite Nat2Z.id. rewrite drop_app_length.
  replace (Z.to_nat (Z.of_nat (length pre) + Z.of_nat (length mid)) - length pre)%nat
    with (length mid) by lia.
  apply take_app_length.
Qed.

(** Backing off from inside a code point stops at its lead byte. *)
Lemma back_off_to_lead (pre conts post : bytes) (lead : Z) (j : nat) :
  is_continuation lead = false ->
  forallb is_continuation conts = true ->
  (j <= length conts)%nat ->
  forall fuel, (j < fuel)%nat ->
    back_off fuel (pre ++ (lead :: conts) ++ post)
      (zlen (pre ++ (lead :: conts) ++ post)) (zlen pre + Z.of_nat j)
    = Ok (zlen pre).
Proof.
  intros Hlead Hconts. induction j as [|j IH]; intros Hj fuel Hfuel;
    (destruct fuel as [|fuel]; [lia|]); cbn [back_off].
  - rewrite Z.add_0_r.
    assert (zlen pre < zlen (pre ++ (lead :: conts) ++ post)) as Hlt
      by (rewrite !zlen_app; unfold zlen; cbn [length]; lia).
    apply Z.ltb_lt in Hlt. rewrite Hlt.
    rewrite (py_index_lookup _ _ lead); [|apply zlen_nonneg|].
    + cbn. by rewrite Hlead.
    + unfold zlen. rewrite Nat2Z.id. by rewrite lookup_app_r, Nat.sub_diag.
  - assert (exists b, conts !! j = Some b) as [b Hb] by (apply lookup_lt_is_Some_2; lia).
    assert (is_continuation b = true) as Hcb.
    { rewrite forallb_forall in Hconts. apply Hconts, list_elem_of_In.
      by eapply list_elem_of_lookup_2. }
    assert (zlen pre + Z.of_nat (S j) < zlen (pre ++ (lead :: conts) ++ post)) as Hlt
      by (rewrite !zlen_app; unfold zlen; cbn [length]; lia).
    apply Z.ltb_lt in Hlt. rewrite Hlt.
    rewrite (py_index_lookup _ _ b); [|unfold zlen; lia|].
    + cbn. rewrite Hcb.
      replace (zlen pre + Z.of_nat (S j) - 1) with (zlen pre + Z.of_nat j) by lia.
      apply IH; lia.
    + unfold zlen. replace (Z.to_nat (Z.of_nat (length pre) + Z.of_nat (S j)))
        with (length pre + S j)%nat by lia.
      rewrite lookup_app_r by lia.
      replace (length pre + S j - length pre)%nat with (S j) by lia.
      change (((lead :: conts) ++ post) !! S j) with ((conts ++ post) !! j).
      by rewrite lookup_app_l by lia.
Qed.

(** ** The text splitter *)

Lemma back_off_at_end (fuel : nat) (payload : bytes) (total : Z) :
  fuel <> 0%nat -> back_off fuel payload total total = Ok total.
Proof.
  destruct fuel as [|fuel]; [done|]. intros _. cbn [back_off].
  by rewrite Z.ltb_irrefl.
Qed.

Lemma take_fit_nonempty (budget c : Z) (s p r : text) :
  utf8_width c <= budget -> take_fit budget (c :: s) = (p, r) -> p <> [].
Proof.
  intros Hc. cbn [take_fit]. apply Z.leb_le in Hc. rewrite Hc.
  destruct (take_fit _ s). by intros [= <- <-].
Qed.

Lemma enc_all_nonempty (c : Z) (s : text) :
  valid_text (c :: s) = true -> 1 <= zlen (enc_all (c :: s)).
Proof.
  unfold valid_text. cbn [forallb]. intros [Hc _]%andb_true_iff.
  rewrite zlen_enc_all_cons.
  destruct (utf8_width_enc c Hc) as (? & ? & _ & _ & _ & _ & ?).
  pose proof (zlen_nonneg (enc_all s)). lia.
Qed.

Lemma split_utf8_loop_spec (max_bytes : Z) :
  0 < max_bytes ->
  forall fuel s1 s2 chunks,
    valid_text s2 = true ->
    code_points_fit max_bytes s2 ->
    (length (enc_all s2) < fuel)%nat ->
    exists pieces,
      split_utf8_loop fuel (enc_all s1 ++ enc_all s2) (zlen (enc_all s1 ++ enc_all s2))
        max_bytes (zlen (enc_all s1)) chunks = Ok (chunks ++ pieces) /\
      concat pieces = s2 /\
      Forall (fun p => p <> [] /\ zlen (enc_all p) <= max_bytes) pieces.
Proof.
  intros HB. induction fuel as [|fuel IH]; intros s1 s2 chunks Hv Hfit Hfuel; [lia|].
  cbn [split_utf8_loop]. destruct s2 as [|c s2'].
  - exists []. cbn [enc_all flat_map]. rewrite !app_nil_r, Z.ltb_irrefl. done.
  - set (s2 := c :: s2') in *.
    destruct (take_fit max_bytes s2) as [p r] eqn:Etf.
    destruct (take_fit_spec s2 _ _ _ Etf) as (Hs2 & Hp & Hr).
    assert (p <> []) as Hpne.
    { eapply take_fit_nonempty; [|exact Etf]. by inversion Hfit. }
    specialize (Hp Hpne).
    assert (valid_text p = true /\ valid_text r = true) as [Hvp Hvr].
    { rewrite Hs2, valid_text_app in Hv. by apply andb_true_iff in Hv. }
    assert (1 <= zlen (enc_all p)) as Hp1.
    { destruct p as [|c0 p]; [done|]. by apply enc_all_nonempty. }
    rewrite Hs2, enc_all_app.
    set (idx := zlen (enc_all s1)).
    set (payload := enc_all s1 ++ enc_all p ++ enc_all r).
    assert (zlen payload = idx + zlen (enc_all p) + zlen (enc_all r)) as Htotal.
    { unfold payload, idx. rewrite !zlen_app. lia. }
    pose proof (zlen_nonneg (enc_all r)) as Hr0.
    pose proof (zlen_nonneg (enc_all s1)) as Hs0. fold idx in Hs0.
    assert ((idx <? zlen payload) = true) as -> by (apply Z.ltb_lt; lia).
    assert (back_off (Z.to_nat (Z.min (idx + max_bytes) (zlen payload) + zlen payload + 2))
              payload (zlen payload) (Z.min (idx + max_bytes) (zlen payload))
            = Ok (idx + zlen (enc_all p))) as ->.
    { destruct r as [|c' r'].
      - cbn [enc_all flat_map] in Htotal. change (zlen []) with 0 in Htotal.
        rewrite Z.min_r by lia.
        rewrite back_off_at_end by lia. f_equal. lia.
      - apply andb_true_iff in Hvr as [Hc' Hvr'].
        destruct (utf8_width_enc c' Hc') as (lead & conts & Henc & Hlead & Hconts & Hw & Hw4).
        rewrite zlen_enc_all_cons in Htotal.
        pose proof (zlen_nonneg (enc_all r')) as Hr0'.
        rewrite Z.min_l by lia.
        assert (payload = (enc_all s1 ++ enc_all p) ++ (lead :: conts) ++ enc_all r') as Hpay.
        { unfold payload. rewrite <- app_assoc. do 2 f_equal.
          unfold enc_all at 1. cbn [flat_map]. by rewrite Henc. }
        rewrite Hpay.
        replace (idx + max_bytes)
          with (zlen (enc_all s1 ++ enc_all p)
                + Z.of_nat (Z.to_nat (max_bytes - zlen (enc_all p))))
          by (rewrite zlen_app; unfold idx; lia).
        rewrite back_off_to_lead; try done.
        + f_equal. rewrite zlen_app. done.
        + unfold zlen in Hw. cbn [length] in Hw. lia.
        + rewrite <- Hpay. rewrite zlen_app. fold idx. lia. }
    cbn [mbind result_bind].
    assert ((idx + zlen (enc_all p) <=? idx) = false) as -> by (apply Z.leb_gt; lia).
    assert (slice payload idx (idx + zlen (enc_all p)) = enc_all p) as ->
      by (by apply slice_middle).
    unfold decode. rewrite utf8_decode_enc_all by done.
    cbn [mbind result_bind].
    destruct (IH (s1 ++ p) r (chunks ++ [p])) as (pieces & Hrun & Hcat & Hall).
    { done. }
    { unfold code_points_fit in *. rewrite Hs2 in Hfit. by apply Forall_app in Hfit as [_ ?]. }
    { rewrite Hs2, enc_all_app, length_app in Hfuel. unfold zlen in Hp1. lia. }
    exists (p :: pieces).
    rewrite enc_all_app, <- app_assoc in Hrun. fold payload in Hrun.
    rewrite zlen_app in Hrun. fold idx in Hrun.
    rewrite Hrun, <- app_assoc. split_and!; [done| |].
    + cbn [concat]. by rewrite Hcat.
    + by constructor.
Qed.

Lemma split_utf8_text_by_bytes_spec (s : text) (max_bytes : Z) :
  0 < max_bytes ->
  valid_text s = true ->
  code_points_fit max_bytes s ->
  exists parts,
    split_utf8_text_by_bytes s max_bytes = Ok parts /\
    concat parts = s /\
    Forall (fun p => zlen (enc_all p) <= max_bytes) parts.
Proof.
  intros HB Hv Hfit. unfold split_utf8_text_by_bytes, encode.
  assert ((max_bytes <=? 0) = false) as -> by (apply Z.leb_gt; lia).
  rewrite utf8_encode_enc_all by done. cbn [mbind result_bind].
  destruct (zlen (enc_all s) =? 0) eqn:E.
  - apply Z.eqb_eq in E. exists [[]].
    destruct s as [|c s]; [|pose proof (enc_all_nonempty c s Hv); lia].
    split_and!; try done. apply Forall_singleton. cbn. unfold zlen. cbn. lia.
  - destruct (split_utf8_loop_spec max_bytes HB (S (Z.to_nat (zlen (enc_all s)))) [] s [])
      as (pieces & Hrun & Hcat & Hall); try done.
    { unfold zlen. lia. }
    cbn [enc_all flat_map app] in Hrun. change (zlen []) with 0 in Hrun.
    exists pieces. split_and!; try done.
    eapply Forall_impl; [exact Hall|]. by intros p [_ ?].
Qed.

Lemma at_boundary_split (a b : text) :
  valid_text (a ++ b) = true ->
  at_boundary (enc_all (a ++ b)) (zlen (enc_all a)).
Proof.
  rewrite valid_text_app. intros [Ha Hb]%andb_true_iff.
  rewrite enc_all_app. destruct b as [|c b].
  - left. cbn [enc_all flat_map]. by rewrite app_nil_r.
  - right. apply andb_true_iff in Hb as [Hc _].
    destruct (utf8_width_enc c Hc) as (lead & conts & Henc & Hlead & _).
    exists lead. split; [|done].
    assert (enc_all (c :: b) = (lead :: conts) ++ enc_all b) as ->
      by (unfold enc_all; cbn [flat_map]; by rewrite Henc).
    unfold zlen. rewrite Nat2Z.id. by rewrite lookup_app_r, Nat.sub_diag.
Qed.

(** Four bytes are enough for any code point. *)
Lemma code_points_fit_4 (max_bytes : Z) (s : text) :
  4 <= max_bytes -> code_points_fit max_bytes s.
Proof.
  intros HB. apply Forall_forall. intros c _. unfold utf8_width.
  destruct (utf8_encode_cp c) as [b|] eqn:E; [|lia].
  destruct (utf8_encode_cp_shape c b E) as (lead & conts & -> & _ & _ & Hlen).
  unfold zlen. cbn [length]. lia.
Qed.

(** C2 (amended): for a value whose compact serialization UTF-8 can
    encode (it holds no lone surrogate) and a positive budget that every
    code point of the serialization fits (always so for a budget of 4
    bytes or more), the pieces joined in order are the serialization and
    no piece ends inside a multi-byte code point; and when the value is
    plain (no [NaN], no infinity; dict keys distinct, as in any Python
    [dict]) the joined text is valid JSON and parsing it gives the value
    back. *)
Theorem split_utf8_round_trip (v : json) (max_bytes : Z) :
  json_encodable v ->
  0 < max_bytes ->
  code_points_fit max_bytes (dumps v) ->
  exists parts payload,
    split_utf8_text_by_bytes (dumps v) max_bytes = Ok parts /\
    encode (dumps v) = Ok payload /\
    concat parts = dumps v /\
    (json_plain v -> reconstruct text_concat parts = Some v) /\
    forall k, exists b,
      encode (concat (take k parts)) = Ok b /\ at_boundary payload (zlen b).
Proof.
  intros Henc HB Hfit.
  pose proof (json_encodable_valid v Henc) as Hv.
  destruct (split_utf8_text_by_bytes_spec (dumps v) max_bytes HB Hv Hfit)
    as (parts & Hrun & Hcat & _).
  exists parts, (enc_all (dumps v)). split_and!; try done.
  - unfold encode. by rewrite utf8_encode_enc_all.
  - intros Hp. cbn [reconstruct]. rewrite Hcat.
    by rewrite JSON_parse_dumps by by apply json_encodable_plain_wf.
  - intros k. exists (enc_all (concat (take k parts))).
    assert (dumps v = concat (take k parts) ++ concat (drop k parts)) as Hsplit.
    { by rewrite <- concat_app, take_drop. }
    assert (valid_text (concat (take k parts)) = true) as Hvk.
    { rewrite Hsplit, valid_text_app in Hv. by apply andb_true_iff in Hv as [? _]. }
    split.
    + unfold encode. by rewrite utf8_encode_enc_all.
    + rewrite Hsplit at 1. apply at_boundary_split. by rewrite <- Hsplit.
Qed.

(** ** The scanner's matchers consume text *)

Lemma strip_prefix_length (p s r : text) :
  strip_prefix p s = Some r -> zlen s = zlen p + zlen r.
Proof.
  revert s. induction p as [|a p IH]; intros s H; cbn [strip_prefix] in H.
  - simplify_eq. unfold zlen. cbn. lia.
  - destruct s as [|b s]; [done|]. destruct (a =? b); [|done].
    apply IH in H. unfold zlen in *. cbn [length]. lia.
Qed.

Lemma skip_spaces_length (s : text) : zlen (skip_spaces s) <= zlen s.
Proof.
  induction s as [|c s IH]; cbn [skip_spaces]; [done|].
  destruct (py_isspace c); [|done]. unfold zlen in *. cbn [length]. lia.
Qed.

Lemma span_while_length (p : Z -> bool) (s a b : text) :
  span_while p s = (a, b) -> zlen s = zlen a + zlen b.
Proof.
  revert a b. induction s as [|c s IH]; intros a b H; cbn [span_while] in H.
  - simplify_eq. done.
  - destruct (p c).
    + destruct (span_while p s) as [a' b'] eqn:E. simplify_eq.
      specialize (IH _ _ eq_refl). unfold zlen in *. cbn [length]. lia.
    + simplify_eq. unfold zlen. cbn. lia.
Qed.

Section scanner_facts.
Context (uw : Z -> bool).

Lemma identifier_at_length (s name rest : text) :
  identifier_at uw s = Some (name, rest) -> zlen rest < zlen s.
Proof.
  unfold identifier_at. destruct s as [|c s]; [done|].
  case_match; [|done].
  destruct (span_while _ s) as [a b] eqn:E. intros [= <- <-].
  apply span_while_length in E. pose proof (zlen_nonneg a).
  unfold zlen in *. cbn [length]. lia.
Qed.

Lemma name_equals_at_length (s name rest : text) :
  name_equals_at uw s = Some (name, rest) -> zlen rest < zlen s.
Proof.
  unfold name_equals_at. destruct (identifier_at uw s) as [[n r1]|] eqn:E; [|done].
  apply identifier_at_length in E. cbn.
  pose proof (skip_spaces_length r1) as H1.
  destruct (skip_spaces r1) as [|e r2]; [done|].
  destruct (e =? 61); [|done]. intros [= <- <-].
  pose proof (skip_spaces_length r2). unfold zlen in *. cbn [length] in *. lia.
Qed.

Lemma declaration_at_length (kw s name rest : text) :
  declaration_at uw kw s = Some (name, rest) -> zlen rest < zlen s.
Proof.
  unfold declaration_at. destruct (strip_prefix kw s) as [r1|] eqn:E; [|done].
  apply strip_prefix_length in E. cbn.
  destruct (head_is py_isspace r1); [|done].
  intros H%name_equals_at_length.
  pose proof (skip_spaces_length r1). pose proof (zlen_nonneg kw). lia.
Qed.

Lemma assignment_at_length (s rest : text) kind dname wname :
  assignment_at uw s = Some (kind, dname, wname, rest) -> zlen rest < zlen s.
Proof.
  unfold assignment_at.
  destruct (declaration_at uw (T "const") s) as [[n r]|] eqn:E1.
  { intros [= <- <- <- <-]. by eapply declaration_at_length. }
  destruct (declaration_at uw (T "let") s) as [[n r]|] eqn:E2.
  { intros [= <- <- <- <-]. by eapply declaration_at_length. }
  destruct (declaration_at uw (T "var") s) as [[n r]|] eqn:E3.
  { intros [= <- <- <- <-]. by eapply declaration_at_length. }
  destruct (strip_prefix (T "window.") s) as [r1|] eqn:E4; [|done].
  apply strip_prefix_length in E4. cbn.
  destruct (name_equals_at uw r1) as [[n r]|] eqn:E5; [|done].
  intros [= <- <- <- <-]. apply name_equals_at_length in E5.
  pose proof (zlen_nonneg (T "window.")). lia.
Qed.

Lemma search_assignment_from_bounds (s : text) (pos : Z) (m : AssignMatch) :
  search_assignment_from uw s pos = Some m ->
  pos <= am_start m /\ am_start m < am_end m /\ am_end m <= pos + zlen s.
Proof.
  revert pos. induction s as [|c s IH]; intros pos; cbn [search_assignment_from].
  - destruct (assignment_at uw []) as [[[[k d] w] r]|] eqn:E; [|done].
    apply assignment_at_length in E. pose proof (zlen_nonneg r).
    change (zlen []) with 0 in E. lia.
  - destruct (assignment_at uw (c :: s)) as [[[[k d] w] r]|] eqn:E.
    + apply assignment_at_length in E. pose proof (zlen_nonneg r).
      intros [= <-]. cbn. lia.
    + intros H%IH. unfold zlen in *. cbn [length]. lia.
Qed.

(** A match lies within the body, at or after the position the search
    started from, and is not empty. *)
Lemma search_assignment_bounds (body : text) (p : Z) (m : AssignMatch) :
  0 <= p ->
  search_assignment uw body p = Some m ->
  p <= am_start m /\ am_start m < am_end m /\ am_end m <= zlen body.
Proof.
  intros Hp. unfold search_assignment. case_match eqn:E; [done|].
  apply Z.ltb_ge in E. intros H%search_assignment_from_bounds.
  unfold zlen in *. rewrite length_drop in H. lia.
Qed.

End scanner_facts.

(** ** The decoder consumes text *)

Lemma skip_json_ws_length (s : text) : zlen (skip_json_ws s) <= zlen s.
Proof.
  induction s as [|c s IH]; cbn [skip_json_ws]; [done|].
  destruct (json_ws c); [|done]. unfold zlen in *. cbn [length]. lia.
Qed.

(** Finishes a case of the lemmas below: names the results of the calls
    the scanner made and applies the induction hypothesis to them. *)
Ltac scanner_case IH :=
  try done;
  repeat match goal with
  | H : _ ≫= _ = Some _ |- _ =>
      let x := fresh "x" in let Hx := fresh "Hx" in
      apply bind_Some in H as (x & Hx & H)
  | H : (let '(_, _) := ?p in _) = Some _ |- _ => destruct p
  | H : Some _ = Some _ |- _ => injection H as H; subst
  | H : (_, _) = (_, _) |- _ => injection H as H; subst
  end;
  subst;
  repeat match goal with
  | H : _ = Some _ |- _ => apply IH in H; [|cbn [length] in *; lia]
  end;
  unfold zlen in *; cbn [length] in *; try lia.

Lemma scanstring_length (n : nat) :
  forall s str r, (length s <= n)%nat ->
    scanstring s = Some (str, r) -> zlen r < zlen s.
Proof.
  induction n as [|n IH]; intros s str r Hlen H.
  { destruct s; [done|]. cbn in Hlen. lia. }
  destruct s as [|c s]; [done|]. cbn [scanstring] in H.
  destruct (c =? 34); [scanner_case IH|].
  destruct (c =? 92); [|destruct (c <? 32); scanner_case IH].
  destruct s as [|e r1]; [done|].
  destruct (e =? 117); [|scanner_case IH].
  destruct r1 as [|h1 [|h2 [|h3 [|h4 r2]]]]; try done.
  destruct (hex4 h1 h2 h3 h4) as [u|]; [|done]. cbn [mbind option_bind] in H.
  destruct ((55296 <=? u) && (u <=? 56319)); [|scanner_case IH].
  destruct r2 as [|b [|x [|l1 [|l2 [|l3 [|l4 r3]]]]]]; try (scanner_case IH).
  destruct ((b =? 92) && (x =? 117)); [|scanner_case IH].
  destruct (hex4 l1 l2 l3 l4) as [u2|]; [|done]. cbn [mbind option_bind] in H.
  destruct ((56320 <=? u2) && (u2 <=? 57343)); scanner_case IH.
Qed.

Lemma scan_digits_length (s : text) :
  forall acc n r, scan_digits s acc = (n, r) -> zlen r <= zlen s.
Proof.
  induction s as [|c s IH]; intros acc n r H; cbn [scan_digits] in H.
  - by simplify_eq.
  - destruct (is_digit c).
    + apply IH in H. unfold zlen in *. cbn [length]. lia.
    + by simplify_eq.
Qed.

Lemma scan_unsigned_length (s : text) (n : Z) (r : text) :
  scan_unsigned s = Some (n, r) -> zlen r < zlen s.
Proof.
  intros H. pose proof H as (p & -> & _)%scan_unsigned_consumed.
  destruct p as [|c p]; [|rewrite zlen_app; unfold zlen; cbn [length]; lia].
  cbn [app] in H. destruct r as [|c r]; [done|]. cbn [scan_unsigned] in H.
  destruct (c =? 48); [injection H as _ H; apply (f_equal length) in H; cbn in H; lia|].
  destruct (is_digit c); [|done]. injection H as H.
  apply scan_digits_length in H. unfold zlen in *. cbn [length] in *. lia.
Qed.

Lemma skip_fraction_length (r : text) : zlen (skip_fraction r) <= zlen r.
Proof.
  destruct (skip_fraction_consumed r) as (p & Hp & _).
  rewrite Hp at 2. rewrite zlen_app. pose proof (zlen_nonneg p). lia.
Qed.

Lemma skip_exponent_length (r : text) : zlen (skip_exponent r) <= zlen r.
Proof.
  destruct (skip_exponent_consumed r) as (p & Hp & _).
  rewrite Hp at 2. rewrite zlen_app. pose proof (zlen_nonneg p). lia.
Qed.

Lemma scan_literal_length (s : text) (v : json) (r : text) :
  scan_literal s = Some (v, r) -> zlen r < zlen s.
Proof.
  unfold scan_literal. intros H.
  repeat (case_match; simplify_eq);
    match goal with
    | H : strip_prefix _ _ = Some _ |- _ => apply strip_prefix_length in H
    end;
    unfold zlen in *; cbn [length T map list_ascii_of_string] in *; lia.
Qed.

Lemma scan_constant_length (s : text) (v : json) (r : text) :
  scan_constant s = Some (v, r) -> zlen r < zlen s.
Proof.
  unfold scan_constant. intros H.
  repeat (case_match; simplify_eq);
    match goal with
    | H : strip_prefix _ _ = Some _ |- _ => apply strip_prefix_length in H
    end;
    unfold zlen in *; cbn [length T map list_ascii_of_string] in *; lia.
Qed.

(** The exceptions that leave the decoder. *)
Definition decoder_raises (e : exn) : Prop :=
  e = JSONDecodeError \/ e = RecursionError \/ e = ValueError.

(** What a scan of [s] comes to: a value and a shorter text, or one of
    the decoder's exceptions. *)
Definition scanned {A} (s : text) (r : result (A * text)) : Prop :=
  match r with
  | Ok (_, rest) => zlen rest < zlen s
  | Raise e => decoder_raises e
  end.

Lemma scan_number_scanned (max_digits : Z) (s : text) (found : result (json * text)) :
  scan_number max_digits s = Some found -> scanned s found.
Proof.
  unfold scan_number.
  set (s1 := if head_is (Z.eqb 45) s then tail s else s).
  assert (zlen s1 <= zlen s) as Hs1.
  { unfold s1. destruct (head_is (Z.eqb 45) s); [|lia].
    destruct s; unfold zlen; cbn [tail length]; lia. }
  destruct (scan_unsigned s1) as [[n r0]|] eqn:Eu; [|done].
  apply scan_unsigned_length in Eu.
  destruct (float_follows r0).
  - intros [= <-]. cbn.
    pose proof (skip_fraction_length r0).
    pose proof (skip_exponent_length (skip_fraction r0)). lia.
  - destruct ((0 <? max_digits) && (max_digits <? zlen s1 - zlen r0)); intros [= <-]; cbn.
    + unfold decoder_raises. auto.
    + lia.
Qed.

Lemma scan_atom_scanned (d : decoder) (s : text) : scanned s (scan_atom d s).
Proof.
  unfold scan_atom.
  destruct (scan_literal s) as [[v r]|] eqn:El.
  { by apply scan_literal_length in El. }
  destruct (scan_number (max_int_digits d) s) as [found|] eqn:En.
  { by apply scan_number_scanned in En. }
  destruct (if reads_constants d then scan_constant s else None) as [[v r]|] eqn:Ec.
  - destruct (reads_constants d); [|done]. by apply scan_constant_length in Ec.
  - cbn. unfold decoder_raises. auto.
Qed.

Lemma scan_string_scanned (s : text) : scanned s (scan_string s).
Proof.
  unfold scan_string. destruct (scanstring s) as [[str r]|] eqn:E; cbn.
  - by apply (scanstring_length _ _ _ _ (le_n _)) in E.
  - unfold decoder_raises. auto.
Qed.

Lemma enter_raises (depth : option nat) (e : exn) :
  enter depth = Raise e -> e = RecursionError.
Proof. destruct depth as [[|n]|]; cbn; congruence. Qed.

(** With a fuel above twice the length of the text, the scanner consumes
    text or raises one of the decoder's exceptions: the fuel is not used
    up. *)
Lemma scan_once_scanned (d : decoder) (fuel : nat) :
  (forall depth s, (2 * length s < fuel)%nat -> scanned s (scan_once d fuel depth s)) /\
  (forall depth s, (2 * length s + 1 < fuel)%nat ->
     scanned s (scan_elements d fuel depth s)) /\
  (forall depth s, (2 * length s + 1 < fuel)%nat ->
     scanned s (scan_members d fuel depth s)).
Proof.
  assert (decoder_raises JSONDecodeError) as Hjson by (unfold decoder_raises; auto).
  induction fuel as [|fuel (IHv & IHe & IHm)]; [split_and!; intros; lia|]. split_and!.
  - intros depth s Hf. cbn [scan_once]. destruct s as [|c s]; [done|].
    cbn [length] in Hf.
    destruct (c =? 34).
    { pose proof (scan_string_scanned s) as H.
      destruct (scan_string s) as [[str r]|e]; cbn in *; [|done].
      unfold zlen in *. cbn [length]. lia. }
    destruct (c =? 123).
    { destruct (enter depth) as [inner|e] eqn:Ee; cbn [mbind result_bind].
      2:{ apply enter_raises in Ee as ->. cbn. unfold decoder_raises. auto. }
      pose proof (skip_json_ws_length s) as Hws.
      destruct (skip_json_ws s) as [|c' r']; [done|].
      destruct (c' =? 125).
      { cbn. unfold zlen in *. cbn [length] in *. lia. }
      destruct (c' =? 34); [|done].
      specialize (IHm inner r'). unfold zlen in *. cbn [length] in *.
      destruct (scan_members d fuel inner r') as [[ps r'']|e]; cbn in *.
      - specialize (IHm ltac:(lia)). unfold zlen in *. cbn [length]. lia.
      - apply IHm. lia. }
    destruct (c =? 91).
    { destruct (enter depth) as [inner|e] eqn:Ee; cbn [mbind result_bind].
      2:{ apply enter_raises in Ee as ->. cbn. unfold decoder_raises. auto. }
      pose proof (skip_json_ws_length s) as Hws.
      destruct (head_is (Z.eqb 93) (skip_json_ws s)).
      - cbn. destruct (skip_json_ws s); unfold zlen in *; cbn [length tail] in *; lia.
      - specialize (IHe inner (skip_json_ws s)). unfold zlen in *.
        destruct (scan_elements d fuel inner (skip_json_ws s)) as [[vs r'']|e]; cbn in *.
        + specialize (IHe ltac:(lia)). unfold zlen in *. cbn [length]. lia.
        + apply IHe. lia. }
    apply scan_atom_scanned.
  - intros depth s Hf. cbn [scan_elements].
    specialize (IHv depth s ltac:(lia)).
    destruct (scan_once d fuel depth s) as [[v r1]|e]; cbn [mbind result_bind]; [|done].
    cbn in IHv.
    pose proof (skip_json_ws_length r1) as Hws.
    destruct (skip_json_ws r1) as [|c r2]; [done|].
    destruct (c =? 93).
    { cbn. unfold zlen in *. cbn [length] in *. lia. }
    destruct (c =? 44); [|done].
    pose proof (skip_json_ws_length r2) as Hws2.
    specialize (IHe depth (skip_json_ws r2)). unfold zlen in *. cbn [length] in *.
    destruct (scan_elements d fuel depth (skip_json_ws r2)) as [[vs r3]|e]; cbn in *.
    + specialize (IHe ltac:(lia)). unfold zlen in *. lia.
    + apply IHe. lia.
  - intros depth s Hf. cbn [scan_members].
    pose proof (scan_string_scanned s) as Hk.
    destruct (scan_string s) as [[key r1]|e]; cbn [mbind result_bind]; [|done].
    cbn in Hk.
    pose proof (skip_json_ws_length r1) as Hws1.
    destruct (skip_json_ws r1) as [|c r2]; [done|].
    destruct (c =? 58); [|done].
    pose proof (skip_json_ws_length r2) as Hws2.
    specialize (IHv depth (skip_json_ws r2)). unfold zlen in *. cbn [length] in *.
    destruct (scan_once d fuel depth (skip_json_ws r2)) as [[v r3]|e]; cbn [mbind result_bind].
    2:{ apply IHv. lia. }
    specialize (IHv ltac:(lia)). cbn in IHv. unfold zlen in *.
    pose proof (skip_json_ws_length r3) as Hws3.
    destruct (skip_json_ws r3) as [|c' r4]; [done|].
    destruct (c' =? 125).
    { cbn. unfold zlen in *. cbn [length] in *. lia. }
    destruct (c' =? 44); [|done].
    pose proof (skip_json_ws_length r4) as Hws4.
    destruct (skip_json_ws r4) as [|q r5]; [done|].
    destruct (q =? 34); [|done].
    specialize (IHm depth r5). unfold zlen in *. cbn [length] in *.
    destruct (scan_members d fuel depth r5) as [[ps r6]|e]; cbn in *.
    + specialize (IHm ltac:(lia)). unfold zlen in *. lia.
    + apply IHm. lia.
Qed.

(** [raw_decode] returns a value and an end offset inside the text it
    was given, or raises one of the decoder's exceptions. *)
Lemma raw_decode_outcome (s : text) :
  match raw_decode s with
  | Ok (_, e) => 0 < e <= zlen s
  | Raise e => decoder_raises e
  end.
Proof.
  unfold raw_decode.
  pose proof (proj1 (scan_once_scanned python_decoder (S (2 * length s)))
                (Some raw_decode_depth) s ltac:(lia)) as H.
  destruct (scan_once _ _ _ s) as [[v r]|e]; cbn in *; [|done].
  pose proof (zlen_nonneg r). lia.
Qed.

Lemma raw_decode_bounds (s : text) (v : json) (e : Z) :
  raw_decode s = Ok (v, e) -> 0 < e <= zlen s.
Proof. intros H. pose proof (raw_decode_outcome s) as Ho. by rewrite H in Ho. Qed.

Lemma decode_document_outcome (d : decoder) (depth : option nat) (s : text) (e : exn) :
  decode_document d depth s = Raise e -> decoder_raises e.
Proof.
  unfold decode_document.
  destruct (head_is (Z.eqb 65279) s); [intros [= <-]; unfold decoder_raises; auto|].
  pose proof (skip_json_ws_length s) as Hws.
  pose proof (proj1 (scan_once_scanned d (S (2 * length s))) depth (skip_json_ws s)) as H.
  unfold zlen in *.
  destruct (scan_once _ _ _ (skip_json_ws s)) as [[v r]|e']; cbn in *.
  - destruct (skip_json_ws r); [done|]. intros [= <-]. unfold decoder_raises. auto.
  - intros [= <-]. apply H. lia.
Qed.

(** ** The assignment scan (C4) *)

Lemma skip_whitespace_ge (s : text) (pos : Z) :
  0 <= pos -> pos <= skip_whitespace s pos.
Proof.
  intros Hp. unfold skip_whitespace. case_match eqn:E; [|lia].
  apply Z.ltb_lt in E.
  pose proof (skip_spaces_length (drop (Z.to_nat pos) s)) as H.
  unfold zlen in *. rewrite length_drop in H. lia.
Qed.

Lemma encoded_len_cases (s : text) :
  (exists n, encoded_len s = Ok n) \/ encoded_len s = Raise UnicodeEncodeError.
Proof.
  unfold encoded_len, encode. destruct (utf8_encode s); cbn; eauto.
Qed.

Lemma encoded_len_valid (s : text) :
  valid_text s = true -> exists n, encoded_len s = Ok n.
Proof.
  intros H. unfold encoded_len, encode. rewrite utf8_encode_enc_all by done.
  cbn. eauto.
Qed.

Lemma valid_text_slice (s : text) (i j : Z) :
  valid_text s = true -> valid_text (slice s i j) = true.
Proof.
  unfold valid_text, slice. rewrite !forallb_forall. intros H c Hc. apply H.
  apply list_elem_of_In in Hc. apply list_elem_of_In.
  by eapply subseteq_drop, subseteq_take.
Qed.

Section assignment_scan.
Context (uw : Z -> bool) (body : text) (base : Z).

(** The exceptions that leave the scan: the UTF-8 length of a matched
    value cannot be taken (the body holds a lone surrogate), or the
    decoder ran into a limit of the interpreter. *)
Definition scan_raises (e : exn) : Prop :=
  (e = UnicodeEncodeError /\ valid_text body = false) \/
  e = RecursionError \/ e = ValueError.

(** A step ends the scan, moves [scan_pos] forward, or raises. *)
Lemma scan_step_progress (st : ScanState) :
  0 <= scan_pos st ->
  match scan_step uw body base st with
  | Ok (ScanDone _) => True
  | Ok (ScanContinue st') => scan_pos st < scan_pos st' /\ scan_pos st < zlen body
  | Raise e => scan_raises e
  end.
Proof.
  intros Hp. unfold scan_step.
  destruct (search_assignment uw body (scan_pos st)) as [m|] eqn:Em; [|done].
  destruct (search_assignment_bounds uw body _ m Hp Em) as (Hs & Hse & He).
  destruct (am_start m <? consumed_until st) eqn:Ec.
  { apply Z.ltb_lt in Ec. cbn. lia. }
  pose proof (skip_whitespace_ge body (am_end m) ltac:(lia)) as Hvs.
  destruct ((zlen body <=? skip_whitespace body (am_end m)) || negb (head_is _ _)).
  { cbn. lia. }
  pose proof (raw_decode_outcome (slice_from body (skip_whitespace body (am_end m)))) as Ho.
  destruct (raw_decode _) as [[v rel_end]|e] eqn:Ed.
  2:{ destruct Ho as [->|[->| ->]]; [cbn; lia| |]; unfold scan_raises; auto. }
  destruct Ho as [Hrel _].
  set (value_start := skip_whitespace body (am_end m)) in *.
  pose proof (skip_whitespace_ge body (value_start + rel_end) ltac:(lia)) as Hst.
  set (stmt_end0 := skip_whitespace body (value_start + rel_end)) in *.
  set (raw := slice body value_start (value_start + rel_end)).
  destruct (valid_text body) eqn:Hvalid.
  - destruct (encoded_len_valid raw) as [n ->]; [by apply valid_text_slice|].
    cbn. case_match; lia.
  - destruct (encoded_len_cases raw) as [[n ->]| ->].
    + cbn. case_match; lia.
    + cbn. unfold scan_raises. auto.
Qed.

Lemma scan_loop_terminates (fuel : nat) :
  forall st,
    0 <= scan_pos st ->
    Z.max 0 (zlen body - scan_pos st + 1) < Z.of_nat fuel ->
    match scan_loop uw fuel body base st with
    | Ok _ => True
    | Raise e => scan_raises e
    end.
Proof.
  induction fuel as [|fuel IH]; intros st Hp Hfuel; [lia|].
  cbn [scan_loop].
  pose proof (scan_step_progress st Hp) as Hstep.
  destruct (scan_step uw body base st) as [[candidates|st']|e];
    cbn [mbind result_bind]; [done| |done].
  apply IH; lia.
Qed.

End assignment_scan.

(** C4 (amended): when an anchor is matched and what follows does not
    begin with a brace or bracket, or the decoder raises
    [JSONDecodeError] on it, the step keeps the candidates found so far
    and resumes the scan at the end of the failed match, which lies
    strictly after its start; and the scan terminates: it returns the
    candidates, or it is left by an exception the function does not
    catch, which is [UnicodeEncodeError] in a body that holds a lone
    surrogate, or the [RecursionError] or [ValueError] of the decoder at
    a limit of the interpreter. *)
Theorem assignment_scan_resumes_and_terminates (uw : Z -> bool) (body : text) (base : Z) :
  (forall st m,
     0 <= scan_pos st ->
     search_assignment uw body (scan_pos st) = Some m ->
     consumed_until st <= am_start m ->
     zlen body <= skip_whitespace body (am_end m) \/
     head_is (fun c => (c =? 91) || (c =? 123))
       (drop (Z.to_nat (skip_whitespace body (am_end m))) body) = false \/
     raw_decode (slice_from body (skip_whitespace body (am_end m))) = Raise JSONDecodeError ->
     scan_step uw body base st
       = Ok (ScanContinue (mkScanState (am_end m) (consumed_until st) (found st))) /\
     scan_pos st <= am_start m < am_end m) /\
  match detect_assignment_candidates uw body base with
  | Ok candidates => True
  | Raise e =>
      (e = UnicodeEncodeError /\ valid_text body = false) \/
      e = RecursionError \/ e = ValueError
  end.
Proof.
  split.
  - intros st m Hp Em Hc Hfail.
    destruct (search_assignment_bounds uw body _ m Hp Em) as (Hs & Hse & He).
    split; [|lia]. unfold scan_step. rewrite Em.
    assert ((am_start m <? consumed_until st) = false) as -> by (apply Z.ltb_ge; lia).
    destruct Hfail as [Hlen|[Hhead|Hdec]].
    + apply Z.leb_le in Hlen. by rewrite Hlen.
    + rewrite Hhead. by rewrite orb_true_r.
    + rewrite Hdec. by case_match.
  - unfold detect_assignment_candidates.
    apply (scan_loop_terminates uw body base (S (S (length body))) (mkScanState 0 0 [])).
    + done.
    + cbn [scan_pos]. unfold zlen. lia.
Qed.

(** ** The mode orchestrator (C5, C6, C7) *)

Section orchestrator.
Context (uw : Z -> bool) (loader_script : text) (float : Type) (to_bytes : float -> Z)
  (generated_at_utc : text) (serialize_manifest : Manifest float -> text).

#[local] Abbreviation run_ :=
  (run uw loader_script float to_bytes generated_at_utc serialize_manifest).
#[local] Abbreviation run_after_backup_ :=
  (run_after_backup uw loader_script float to_bytes generated_at_utc serialize_manifest).
#[local] Abbreviation externalize_ :=
  (externalize_to_directory uw loader_script float to_bytes generated_at_utc
     serialize_manifest).

(** Unfolds the sequencing of effects. *)
Ltac io_unfold := unfold mbind, io_bind, mret, io_ret, lift, raise.



(** C6 (amended): an invalid slug is rejected before any effect: the run
    raises [ValueError] and leaves the world as it was. *)
Theorem run_invalid_slug (args : Args float) (w : world) :
  slug_ok (a_slug float args) = false ->
  run_ args w = (w, Raise ValueError).
Proof.
  intros Hslug. unfold run, validate_slug. rewrite Hslug. io_unfold. done.
Qed.


End orchestrator.

(** ** Three-digit names *)

Lemma fold_digit_step_zeros (k : nat) :
  fold_left digit_step (replicate k 48) 0 = 0.
Proof. induction k as [|k IH]; [done|]. cbn [replicate fold_left]. exact IH. Qed.

Lemma format_03d_digits (n : Z) :
  0 <= n ->
  forallb is_digit (format_03d n) = true /\
  fold_left digit_step (format_03d n) 0 = n.
Proof.
  intros Hn. unfold format_03d.
  assert ((n <? 0) = false) as -> by (apply Z.ltb_ge; lia).
  destruct (digits_spec n Hn) as (d0 & ds' & -> & Hdig & Hval & _).
  split.
  - rewrite forallb_app, Hdig, andb_true_r.
    apply forallb_forall. intros c Hc%list_elem_of_In%elem_of_replicate. by destruct Hc as [-> _].
  - by rewrite fold_left_app, fold_digit_step_zeros.
Qed.

(** A three-digit name followed by an extension determines the number. *)
Lemma format_03d_inj (n m : Z) (e1 e2 : text) :
  0 <= n -> 0 <= m ->
  head_is is_digit e1 = false -> head_is is_digit e2 = false ->
  format_03d n ++ e1 = format_03d m ++ e2 -> n = m.
Proof.
  intros Hn Hm He1 He2 Heq.
  destruct (format_03d_digits n Hn) as [Hdn Hvn].
  destruct (format_03d_digits m Hm) as [Hdm Hvm].
  pose proof (scan_digits_app (format_03d n) e1 0 Hdn He1) as H1.
  pose proof (scan_digits_app (format_03d m) e2 0 Hdm He2) as H2.
  rewrite Heq, H2, Hvn, Hvm in H1. by injection H1.
Qed.

(** ** Effects, step by step *)

Lemma io_bind_ok {A B} (m : io A) (k : A -> io B) (w w' : world) (b : B) :
  (m ≫= k) w = (w', Ok b) ->
  exists w1 a, m w = (w1, Ok a) /\ k a w1 = (w', Ok b).
Proof.
  unfold mbind, io_bind. destruct (m w) as [w1 [a|e]]; [eauto|done].
Qed.

Lemma lift_ok {A} (r : result A) (w w' : world) (a : A) :
  lift r w = (w', Ok a) -> w' = w /\ r = Ok a.
Proof. unfold lift. by intros [= -> ->]. Qed.

Lemma write_text_ok (p s : text) (w w' : world) (u : unit) :
  write_text p s w = (w', Ok u) ->
  exists content, encode s = Ok content /\ files w' = <[p := content]> (files w).
Proof.
  unfold write_text. destruct (encode s) as [content|e]; [|done].
  intros [= <- _]. eauto.
Qed.

Lemma mkdir_ok (p : text) (w w' : world) (u : unit) :
  mkdir p w = (w', Ok u) -> files w' = files w.
Proof.
  unfold mkdir. destruct (files w !! p); [done|]. by intros [= <- _].
Qed.

Lemma utf8_decode_encode (s : text) (b : bytes) :
  utf8_encode s = Some b -> utf8_decode b = Some s.
Proof.
  revert b. induction s as [|c s IH]; intros b; cbn [utf8_encode].
  - by intros [= <-].
  - destruct (utf8_encode_cp c) as [bc|] eqn:Ec; [|done].
    destruct (utf8_encode s) as [bs|]; [|done]. intros [= <-].
    rewrite (utf8_decode_encode_cp c bc bs Ec), (IH bs eq_refl). done.
Qed.

Lemma decode_encode (s : text) (b : bytes) : encode s = Ok b -> decode b = Ok s.
Proof.
  unfold encode, decode. destruct (utf8_encode s) as [b'|] eqn:E; [|done].
  intros [= <-]. by rewrite (utf8_decode_encode s b').
Qed.

Lemma encoded_len_encode (s : text) (b : bytes) (n : Z) :
  encode s = Ok b -> encoded_len s = Ok n -> n = zlen b.
Proof. unfold encoded_len. intros ->. cbn. by intros [= <-]. Qed.

(** ** Chunk paths *)

Lemma chunk_ext_head (ext : text) : chunk_ext ext -> head_is is_digit ext = false.
Proof. by intros [-> | ->]. Qed.

Lemma chunk_path_inj (data_dir : text) (n m : Z) (e1 e2 : text) :
  0 <= n -> 0 <= m -> chunk_ext e1 -> chunk_ext e2 ->
  path_join data_dir (chunk_filename n e1) = path_join data_dir (chunk_filename m e2) ->
  n = m.
Proof.
  intros Hn Hm He1 He2. unfold path_join, chunk_filename.
  intros H%app_inv_head%app_inv_head%app_inv_head.
  apply (format_03d_inj n m e1 e2); auto using chunk_ext_head.
Qed.

Lemma entry_path_join (viewer_dir filename : text) :
  path_join viewer_dir (T "data/" ++ filename)
    = path_join (path_join viewer_dir (T "data")) filename.
Proof.
  unfold path_join. rewrite <- !app_assoc. done.
Qed.

Lemma entry_consistent_frame (viewer_dir : text) (fs fs' : gmap text bytes) (e : ChunkEntry) :
  fs' !! path_join viewer_dir (e_path e) = fs !! path_join viewer_dir (e_path e) ->
  entry_consistent viewer_dir fs e -> entry_consistent viewer_dir fs' e.
Proof.
  intros Hsame (content & Hfile & Hrest). exists content. by rewrite Hsame.
Qed.

(** ** The chunk writers keep the entries consistent (C10) *)

Section manifest_facts.
Context (viewer_dir : text).

#[local] Abbreviation data_dir_ := (path_join viewer_dir (T "data")).

Lemma chunk_path_not_between (lo hi n : Z) (ext : text) :
  0 <= n -> n < lo -> chunk_ext ext -> 0 <= lo ->
  ~ chunk_path_between data_dir_ lo hi (path_join data_dir_ (chunk_filename n ext)).
Proof.
  intros Hn Hlt Hext Hlo (m & ext' & Hm & Hext' & Heq).
  apply chunk_path_inj in Heq; [lia|lia|lia|done|done].
Qed.

Lemma write_array_slices_spec (slices : list (list json)) :
  forall counter entries w w' entries' counter',
    0 <= counter ->
    write_array_slices slices data_dir_ counter entries w = (w', Ok (entries', counter')) ->
    counter <= counter' /\
    (forall p, ~ chunk_path_between data_dir_ counter counter' p ->
               files w' !! p = files w !! p) /\
    exists new,
      entries' = entries ++ new /\
      Forall (fun e => entry_consistent viewer_dir (files w') e /\ entry_numbered counter' e) new.
Proof.
  induction slices as [|arr rest IH]; intros counter entries w w' entries' counter' Hc H.
  - cbn in H. injection H as <- <- <-. split_and!; [lia|done|].
    exists []. by rewrite app_nil_r.
  - cbn [write_array_slices] in H.
    apply io_bind_ok in H as (w0 & json_text & Hd & H).
    apply lift_ok in Hd as [-> ->%json_dumps_ok].
    apply io_bind_ok in H as (w1 & u & Hw & H).
    apply io_bind_ok in H as (w2 & n & Hl & H).
    apply lift_ok in Hl as [-> Hn].
    apply write_text_ok in Hw as (content & Henc & Hfiles).
    apply IH in H as (Hle & Hframe & new & -> & Hnew); [|lia].
    set (p0 := path_join data_dir_ (chunk_filename counter (T ".json"))) in *.
    assert (files w' !! p0 = Some content) as Hp0.
    { rewrite Hframe, Hfiles; [by rewrite lookup_insert_eq|].
      apply chunk_path_not_between; try lia. by left. }
    split_and!; [lia| |].
    + intros p Hp. rewrite Hframe, Hfiles.
      * apply lookup_insert_ne. intros <-. apply Hp.
        exists counter, (T ".json"). split_and!; [lia|lia|by left|done].
      * intros (m & ext & Hm & Hext & ->). apply Hp.
        exists m, ext. split_and!; [lia|lia|done|done].
    + eexists (_ :: new). split; [by rewrite <- app_assoc|].
      constructor; [|done]. split.
      * exists content. cbn [e_path e_bytes e_format e_items].
        rewrite entry_path_join. split_and!; [done|by eapply encoded_len_encode|].
        exists arr. split_and!; [by apply decode_encode|done|apply JSON_parse_dumps].
      * exists counter, (T ".json"). split_and!; [lia|lia|by left|done].
Qed.

Lemma write_text_parts_spec (parts : list text) :
  forall counter entries w w' entries' counter',
    0 <= counter ->
    write_text_parts parts data_dir_ counter entries w = (w', Ok (entries', counter')) ->
    counter <= counter' /\
    (forall p, ~ chunk_path_between data_dir_ counter counter' p ->
               files w' !! p = files w !! p) /\
    exists new,
      entries' = entries ++ new /\
      Forall (fun e => entry_consistent viewer_dir (files w') e /\ entry_numbered counter' e) new.
Proof.
  induction parts as [|part rest IH]; intros counter entries w w' entries' counter' Hc H.
  - cbn in H. injection H as <- <- <-. split_and!; [lia|done|].
    exists []. by rewrite app_nil_r.
  - cbn [write_text_parts] in H.
    apply io_bind_ok in H as (w1 & u & Hw & H).
    apply io_bind_ok in H as (w2 & n & Hl & H).
    apply lift_ok in Hl as [-> Hn].
    apply write_text_ok in Hw as (content & Henc & Hfiles).
    apply IH in H as (Hle & Hframe & new & -> & Hnew); [|lia].
    set (p0 := path_join data_dir_ (chunk_filename counter (T ".txt"))) in *.
    assert (files w' !! p0 = Some content) as Hp0.
    { rewrite Hframe, Hfiles; [by rewrite lookup_insert_eq|].
      apply chunk_path_not_between; try lia. by right. }
    split_and!; [lia| |].
    + intros p Hp. rewrite Hframe, Hfiles.
      * apply lookup_insert_ne. intros <-. apply Hp.
        exists counter, (T ".txt"). split_and!; [lia|lia|by right|done].
      * intros (m & ext & Hm & Hext & ->). apply Hp.
        exists m, ext. split_and!; [lia|lia|done|done].
    + eexists (_ :: new). split; [by rewrite <- app_assoc|].
      constructor; [|done]. split.
      * exists content. cbn [e_path e_bytes e_format e_items].
        rewrite entry_path_join. split_and!; [done|by eapply encoded_len_encode|done].
      * exists counter, (T ".txt"). split_and!; [lia|lia|by right|done].
Qed.

(** An entry that is consistent and numbered. *)
Definition entry_ok (fs : gmap text bytes) (hi : Z) (e : ChunkEntry) : Prop :=
  entry_consistent viewer_dir fs e /\ entry_numbered hi e.

Lemma entry_ok_frame (fs fs' : gmap text bytes) (lo hi hi' : Z) (e : ChunkEntry) :
  0 <= lo -> lo <= hi' ->
  (forall p, ~ chunk_path_between data_dir_ lo hi p -> fs' !! p = fs !! p) ->
  entry_ok fs lo e -> entry_ok fs' hi' e.
Proof.
  intros Hlo Hhi Hframe [Hcons (n & ext & Hn & Hext & Hpath)]. split.
  - apply (entry_consistent_frame viewer_dir fs fs'); [|done].
    apply Hframe. rewrite Hpath, entry_path_join.
    apply chunk_path_not_between; (lia || done).
  - exists n, ext. split_and!; (lia || done).
Qed.

Lemma entry_ok_mono (fs : gmap text bytes) (hi hi' : Z) (e : ChunkEntry) :
  hi <= hi' -> entry_ok fs hi e -> entry_ok fs hi' e.
Proof.
  intros Hhi [Hcons (n & ext & Hn & Hext & Hpath)]. split; [done|].
  exists n, ext. split_and!; (lia || done).
Qed.

Lemma write_text_chunks_spec (v : json) (target counter : Z) (w w' : world)
    (entries : list ChunkEntry) (counter' : Z) (strat : strategy) :
  0 <= counter ->
  write_text_chunks v data_dir_ target counter w = (w', Ok (entries, counter', strat)) ->
  counter <= counter' /\
  (forall p, ~ chunk_path_between data_dir_ counter counter' p ->
             files w' !! p = files w !! p) /\
  Forall (entry_ok (files w') counter') entries.
Proof.
  intros Hc H. unfold write_text_chunks in H.
  apply io_bind_ok in H as (w0 & json_text & Hd & H). apply lift_ok in Hd as [-> _].
  apply io_bind_ok in H as (w1 & parts & Hl & H). apply lift_ok in Hl as [-> _].
  apply io_bind_ok in H as (w2 & [es c] & Hw & H).
  injection H as <- <- <- <-.
  apply write_text_parts_spec in Hw as (Hle & Hframe & new & -> & Hnew); [|done].
  by split_and!.
Qed.

Lemma write_array_chunks_spec (items : list json) (target counter : Z) (w w' : world)
    (entries : list ChunkEntry) (counter' : Z) (strat : strategy) :
  0 <= counter ->
  write_array_chunks items data_dir_ target counter w = (w', Ok (entries, counter', strat)) ->
  counter <= counter' /\
  (forall p, ~ chunk_path_between data_dir_ counter counter' p ->
             files w' !! p = files w !! p) /\
  Forall (entry_ok (files w') counter') entries.
Proof.
  intros Hc H. unfold write_array_chunks in H.
  apply io_bind_ok in H as (w1 & slices & Hl & H). apply lift_ok in Hl as [-> _].
  apply io_bind_ok in H as (w2 & [es c] & Hw & H).
  injection H as <- <- <- <-.
  apply write_array_slices_spec in Hw as (Hle & Hframe & new & -> & Hnew); [|done].
  by split_and!.
Qed.

Lemma emit_candidates_spec (target : Z) (candidates : list BlobCandidate) :
  forall idx st w w' st',
    0 <= es_chunk_counter st ->
    emit_candidates candidates idx data_dir_ target st w = (w', Ok st') ->
    Forall (fun blob => Forall (entry_ok (files w) (es_chunk_counter st)) (b_chunks blob))
      (es_blobs st) ->
    es_chunk_counter st <= es_chunk_counter st' /\
    (forall p, ~ chunk_path_between data_dir_ (es_chunk_counter st) (es_chunk_counter st') p ->
               files w' !! p = files w !! p) /\
    Forall (fun blob => Forall (entry_ok (files w') (es_chunk_counter st')) (b_chunks blob))
      (es_blobs st').
Proof.
  induction candidates as [|c rest IH]; intros idx st w w' st' Hc H Hold.
  - cbn in H. injection H as <- <-. by split_and!.
  - cbn [emit_candidates] in H.
    apply io_bind_ok in H as (w1 & [[entries counter1] strat] & Hw & H).
    assert (es_chunk_counter st <= counter1 /\
            (forall p, ~ chunk_path_between data_dir_ (es_chunk_counter st) counter1 p ->
                       files w1 !! p = files w !! p) /\
            Forall (entry_ok (files w1) counter1) entries) as (Hle & Hframe & Hnew).
    { destruct (value c);
        first [by apply write_text_chunks_spec in Hw
              |by apply write_array_chunks_spec in Hw]. }
    apply io_bind_ok in H as (w2 & repl & Hl & H). apply lift_ok in Hl as [-> _].
    apply IH in H as (Hle' & Hframe' & Hall); cbn [es_chunk_counter es_blobs] in *.
    + split_and!; [lia| |done].
      intros p Hp. rewrite Hframe', Hframe; [done| |].
      * intros (n & ext & Hn & Hext & ->). apply Hp. exists n, ext. split_and!; (lia || done).
      * intros (n & ext & Hn & Hext & ->). apply Hp. exists n, ext. split_and!; (lia || done).
    + lia.
    + apply Forall_app. split.
      * eapply Forall_impl; [exact Hold|]. intros blob Hblob.
        eapply Forall_impl; [exact Hblob|]. intros e He.
        by apply (entry_ok_frame (files w) (files w1) (es_chunk_counter st) counter1).
      * apply Forall_singleton. done.
Qed.

End manifest_facts.

Section manifest_theorem.
Context (uw : Z -> bool) (loader_script : text) (float : Type) (to_bytes : float -> Z)
  (generated_at_utc : text) (serialize_manifest : Manifest float -> text).

Lemma entry_path_not_top (viewer_dir name : text) (hi : Z) (e : ChunkEntry) :
  head_is (Z.eqb 100) name = false ->
  entry_numbered hi e ->
  path_join viewer_dir name <> path_join viewer_dir (e_path e).
Proof.
  intros Hname (n & ext & _ & _ & ->). unfold path_join.
  intros H%app_inv_head%app_inv_head. by rewrite H in Hname.
Qed.

(** C10: after a run of the directory externalization that completes,
    the manifest it wrote is on disk, and every chunk entry of every blob
    of that manifest agrees with the chunk file at the entry's path: the
    [bytes] field is the length of the file, and for an array chunk the
    file is the serialization of an array with [items] elements. *)
Theorem manifest_entries_consistent (html : text) (candidates : list BlobCandidate)
    (outdir slug : text) (chunk_mb : float) (w w' : world) (x : Externalized float) :
  externalize_to_directory uw loader_script float to_bytes generated_at_utc serialize_manifest
    html candidates outdir slug chunk_mb w = (w', Ok x) ->
  (exists content,
     encode (serialize_manifest (x_manifest float x)) = Ok content /\
     files w' !! x_manifest_path float x = Some content) /\
  Forall (fun blob =>
            Forall (entry_consistent (x_viewer_dir float x) (files w')) (b_chunks blob))
    (m_blobs float (x_manifest float x)).
Proof.
  unfold externalize_to_directory. intros H.
  case_bool_decide; [done|].
  destruct (to_bytes chunk_mb <=? 0); [done|].
  apply io_bind_ok in H as (w1 & u1 & Hm1%mkdir_ok & H).
  apply io_bind_ok in H as (w2 & u2 & Hm2%mkdir_ok & H).
  apply io_bind_ok in H as (w3 & st & Hemit & H).
  apply io_bind_ok in H as (w4 & u4 & (mc & Hmc & Hf4)%write_text_ok & H).
  apply io_bind_ok in H as (w5 & u5 & (ic & Hic & Hf5)%write_text_ok & H).
  injection H as <- <-. cbn [x_manifest x_manifest_path x_viewer_dir m_blobs].
  apply emit_candidates_spec in Hemit as (_ & _ & Hall); [|done|by constructor].
  cbn [es_chunk_counter] in Hall.
  split.
  - exists mc. split; [done|]. rewrite Hf5, Hf4.
    rewrite lookup_insert_ne, lookup_insert_eq; [done|].
    unfold path_join. by intros H%app_inv_head%app_inv_head.
  - eapply Forall_impl; [exact Hall|]. intros blob Hblob.
    eapply Forall_impl; [exact Hblob|]. intros e [Hcons Hnum].
    apply (entry_consistent_frame _ (files w3)); [|done].
    rewrite Hf5, Hf4.
    rewrite !lookup_insert_ne; [done| |]; by eapply entry_path_not_top.
Qed.

End manifest_theorem.

End properties.

(* ===================================================================== *)
(** * Part III: the properties at work *)
(* ===================================================================== *)

(** The theorems of Part II on concrete inputs, and the inputs on which
    the claims as stated fail, under the interpreter [example_runtime]. *)

(** ** The interpreter of the examples *)

(** The limits are those of CPython 3.11 with its defaults when the
    program is run from the command line: integer literals of up to 4300
    digits, and of the recursion limit of 1000 what the frames between
    the interpreter's start and each call of the [json] module leave.  A
    [float] is represented by the text [json.dumps] writes for it, which
    determines it; [float] of a literal is taken to be the literal
    itself, which is right for the literals that are a [repr] (the
    examples use no others). *)
#[global] Instance example_runtime : PyRuntime := {|
  pyfloat := text;
  float_of_literal := fun s => s;
  float_nan := T "NaN";
  float_inf := T "Infinity";
  float_neg_inf := T "-Infinity";
  float_dumps := fun f => f;
  int_max_str_digits := 4300;
  loads_depth := 992;
  raw_decode_depth := 993;
  item_dumps_depth := 990;
  chunk_dumps_depth := 991;
  float_read_back := fun f _ => eq_refl
|}.

(** A run on a document stored in [/in.html], with the megabyte
    arguments given directly in bytes. *)
Definition demo_world (content : bytes) : world :=
  mkWorld {[ T "/in.html" := content ]} ∅ [].

Definition demo_args (slug : text) (m : mode) (threshold chunk : Z) : Args Z :=
  mkArgs Z (T "/in.html") (T "/out") slug m threshold chunk.

Definition demo_run (content : bytes) (slug : text) (m : mode) (threshold chunk : Z)
    : world * result (run_report Z) :=
  run (fun _ => false) (T "LOADER") Z (fun b => b) (T "now") (fun _ => T "{}")
    (demo_args slug m threshold chunk) (demo_world content).

(** Arrays one inside the other: [nested n] is [n + 1] of them. *)
Definition nested (n : nat) : json := Nat.iter n (fun v => JArr [v]) (JArr []).

(** An array and a value with a float, a string beyond ASCII and a
    nested array. *)
Definition sample_items : list json :=
  [JInt 1; JFloat (T "2.5"); JStr [233; 97]; JArr [JNull]; JInt 5].

Definition sample_value : json :=
  JObj [(T "k", JArr [JStr [233; 0x1F600; 97]; JFloat (T "1.5"); JInt (-3)])].


(** A document with an array of integers (7 bytes) and an array of
    floats (5 bytes). *)
Definition two_arrays_html : text := T "<script>var a = [1,2,3]; var b = [1.5];</script>".

Definition two_arrays_candidates : list BlobCandidate :=
  [mkBlobCandidate js_assignment 8 24 7 (T "[1,2,3]") (JArr [JInt 1; JInt 2; JInt 3])
     None None false (Some style_declaration) (Some (T "var")) (Some (T "a"));
   mkBlobCandidate js_assignment 25 39 5 (T "[1.5]") (JArr [JFloat (T "1.5")])
     None None false (Some style_declaration) (Some (T "var")) (Some (T "b"))].

(** Two JSON script elements: the first with an empty [id] attribute, the
    second with none. *)
Definition two_scripts_document : text :=
  T "<script type=" ++ QUOTE ++ T "application/json" ++ QUOTE
    ++ T " id=" ++ QUOTE ++ QUOTE ++ T ">{" ++ QUOTE ++ T "a" ++ QUOTE ++ T ":1}</script>"
  ++ T "<script type=" ++ QUOTE ++ T "application/json" ++ QUOTE
    ++ T ">{" ++ QUOTE ++ T "b" ++ QUOTE ++ T ":2}</script>".

(** ** Array slicing (C1, C3) *)

Lemma sample_items_sizable : Forall sizable sample_items.
Proof.
  repeat (apply Forall_cons_2; [eexists; vm_compute; reflexivity|]). apply Forall_nil_2.
Qed.

Lemma split_array_round_trip_witness :
  exists chunks,
    split_array_for_target_bytes sample_items 8 = Ok chunks /\
    concat chunks = sample_items /\
    Forall (fun frag =>
      json_plain (JArr frag) -> JSON_parse (dumps (JArr frag)) = Ok (JArr frag)) chunks /\
    (json_plain (JArr sample_items) ->
     reconstruct array_slices (map (fun frag => dumps (JArr frag)) chunks)
       = Some (JArr sample_items)) /\
    (sample_items = [] -> chunks = [[]]).
Proof.
  apply split_array_round_trip.
  - lia.
  - apply sample_items_sizable.
Defined.

(** C1 as stated fails on arrays that [json.loads] builds.  The array
    read from a text with the escape of a lone surrogate makes the planner
    raise [UnicodeEncodeError]; the array read from [[Infinity]] is
    planned into a fragment whose serialization, [[Infinity]], is not
    valid JSON; and the array read from 992 brackets one inside the other
    is more than [json.dumps] can enter where the planner calls it. *)
Lemma split_array_round_trip_counterexample :
  (loads ([91; 34] ++ T "\ud800" ++ [34; 93]) = Ok (JArr [JStr [0xD800]]) /\
   split_array_for_target_bytes [JStr [0xD800]] 100 = Raise UnicodeEncodeError) /\
  (loads (T "[Infinity]") = Ok (JArr [JFloat float_inf]) /\
   split_array_for_target_bytes [JFloat float_inf] 100 = Ok [[JFloat float_inf]] /\
   dumps (JArr [JFloat float_inf]) = T "[Infinity]" /\
   JSON_parse (T "[Infinity]") = Raise JSONDecodeError) /\
  (loads (replicate 992 91 ++ replicate 992 93) = Ok (JArr [nested 990]) /\
   split_array_for_target_bytes [nested 990] 100 = Raise RecursionError).
Proof. split_and!; try reflexivity; vm_compute; reflexivity. Qed.

Lemma split_array_byte_bound_witness :
  exists chunks,
    split_array_for_target_bytes sample_items 8 = Ok chunks /\
    Forall (fun frag =>
      exists b, encode (dumps (JArr frag)) = Ok b /\
        (zlen b <= 8 \/
         (exists item, frag = [item] /\ zlen b = byte_size item + 2) \/
         (frag = [] /\ sample_items = [] /\ zlen b = 2))) chunks.
Proof.
  apply split_array_byte_bound.
  - lia.
  - apply sample_items_sizable.
Defined.

(** C3 as stated fails: with a budget of 2 bytes the array [[1]] gives
    the fragment [[1]] of 3 bytes, although the item's own serialization
    (1 byte) does not exceed the budget. *)
Lemma split_array_byte_bound_counterexample :
  split_array_for_target_bytes [JInt 1] 2 = Ok [[JInt 1]] /\
  encode (dumps (JArr [JInt 1])) = Ok [91; 49; 93] /\
  2 < zlen [91; 49; 93] /\
  item_size (JInt 1) = Ok 1 /\
  1 <= 2.
Proof. split_and!; try reflexivity. lia. Qed.

(** ** Text splitting (C2) *)

Lemma split_utf8_round_trip_witness :
  exists parts payload,
    split_utf8_text_by_bytes (dumps sample_value) 4 = Ok parts /\
    encode (dumps sample_value) = Ok payload /\
    concat parts = dumps sample_value /\
    (json_plain sample_value -> reconstruct text_concat parts = Some sample_value) /\
    forall k, exists b,
      encode (concat (take k parts)) = Ok b /\ at_boundary payload (zlen b).
Proof.
  apply split_utf8_round_trip.
  - eexists. vm_compute. reflexivity.
  - lia.
  - by apply code_points_fit_4.
Defined.

(** C2 as stated fails in three ways.  With a budget below the width of
    a code point the forced advance cuts the two-byte code point U+00E9
    after its first byte, and decoding that piece raises.  A string with
    a lone surrogate has no UTF-8 encoding: the splitter raises whatever
    the budget.  And the serialization of not-a-number, [NaN], is split
    and joined but is not valid JSON: the loader cannot parse it. *)
Lemma split_utf8_small_budget_counterexample :
  (encode (dumps (JStr [233])) = Ok [34; 195; 169; 34] /\
   split_utf8_text_by_bytes (dumps (JStr [233])) 1 = Raise UnicodeDecodeError) /\
  (code_points_fit 100 (dumps (JStr [0xD800])) /\
   split_utf8_text_by_bytes (dumps (JStr [0xD800])) 100 = Raise UnicodeEncodeError) /\
  (loads (T "NaN") = Ok (JFloat float_nan) /\
   split_utf8_text_by_bytes (dumps (JFloat float_nan)) 100 = Ok [T "NaN"] /\
   reconstruct text_concat [T "NaN"] = None).
Proof.
  split_and!; try reflexivity.
  repeat (apply Forall_cons_2; [by vm_compute|]). apply Forall_nil_2.
Qed.

(** ** The assignment scan (C4) *)

(** C4 as stated fails: after the failed match [var a = ] (offsets 0 to
    8) the scan position is 8, the end of the match, not a position
    before it. *)
Lemma assignment_scan_resumes_counterexample :
  search_assignment (fun _ => false) (T "var a = 1;") 0
    = Some (mkAssignMatch 0 8 (Some (T "var")) (Some (T "a")) None) /\
  scan_step (fun _ => false) (T "var a = 1;") 0 (mkScanState 0 0 [])
    = Ok (ScanContinue (mkScanState 8 0 [])).
Proof. split; reflexivity. Qed.

(** An array of floats is a candidate like any other. *)
Lemma assignment_scan_float_example :
  detect_assignment_candidates (fun _ => false) (T "var a = [1.5];") 0
    = Ok [mkBlobCandidate js_assignment 0 14 5 (T "[1.5]") (JArr [JFloat (T "1.5")])
            None None false (Some style_declaration) (Some (T "var")) (Some (T "a"))].
Proof. reflexivity. Qed.

(** Fifteen hundred open brackets are more than the decoder may enter:
    its [RecursionError] is not caught and ends the scan. *)
Lemma assignment_scan_deep_example :
  detect_assignment_candidates (fun _ => false) (T "var a = " ++ replicate 1500 91) 0
    = Raise RecursionError.
Proof. vm_compute. reflexivity. Qed.

(** ** The mode orchestrator (C5, C6, C7) *)




(** A document whose only payload is an array of floats has a candidate,
    and the run copies it. *)
Lemma run_float_document_example :
  exists w,
    demo_run (T "<script>var a = [1.5];</script>") (T "demo") mode_auto 80 50
      = (w, Ok (ReportAutoSingle Z (T "/out/demo.html"))).
Proof. eexists. vm_compute. reflexivity. Qed.

(** A payload of 992 brackets one inside the other is decoded, and is
    then more than [json.dumps] can enter where the planner calls it: the
    run in directory mode ends with [RecursionError]. *)
Lemma run_deep_document_example :
  detect_candidates (fun _ => false)
      (T "<script>var a = " ++ replicate 992 91 ++ replicate 992 93 ++ T ";</script>")
    = Ok [mkBlobCandidate js_assignment 8 2001 1984 (replicate 992 91 ++ replicate 992 93)
            (JArr [nested 990]) None None false
            (Some style_declaration) (Some (T "var")) (Some (T "a"))] /\
  snd (demo_run (T "<script>var a = " ++ replicate 992 91 ++ replicate 992 93 ++ T ";</script>")
         (T "demo") mode_directory 80 50)
    = Raise RecursionError.
Proof. split; vm_compute; reflexivity. Qed.

(** A run on the backup copy of an earlier run stops at the backup:
    [shutil.copy2] refuses to copy a file onto itself. *)
Lemma run_on_backup_example :
  snd (run (fun _ => false) (T "LOADER") Z (fun b => b) (T "now") (fun _ => T "{}")
         (mkArgs Z (T "/out/_backups/demo.original.html") (T "/out") (T "demo")
            mode_auto 80 50)
         (mkWorld {[ T "/out/_backups/demo.original.html" := T "<html></html>" ]}
            {[ T "/out"; T "/out/_backups" ]} []))
    = Raise SameFileError.
Proof. vm_compute. reflexivity. Qed.

Lemma run_invalid_slug_witness :
  demo_run (T "<html></html>") (T "a b") mode_auto 80 50
    = (demo_world (T "<html></html>"), Raise ValueError).
Proof.
  apply (run_invalid_slug (fun _ => false) (T "LOADER") Z (fun b => b) (T "now")
           (fun _ => T "{}") (demo_args (T "a b") mode_auto 80 50)).
  reflexivity.
Defined.

(** C6 as stated fails for the other configuration errors: a chunk size
    of zero is rejected only after the output directory and the backup
    copy were made; a collision of input and output is rejected only
    after the backup copy; and a threshold of zero is not rejected. *)
Lemma run_late_validation_counterexample :
  (let '(w, r) := demo_run (T "<script>var a = [1,2,3];</script>") (T "demo")
                    mode_directory 80 0 in
   r = Raise ValueError /\
   events w = [EvMkdir (T "/out"); EvMkdir (T "/out/_backups");
               EvCopy (T "/in.html") (T "/out/_backups/demo.original.html")]) /\
  (let '(w, r) := run (fun _ => false) (T "LOADER") Z (fun b => b) (T "now") (fun _ => T "{}")
                    (mkArgs Z (T "/out/demo.html") (T "/out") (T "demo") mode_single 80 50)
                    (mkWorld {[ T "/out/demo.html" := T "<html></html>" ]} ∅ []) in
   r = Raise ValueError /\
   events w = [EvMkdir (T "/out"); EvMkdir (T "/out/_backups");
               EvCopy (T "/out/demo.html") (T "/out/_backups/demo.original.html");
               EvMkdir (T "/out")]) /\
  (exists w x, demo_run (T "<script>var a = [1,2,3];</script>") (T "demo") mode_auto 0 50
               = (w, Ok (ReportDirectory Z mode_auto x))).
Proof.
  split_and!.
  - vm_compute. by split.
  - vm_compute. by split.
  - eexists _, _. vm_compute. reflexivity.
Qed.



(** ** The manifest (C10) *)

Lemma manifest_entries_consistent_witness :
  match externalize_to_directory (fun _ => false) (T "LOADER") Z (fun b => b) (T "now")
          (fun _ => T "{}") two_arrays_html two_arrays_candidates
          (T "/out") (T "demo") 4 (demo_world two_arrays_html) with
  | (w', Ok x) =>
      (exists content,
         encode (T "{}") = Ok content /\ files w' !! x_manifest_path Z x = Some content) /\
      Forall (fun blob =>
                Forall (entry_consistent (x_viewer_dir Z x) (files w')) (b_chunks blob))
        (m_blobs Z (x_manifest Z x))
  | (_, Raise _) => False
  end.
Proof.
  destruct (externalize_to_directory _ _ _ _ _ _ _ _ _ _ _ _) as [w' [x|e]] eqn:E.
  - exact (manifest_entries_consistent _ _ _ _ _ _ _ _ _ _ _ _ _ _ E).
  - vm_compute in E. discriminate.
Defined.

(** ** Synthesized script ids (C8) *)

(** C8 fails on the code: an element whose [id] attribute is empty gets
    the synthesized id of the current counter ([existing_id or ...])
    while the counter is advanced only when [existing_id is None], so the
    next element without an id gets the same synthesized id. *)
Lemma detect_candidates_duplicate_id :
  exists c1 c2,
    detect_candidates (fun _ => false) two_scripts_document = Ok [c1; c2] /\
    extract_attr (fun _ => false) (default [] (script_attrs c1)) (T "id") = Some [] /\
    extract_attr (fun _ => false) (default [] (script_attrs c2)) (T "id") = None /\
    script_id c1 = Some (T "karospace_data_000") /\
    script_had_id c1 = true /\
    script_id c2 = Some (T "karospace_data_000") /\
    script_had_id c2 = false.
Proof. eexists _, _. split_and!; reflexivity. Qed.
